(** * medusa-retention-refresher: a shallow embedding of [main.go]

    The tool walks the backup manifests of one cluster in an S3 bucket and
    extends the Object Lock retention of every object the manifests name.

    The development embeds [main.go] function by function: the string and
    JSON operations it calls, its pure functions ([extractHostnamePath],
    [parseManifest], [needsRetentionUpdate]) and, over the client interface
    [S3API], its effectful ones ([findManifests], [downloadManifest],
    [checkRetention], [updateRetention], [main]) as computations that thread
    the state of the client and record the calls they issue.  Three clients
    instantiate the interface: a bucket in memory, the mock of the tests and
    the bucket behind the service, which keeps an expiry to the millisecond
    and may deny a retention query.

    The properties follow: the policy evaluator (C1), the key resolver (C4,
    C5), the manifest parser (C3), the retention query (C6), discovery (C7),
    error containment (C8), the mode and the monotonicity of updates (C10,
    C2) and what a second pass does (C9). *)

From Stdlib Require Import ZArith Ascii String.
From stdpp Require Import base option list strings gmap sorting.

Local Open Scope Z_scope.
Set Warnings "-register-all".

(** ** Go values *)

(** A Go [error], by the message its [Error()] method returns. *)
Definition error := string.

(** A Go result pair [(value, error)] with exactly one side set. *)
Inductive Res (A : Type) : Type :=
| Ok (a : A)
| Err (e : error).
Arguments Ok {A} a.
Arguments Err {A} e.

Definition isErr {A} (r : Res A) : bool :=
  match r with Ok _ => false | Err _ => true end.

(** A [time.Time] without monotonic reading (what the S3 client decodes and
    what [AddDate] returns), by its instant in nanoseconds since the epoch. *)
Definition Time := Z.

(** [t.Before(u)] *)
Definition Before (t u : Time) : bool := t <? u.

(** ** Package [strings] *)

Module strings.

(** [strings.HasPrefix(s, prefix)] *)
Fixpoint HasPrefix (s prefix : string) {struct prefix} : bool :=
  match prefix, s with
  | EmptyString, _ => true
  | String _ _, EmptyString => false
  | String p prefix', String c s' => if decide (c = p) then HasPrefix s' prefix' else false
  end.

(** [s[n:]], empty when [n] exceeds the length *)
Fixpoint from (n : nat) (s : string) : string :=
  match n, s with
  | O, _ => s
  | S _, EmptyString => EmptyString
  | S n', String _ s' => from n' s'
  end.

(** [strings.HasSuffix(s, suffix)]:
    [len(s) >= len(suffix) && s[len(s)-len(suffix):] == suffix] *)
Definition HasSuffix (s suffix : string) : bool :=
  bool_decide (String.length suffix ≤ String.length s)%nat
  && bool_decide (from (String.length s - String.length suffix) s = suffix).

(** [strings.Contains(s, substr)] *)
Fixpoint Contains (s substr : string) : bool :=
  HasPrefix s substr
  || match s with
     | EmptyString => false
     | String _ s' => Contains s' substr
     end.

(** [strings.Split(s, sep)] for a separator of one byte, the only way the
    program calls it. *)
Fixpoint Split (s : string) (sep : ascii) : list string :=
  match s with
  | EmptyString => [EmptyString]
  | String c s' =>
      if decide (c = sep) then EmptyString :: Split s' sep
      else match Split s' sep with
           | [] => [String c EmptyString]
           | part :: parts => String c part :: parts
           end
  end.

(** [strings.Join(parts, sep)], the inverse of [Split] *)
Fixpoint Join (parts : list string) (sep : ascii) : string :=
  match parts with
  | [] => EmptyString
  | [part] => part
  | part :: parts' => part +:+ String sep (Join parts' sep)
  end.

(** the byte [c] occurs in [s] *)
Fixpoint hasByte (c : ascii) (s : string) : bool :=
  match s with
  | EmptyString => false
  | String d s' => bool_decide (d = c) || hasByte c s'
  end.

(** the number of [sep] bytes in [s] *)
Fixpoint count (sep : ascii) (s : string) : nat :=
  match s with
  | EmptyString => 0
  | String c s' => ((if decide (c = sep) then 1 else 0) + count sep s')%nat
  end.

(** [s[:n]], all of [s] when [n] exceeds the length *)
Fixpoint upto (n : nat) (s : string) : string :=
  match n, s with
  | O, _ => EmptyString
  | S _, EmptyString => EmptyString
  | S n', String c s' => String c (upto n' s')
  end.

(** [strings.TrimSuffix(s, suffix)]:
    [if HasSuffix(s, suffix) { return s[:len(s)-len(suffix)] }; return s] *)
Definition TrimSuffix (s suffix : string) : string :=
  if HasSuffix s suffix then upto (String.length s - String.length suffix) s else s.

End strings.

(** ** The manifest types *)

(** [ManifestObject] *)
Record ManifestObject := {
  Path : string;
  MD5 : string;
  Size : Z
}.

(** [ManifestEntry] *)
Record ManifestEntry := {
  Keyspace : string;
  ColumnFamily : string;
  EntryObjects : list ManifestObject
}.

(** [Manifest] *)
Record Manifest := {
  Objects : list ManifestObject
}.

(** ** [extractHostnamePath] *)

Definition extractHostnamePath (manifestKey : string) : Res string :=
  let parts := strings.Split manifestKey "/" in
  if bool_decide (length parts < 4)%nat then
    Err ("invalid manifest path: " +:+ manifestKey)
  else
    Ok (default "" (parts !! 0%nat) +:+ "/" +:+ default "" (parts !! 1%nat) +:+ "/").

(** ** [needsRetentionUpdate] *)

Definition needsRetentionUpdate (currentRetention : option Time) (requiredUntil : Time) : bool :=
  match currentRetention with
  | None => true
  | Some current => Before current requiredUntil
  end.

(** ** The object key of a manifest entry ([main], the body of the inner loop) *)

Definition objectKey (hostnamePath path : string) : string :=
  if strings.HasPrefix path hostnamePath then path
  else hostnamePath +:+ path.

(** ** Package [encoding/json], as far as [parseManifest] uses it *)

Global Instance Res_ret : MRet Res := fun _ a => Ok a.
Global Instance Res_bind : MBind Res := fun _ _ f r =>
  match r with
  | Ok a => f a
  | Err e => Err e
  end.

Fixpoint mapRes {A B} (f : A → Res B) (l : list A) : Res (list B) :=
  match l with
  | [] => Ok []
  | a :: l' => b ← f a; bs ← mapRes f l'; Ok (b :: bs)
  end.

Fixpoint foldRes {A B} (f : A → B → Res A) (l : list B) (a : A) : Res A :=
  match l with
  | [] => Ok a
  | b :: l' => a' ← f a b; foldRes f l' a'
  end.

Module json.

(** A scanned JSON document. A number keeps its literal; an object keeps
    its members in document order. *)
Inductive value : Type :=
| Null
| Bool (b : bool)
| Number (literal : string)
| Str (s : string)
| Array (elems : list value)
| Object (members : list (string * value)).

Definition upper (c : ascii) : ascii :=
  let n := nat_of_ascii c in
  if bool_decide (97 ≤ n)%nat && bool_decide (n ≤ 122)%nat
  then ascii_of_nat (n - 32) else c.

(** The case folding under which a member name selects a struct field:
    ASCII letters to upper case; U+017F (long s) and U+212A (Kelvin
    sign), the two other runes that fold to an ASCII letter, to [S] and
    [K]. *)
Fixpoint foldName (s : string) : string :=
  match s with
  | EmptyString => EmptyString
  | String c r =>
      match r with
      | String c1 r1 =>
          if bool_decide (c = "197"%char) && bool_decide (c1 = "191"%char)
          then String "S" (foldName r1)
          else
            match r1 with
            | String c2 r2 =>
                if bool_decide (c = "226"%char) && bool_decide (c1 = "132"%char)
                   && bool_decide (c2 = "170"%char)
                then String "K" (foldName r2)
                else String (upper c) (foldName r)
            | EmptyString => String (upper c) (foldName r)
            end
      | EmptyString => String (upper c) EmptyString
      end
  end.

(** the member name [key] selects the field tagged [name]: exactly, or
    else up to case folding *)
Definition selects (name key : string) : bool :=
  bool_decide (key = name) || bool_decide (foldName key = foldName name).

Definition digit (c : ascii) : option Z :=
  let n := nat_of_ascii c in
  if bool_decide (48 ≤ n)%nat && bool_decide (n ≤ 57)%nat
  then Some (Z.of_nat (n - 48)) else None.

Fixpoint digits (acc : Z) (s : string) : option Z :=
  match s with
  | EmptyString => Some acc
  | String c s' =>
      match digit c with
      | Some d => digits (10 * acc + d) s'
      | None => None
      end
  end.

(** [strconv.ParseInt(literal, 10, 64)] *)
Definition ParseInt64 (literal : string) : option Z :=
  let '(neg, body) :=
    match literal with
    | String c r =>
        if bool_decide (c = "-"%char) then (true, r)
        else if bool_decide (c = "+"%char) then (false, r)
        else (false, literal)
    | EmptyString => (false, literal)
    end in
  match body with
  | EmptyString => None
  | _ =>
      match digits 0 body with
      | Some n =>
          let v := if neg then - n else n in
          if bool_decide (- 2 ^ 63 ≤ v) && bool_decide (v < 2 ^ 63) then Some v else None
      | None => None
      end
  end.

(** a JSON value into a [string] field: [null] leaves the field as it is *)
Definition intoString (old : string) (v : value) : Res string :=
  match v with
  | Str s => Ok s
  | Null => Ok old
  | _ => Err "json: cannot unmarshal value into Go value of type string"
  end.

(** a JSON value into an [int64] field *)
Definition intoInt64 (old : Z) (v : value) : Res Z :=
  match v with
  | Number literal =>
      match ParseInt64 literal with
      | Some n => Ok n
      | None => Err "json: cannot unmarshal number into Go value of type int64"
      end
  | Null => Ok old
  | _ => Err "json: cannot unmarshal value into Go value of type int64"
  end.

Definition zeroObject : ManifestObject := {| Path := ""; MD5 := ""; Size := 0 |}.

(** one member into a [ManifestObject]; a name that selects no field is
    skipped with its value *)
Definition objectMember (o : ManifestObject) (kv : string * value) : Res ManifestObject :=
  if selects "path" kv.1 then
    p ← intoString (Path o) kv.2; Ok {| Path := p; MD5 := MD5 o; Size := Size o |}
  else if selects "MD5" kv.1 then
    m ← intoString (MD5 o) kv.2; Ok {| Path := Path o; MD5 := m; Size := Size o |}
  else if selects "size" kv.1 then
    n ← intoInt64 (Size o) kv.2; Ok {| Path := Path o; MD5 := MD5 o; Size := n |}
  else Ok o.

(** a JSON value into a fresh [ManifestObject] *)
Definition intoObject (v : value) : Res ManifestObject :=
  match v with
  | Object members => foldRes objectMember members zeroObject
  | Null => Ok zeroObject
  | _ => Err "json: cannot unmarshal value into Go value of type main.ManifestObject"
  end.

(** a JSON value onto the [ManifestObject] [old]: the members set their
    fields, the other fields stay *)
Definition ontoObject (old : ManifestObject) (v : value) : Res ManifestObject :=
  match v with
  | Object members => foldRes objectMember members old
  | Null => Ok old
  | _ => Err "json: cannot unmarshal value into Go value of type main.ManifestObject"
  end.

(** the elements of a JSON array onto the slice [old]: an element is decoded
    onto the element the slice has at its index, and into a zero object
    where the slice has none; the slice ends with the array *)
Fixpoint ontoObjects (old : list ManifestObject) (elems : list value)
  : Res (list ManifestObject) :=
  match elems with
  | [] => Ok []
  | v :: elems' =>
      o ← ontoObject (hd zeroObject old) v;
      os ← ontoObjects (tl old) elems';
      Ok (o :: os)
  end.

(** a JSON value into a [[]ManifestObject] field that holds [old], which is
    empty unless the name of the field is repeated: an array is decoded
    onto the elements of [old], [null] makes the slice nil.  (What a slice
    cut short by one occurrence keeps beyond its length, for a further
    occurrence to find, is not modelled.) *)
Definition intoObjects (old : list ManifestObject) (v : value) : Res (list ManifestObject) :=
  match v with
  | Array elems => ontoObjects old elems
  | Null => Ok []
  | _ => Err "json: cannot unmarshal value into Go value of type []main.ManifestObject"
  end.

Definition zeroEntry : ManifestEntry :=
  {| Keyspace := ""; ColumnFamily := ""; EntryObjects := [] |}.

Definition entryMember (e : ManifestEntry) (kv : string * value) : Res ManifestEntry :=
  if selects "keyspace" kv.1 then
    k ← intoString (Keyspace e) kv.2;
    Ok {| Keyspace := k; ColumnFamily := ColumnFamily e; EntryObjects := EntryObjects e |}
  else if selects "columnfamily" kv.1 then
    c ← intoString (ColumnFamily e) kv.2;
    Ok {| Keyspace := Keyspace e; ColumnFamily := c; EntryObjects := EntryObjects e |}
  else if selects "objects" kv.1 then
    os ← intoObjects (EntryObjects e) kv.2;
    Ok {| Keyspace := Keyspace e; ColumnFamily := ColumnFamily e; EntryObjects := os |}
  else Ok e.

Definition intoEntry (v : value) : Res ManifestEntry :=
  match v with
  | Object members => foldRes entryMember members zeroEntry
  | Null => Ok zeroEntry
  | _ => Err "json: cannot unmarshal value into Go value of type main.ManifestEntry"
  end.

(** [json.Unmarshal(data, &entries)] with [entries] a nil [[]ManifestEntry],
    on the scanned document *)
Definition UnmarshalEntries (doc : value) : Res (list ManifestEntry) :=
  match doc with
  | Array elems => mapRes intoEntry elems
  | Null => Ok []
  | _ => Err "json: cannot unmarshal value into Go value of type []main.ManifestEntry"
  end.

(** The two wire shapes of a manifest document. *)

(** the object a [{path}] record stands for *)
Definition objectOf (path : string) : ManifestObject :=
  {| Path := path; MD5 := ""; Size := 0 |}.

(** a [{path}] record *)
Definition pathRecord (path : string) : value :=
  Object [("path", Str path)].

(** shape (a): a top-level mapping with a key whose value is a sequence
    of path records *)
Definition flatDocument (key : string) (paths : list string) : value :=
  Object [(key, Array (pathRecord <$> paths))].

(** shape (b): a sequence of per-table records, each with a nested
    sequence of path records *)
Definition tableRecord (paths : list string) : value :=
  Object [("objects", Array (pathRecord <$> paths))].

Definition tableDocument (tables : list (list string)) : value :=
  Array (tableRecord <$> tables).

(** A manifest as the backup tool writes it: a sequence of records with
    [keyspace], [columnfamily] and [objects], each object with [path],
    [MD5] and [size]; [literal] gives the number literal of a size. *)

Definition objectRecord (literal : Z → string) (o : ManifestObject) : value :=
  Object [("path", Str (Path o)); ("MD5", Str (MD5 o)); ("size", Number (literal (Size o)))].

Definition entryRecord (literal : Z → string) (e : ManifestEntry) : value :=
  Object [("keyspace", Str (Keyspace e)); ("columnfamily", Str (ColumnFamily e));
          ("objects", Array (objectRecord literal <$> EntryObjects e))].

Definition manifestDocument (literal : Z → string) (entries : list ManifestEntry) : value :=
  Array (entryRecord literal <$> entries).

End json.

(** the logical form of a manifest: the flat list of referenced paths *)
Definition paths (m : Manifest) : list string := Path <$> Objects m.

(** ** [parseManifest] *)

Section Parse.

(** The scanner of [encoding/json]: the bytes of a document to its value,
    or the syntax error. *)
Variable scan : string → Res json.value.

Definition parseManifest (data : string) : Res Manifest :=
  match doc ← scan data; json.UnmarshalEntries doc with
  | Err err => Err ("failed to parse manifest: " +:+ err)
  | Ok entries =>
      let allObjects :=
        fold_left (λ allObjects entry, allObjects ++ EntryObjects entry) entries [] in
      Ok {| Objects := allObjects |}
  end.

End Parse.

(** The earlier decoding, inside [downloadManifest] of the first version of
    [main.go]: the document is decoded into a [Manifest] struct whose
    [Objects] field is tagged [objects] and whose objects have the one field
    [path]. *)
Module Legacy.

Definition pathMember (o : ManifestObject) (kv : string * json.value) : Res ManifestObject :=
  if json.selects "path" kv.1 then
    p ← json.intoString (Path o) kv.2; Ok {| Path := p; MD5 := MD5 o; Size := Size o |}
  else Ok o.

Definition intoPath (v : json.value) : Res ManifestObject :=
  match v with
  | json.Object members => foldRes pathMember members json.zeroObject
  | json.Null => Ok json.zeroObject
  | _ => Err "json: cannot unmarshal value into Go value of type main.ManifestObject"
  end.

Definition ontoPath (old : ManifestObject) (v : json.value) : Res ManifestObject :=
  match v with
  | json.Object members => foldRes pathMember members old
  | json.Null => Ok old
  | _ => Err "json: cannot unmarshal value into Go value of type main.ManifestObject"
  end.

Fixpoint ontoPaths (old : list ManifestObject) (elems : list json.value)
  : Res (list ManifestObject) :=
  match elems with
  | [] => Ok []
  | v :: elems' =>
      o ← ontoPath (hd json.zeroObject old) v;
      os ← ontoPaths (tl old) elems';
      Ok (o :: os)
  end.

Definition intoPaths (old : list ManifestObject) (v : json.value) : Res (list ManifestObject) :=
  match v with
  | json.Array elems => ontoPaths old elems
  | json.Null => Ok []
  | _ => Err "json: cannot unmarshal value into Go value of type []main.ManifestObject"
  end.

Definition manifestMember (m : Manifest) (kv : string * json.value) : Res Manifest :=
  if json.selects "objects" kv.1 then
    os ← intoPaths (Objects m) kv.2; Ok {| Objects := os |}
  else Ok m.

(** [json.Unmarshal(body, &manifest)] with [manifest] a zero [Manifest] *)
Definition UnmarshalManifest (doc : json.value) : Res Manifest :=
  match doc with
  | json.Object members => foldRes manifestMember members {| Objects := [] |}
  | json.Null => Ok {| Objects := [] |}
  | _ => Err "json: cannot unmarshal value into Go value of type main.Manifest"
  end.

End Legacy.

(** ** The S3 client ([S3API]) *)

Record ListObjectsV2Input := {
  list_Bucket : string;
  list_Prefix : string;
  ContinuationToken : option string
}.

(** [Contents] by the keys of the listed objects. *)
Record ListObjectsV2Output := {
  Contents : list string;
  IsTruncated : option bool;
  NextContinuationToken : option string
}.

Record GetObjectInput := {
  get_Bucket : string;
  get_Key : string
}.

(** [Body] by what [io.ReadAll] makes of it. *)
Record GetObjectOutput := {
  Body : Res string
}.

(** [types.ObjectLockRetentionMode], a string type with two constants *)
Definition ObjectLockRetentionModeGovernance : string := "GOVERNANCE".
Definition ObjectLockRetentionModeCompliance : string := "COMPLIANCE".

Record ObjectLockRetention := {
  Mode : string;
  RetainUntilDate : option Time
}.

Record GetObjectRetentionInput := {
  ret_Bucket : string;
  ret_Key : string
}.

Record GetObjectRetentionOutput := {
  Retention : option ObjectLockRetention
}.

Record PutObjectRetentionInput := {
  put_Bucket : string;
  put_Key : string;
  put_Retention : option ObjectLockRetention
}.

(** The interface [S3API]: each operation takes the client from one state to
    the next and answers with an output or an error. *)
Class S3API (Client : Type) := {
  GetObject : GetObjectInput → Client → Res GetObjectOutput * Client;
  GetObjectRetention : GetObjectRetentionInput → Client → Res GetObjectRetentionOutput * Client;
  PutObjectRetention : PutObjectRetentionInput → Client → Res unit * Client;
  ListObjectsV2 : ListObjectsV2Input → Client → Res ListObjectsV2Output * Client
}.

(** [aws.ToBool] *)
Definition ToBool (p : option bool) : bool := default false p.

(** ** What a run does: the calls it issues and the lines it logs *)

Inductive LogEntry :=
| LogFound (n : nat)
| LogProcessing (manifestKey : string)
| LogDownloadError (manifestKey : string) (err : error)
| LogInvalidPath (manifestKey : string)
| LogCheckError (objectKey : string) (err : error)
| LogDryRun (objectKey : string)
| LogUpdateError (objectKey : string) (err : error)
| LogUpdated (objectKey : string) (retentionUntil : Time)
| LogDone.

Inductive Event :=
| ListObjectsV2Call (params : ListObjectsV2Input) (resp : Res ListObjectsV2Output)
| GetObjectCall (params : GetObjectInput) (resp : Res GetObjectOutput)
| GetObjectRetentionCall (params : GetObjectRetentionInput) (resp : Res GetObjectRetentionOutput)
| PutObjectRetentionCall (params : PutObjectRetentionInput) (resp : Res unit)
| LogLine (entry : LogEntry).

(** How [main] ends: it returns, or [log.Fatal] ends the process. *)
Inductive Exit :=
| Done
| Fatal (message : string).

(** A computation over the client: from a client state to a result, the next
    state and the events of the computation, in order. *)
Definition Prog (Client A : Type) : Type := Client → A * Client * list Event.

Definition ret {Client A} (a : A) : Prog Client A := λ c, (a, c, []).

Definition bind {Client A B} (m : Prog Client A) (f : A → Prog Client B) : Prog Client B :=
  λ c, let '(a, c1, t1) := m c in
       let '(b, c2, t2) := f a c1 in
       (b, c2, t1 ++ t2).

Declare Scope prog_scope.
Delimit Scope prog_scope with prog.
Notation "x <- m ;; k" := (bind m (λ x, k))
  (at level 100, m at next level, right associativity) : prog_scope.
Notation "m ;; k" := (bind m (λ _, k))
  (at level 100, right associativity) : prog_scope.

Definition log {Client} (entry : LogEntry) : Prog Client unit :=
  λ c, (tt, c, [LogLine entry]).

(** [for _, x := range l { body }] with no [break] *)
Fixpoint forEach {Client A} (l : list A) (body : A → Prog Client unit) : Prog Client unit :=
  match l with
  | [] => ret tt
  | x :: l' => (body x ;; forEach l' body)%prog
  end.

Section Program.

Context {Client : Type} `{!S3API Client}.

Local Open Scope prog_scope.

(** the scanner of [encoding/json] *)
Variable scan : string → Res json.value.

(** [t.AddDate(years, months, days)] of package [time] *)
Variable AddDate : Time → Z → Z → Z → Time.

(** the order in which [range] walks the keys of a map; the language
    leaves it open *)
Variable rangeKeys : gmap string bool → list string.

Definition callListObjectsV2 (params : ListObjectsV2Input) : Prog Client (Res ListObjectsV2Output) :=
  λ c, let '(resp, c') := ListObjectsV2 params c in (resp, c', [ListObjectsV2Call params resp]).

Definition callGetObject (params : GetObjectInput) : Prog Client (Res GetObjectOutput) :=
  λ c, let '(resp, c') := GetObject params c in (resp, c', [GetObjectCall params resp]).

Definition callGetObjectRetention (params : GetObjectRetentionInput)
  : Prog Client (Res GetObjectRetentionOutput) :=
  λ c, let '(resp, c') := GetObjectRetention params c in
       (resp, c', [GetObjectRetentionCall params resp]).

Definition callPutObjectRetention (params : PutObjectRetentionInput) : Prog Client (Res unit) :=
  λ c, let '(resp, c') := PutObjectRetention params c in
       (resp, c', [PutObjectRetentionCall params resp]).

(** *** [findManifests] *)

(** the inner loop over [resp.Contents] *)
Definition collect (contents : list string) (backupPaths : gmap string bool) : gmap string bool :=
  fold_left
    (λ backupPaths key,
       if strings.HasSuffix key "/meta/manifest.json" then <[key := true]> backupPaths
       else backupPaths)
    contents backupPaths.

(** The listing loop.  [fuel] bounds the number of pages; [None] stands for
    a loop that has not ended within it. *)
Fixpoint listPages (fuel : nat) (bucket prefix : string) (continuationToken : option string)
    (backupPaths : gmap string bool) : Prog Client (option (Res (gmap string bool))) :=
  match fuel with
  | O => ret None
  | S fuel' =>
      resp <- callListObjectsV2
                {| list_Bucket := bucket; list_Prefix := prefix;
                   ContinuationToken := continuationToken |};;
      match resp with
      | Err err => ret (Some (Err ("failed to list objects: " +:+ err)))
      | Ok resp =>
          let backupPaths := collect (Contents resp) backupPaths in
          if negb (ToBool (IsTruncated resp)) then ret (Some (Ok backupPaths))
          else listPages fuel' bucket prefix (NextContinuationToken resp) backupPaths
      end
  end.

Definition findManifests (fuel : nat) (bucket cluster : string)
  : Prog Client (option (Res (list string))) :=
  let prefix := cluster +:+ "/" in
  r <- listPages fuel bucket prefix None ∅;;
  match r with
  | None => ret None
  | Some (Err err) => ret (Some (Err err))
  | Some (Ok backupPaths) => ret (Some (Ok (rangeKeys backupPaths)))
  end.

(** *** [downloadManifest] *)

Definition downloadManifest (bucket key : string) : Prog Client (Res Manifest) :=
  resp <- callGetObject {| get_Bucket := bucket; get_Key := key |};;
  match resp with
  | Err err => ret (Err ("failed to get object: " +:+ err))
  | Ok resp =>
      match Body resp with
      | Err err => ret (Err ("failed to read body: " +:+ err))
      | Ok body => ret (parseManifest scan body)
      end
  end.

(** *** [checkRetention] *)

Definition checkRetention (bucket key : string) (requiredUntil : Time)
  : Prog Client (bool * option error) :=
  resp <- callGetObjectRetention {| ret_Bucket := bucket; ret_Key := key |};;
  match resp with
  | Err err =>
      if strings.Contains err "NoSuchObjectLockConfiguration"
         || strings.Contains err "ObjectLockConfigurationNotFoundError"
         || strings.Contains err "NoSuchKey"
      then ret (true, None)
      else ret (false, Some err)
  | Ok resp =>
      let currentRetention :=
        match Retention resp with
        | Some retention => RetainUntilDate retention
        | None => None
        end in
      ret (needsRetentionUpdate currentRetention requiredUntil, None)
  end.

(** *** [updateRetention] *)

Definition updateRetention (bucket key : string) (retainUntil : Time)
  : Prog Client (option error) :=
  resp <- callPutObjectRetention
            {| put_Bucket := bucket; put_Key := key;
               put_Retention := Some {| Mode := ObjectLockRetentionModeGovernance;
                                        RetainUntilDate := Some retainUntil |} |};;
  match resp with
  | Err err => ret (Some err)
  | Ok _ => ret None
  end.

(** *** [main] *)

(** the body of the loop over [manifest.Objects] *)
Definition reconcileObject (bucket : string) (dryRun : bool) (retentionUntil : Time)
    (hostnamePath : string) (obj : ManifestObject) : Prog Client unit :=
  let objectKey := objectKey hostnamePath (Path obj) in
  checked <- checkRetention bucket objectKey retentionUntil;;
  let '(needsUpdate, err) := checked in
  match err with
  | Some err => log (LogCheckError objectKey err)
  | None =>
      if needsUpdate then
        if dryRun then log (LogDryRun objectKey)
        else
          err <- updateRetention bucket objectKey retentionUntil;;
          match err with
          | Some err => log (LogUpdateError objectKey err)
          | None => log (LogUpdated objectKey retentionUntil)
          end
      else ret tt
  end.

(** the body of the loop over [manifests] *)
Definition reconcileManifest (bucket : string) (dryRun : bool) (retentionUntil : Time)
    (manifestKey : string) : Prog Client unit :=
  log (LogProcessing manifestKey);;
  manifest <- downloadManifest bucket manifestKey;;
  match manifest with
  | Err err => log (LogDownloadError manifestKey err)
  | Ok manifest =>
      match extractHostnamePath manifestKey with
      | Err _ => log (LogInvalidPath manifestKey)
      | Ok hostnamePath =>
          forEach (Objects manifest) (reconcileObject bucket dryRun retentionUntil hostnamePath)
      end
  end.

(** the loop over [manifests] *)
Definition reconcile (bucket : string) (dryRun : bool) (retentionUntil : Time)
    (manifests : list string) : Prog Client unit :=
  forEach manifests (reconcileManifest bucket dryRun retentionUntil).

(** [main], from the parsed flags, the outcome [cfg] of loading the client
    configuration and the reading [now] of the clock.  [None] stands for a
    listing loop that has not ended within [fuel] pages. *)
Definition main (fuel : nat) (bucket cluster : string) (retentionDays : Z) (dryRun : bool)
    (cfg : Res unit) (now : Time) : Prog Client (option Exit) :=
  if bool_decide (bucket = "") || bool_decide (cluster = "") || bool_decide (retentionDays ≤ 0)
  then ret (Some (Fatal "Usage: go run main.go -bucket <bucket> -cluster <cluster> -retention <days> [-dry-run]"))
  else
    match cfg with
    | Err err => ret (Some (Fatal ("Failed to load AWS config: " +:+ err)))
    | Ok _ =>
        manifests <- findManifests fuel bucket cluster;;
        match manifests with
        | None => ret None
        | Some (Err err) => ret (Some (Fatal ("Failed to find manifests: " +:+ err)))
        | Some (Ok manifests) =>
            log (LogFound (length manifests));;
            let retentionUntil := AddDate now 0 0 retentionDays in
            reconcile bucket dryRun retentionUntil manifests;;
            log LogDone;;
            ret (Some Done)
        end
    end.

End Program.

(** ** Reading a run *)

Definition result {Client A} (r : A * Client * list Event) : A := r.1.1.
Definition final {Client A} (r : A * Client * list Event) : Client := r.1.2.
Definition trace {Client A} (r : A * Client * list Event) : list Event := r.2.

Definition isPut (e : Event) : Prop :=
  match e with
  | PutObjectRetentionCall _ _ => True
  | _ => False
  end.

Definition isList (e : Event) : Prop :=
  match e with
  | ListObjectsV2Call _ _ => True
  | _ => False
  end.

(** the keys whose retention a trace queries, in order *)
Definition checked (t : list Event) : list string :=
  omap (λ e, match e with
             | GetObjectRetentionCall params _ => Some (ret_Key params)
             | _ => None
             end) t.

(** the expiry that the output of a retention query reports, if any
    ([currentRetention] in [checkRetention]) *)
Definition queriedExpiry (out : GetObjectRetentionOutput) : option Time :=
  retention ← Retention out; RetainUntilDate retention.

(** the error of a failed query names a missing lock configuration *)
Definition noLockConfiguration (err : error) : Prop :=
  (∃ before after, err = before +:+ "NoSuchObjectLockConfiguration" +:+ after)
  ∨ (∃ before after, err = before +:+ "ObjectLockConfigurationNotFoundError" +:+ after).

(** the error of a failed query names a missing object *)
Definition noSuchKey (err : error) : Prop :=
  ∃ before after, err = before +:+ "NoSuchKey" +:+ after.

(** what [checkRetention] makes of the answer to its query *)
Definition verdict (resp : Res GetObjectRetentionOutput) (requiredUntil : Time)
  : bool * option error :=
  match resp with
  | Err err =>
      if strings.Contains err "NoSuchObjectLockConfiguration"
         || strings.Contains err "ObjectLockConfigurationNotFoundError"
         || strings.Contains err "NoSuchKey"
      then (true, None) else (false, Some err)
  | Ok out => (needsRetentionUpdate (queriedExpiry out) requiredUntil, None)
  end.

(** what [downloadManifest] makes of the answer to its request *)
Definition downloaded (scan : string → Res json.value) (resp : Res GetObjectOutput)
  : Res Manifest :=
  match resp with
  | Err err => Err ("failed to get object: " +:+ err)
  | Ok out =>
      match Body out with
      | Err err => Err ("failed to read body: " +:+ err)
      | Ok body => parseManifest scan body
      end
  end.

(** the update request for [key] until [retainUntil] *)
Definition updateRequest (bucket key : string) (retainUntil : Time) : PutObjectRetentionInput :=
  {| put_Bucket := bucket; put_Key := key;
     put_Retention := Some {| Mode := ObjectLockRetentionModeGovernance;
                              RetainUntilDate := Some retainUntil |} |}.

(** Every update of the trace comes right after a retention query for the
    same object whose answer made [checkRetention] say yes, and asks for
    [requiredUntil]. *)
Inductive Guarded (requiredUntil : Time) : list Event → Prop :=
| Guarded_nil : Guarded requiredUntil []
| Guarded_other e t :
    ¬ isPut e → Guarded requiredUntil t → Guarded requiredUntil (e :: t)
| Guarded_update params resp presp t :
    verdict resp requiredUntil = (true, None) →
    Guarded requiredUntil t →
    Guarded requiredUntil
      (GetObjectRetentionCall params resp
       :: PutObjectRetentionCall (updateRequest (ret_Bucket params) (ret_Key params) requiredUntil)
            presp
       :: t).

(** The pages of one listing: the calls follow the continuation tokens from
    [token] on, each page but the last is truncated, and the listing ends
    with a page that is not ([None]) or with a failed call ([Some err]). *)
Inductive Listing {Client} `{!S3API Client} (bucket prefix : string)
  : option string → Client → list ListObjectsV2Output → option error → Client → Prop :=
| Listing_last token c resp c' :
    ListObjectsV2 {| list_Bucket := bucket; list_Prefix := prefix;
                     ContinuationToken := token |} c = (Ok resp, c') →
    ToBool (IsTruncated resp) = false →
    Listing bucket prefix token c [resp] None c'
| Listing_failed token c err c' :
    ListObjectsV2 {| list_Bucket := bucket; list_Prefix := prefix;
                     ContinuationToken := token |} c = (Err err, c') →
    Listing bucket prefix token c [] (Some err) c'
| Listing_more token c resp c' pages outcome c'' :
    ListObjectsV2 {| list_Bucket := bucket; list_Prefix := prefix;
                     ContinuationToken := token |} c = (Ok resp, c') →
    ToBool (IsTruncated resp) = true →
    Listing bucket prefix (NextContinuationToken resp) c' pages outcome c'' →
    Listing bucket prefix token c (resp :: pages) outcome c''.

(** the flags and the configuration let [main] start *)
Definition validFlags (bucket cluster : string) (retentionDays : Z) (cfg : Res unit) : Prop :=
  bucket ≠ "" ∧ cluster ≠ "" ∧ 0 < retentionDays ∧ isErr cfg = false.

(** how [main] ends, by its flags, its configuration and what discovery
    returns *)
Definition exitOf (bucket cluster : string) (retentionDays : Z) (cfg : Res unit)
    (found : option (Res (list string))) : option Exit :=
  if bool_decide (bucket = "") || bool_decide (cluster = "") || bool_decide (retentionDays ≤ 0)
  then Some (Fatal "Usage: go run main.go -bucket <bucket> -cluster <cluster> -retention <days> [-dry-run]")
  else
    match cfg, found with
    | Err err, _ => Some (Fatal ("Failed to load AWS config: " +:+ err))
    | Ok _, None => None
    | Ok _, Some (Err err) => Some (Fatal ("Failed to find manifests: " +:+ err))
    | Ok _, Some (Ok _) => Some Done
    end.

(** The trace [t] visits the object at [key]: it queries its retention and,
    when the answer calls for an update and the run is no dry run, issues
    the update. *)
Definition objectVisited (bucket : string) (dryRun : bool) (retentionUntil : Time)
    (t : list Event) (key : string) : Prop :=
  ∃ resp,
    GetObjectRetentionCall {| ret_Bucket := bucket; ret_Key := key |} resp ∈ t
    ∧ (verdict resp retentionUntil = (true, None) → dryRun = false →
       ∃ presp, PutObjectRetentionCall (updateRequest bucket key retentionUntil) presp ∈ t).

(** The trace [t] visits the manifest at [manifestKey]: it requests the
    manifest and, when the manifest downloads, decodes and has a hostname
    path, visits every object it names. *)
Definition manifestVisited (scan : string → Res json.value) (bucket : string) (dryRun : bool)
    (retentionUntil : Time) (t : list Event) (manifestKey : string) : Prop :=
  ∃ resp,
    GetObjectCall {| get_Bucket := bucket; get_Key := manifestKey |} resp ∈ t
    ∧ ∀ manifest hostnamePath,
        downloaded scan resp = Ok manifest →
        extractHostnamePath manifestKey = Ok hostnamePath →
        ∀ obj, obj ∈ Objects manifest →
               objectVisited bucket dryRun retentionUntil t
                             (objectKey hostnamePath (Path obj)).

(** ** Clients *)

(** *** A bucket in memory

    The objects of the bucket the run addresses, each with its content and
    its lock, and the page size of its listings.  A retention query fails
    with [NoSuchKey] for a missing object and with
    [NoSuchObjectLockConfiguration] for an object without lock; an update
    replaces the lock of an object that exists, and the bucket keeps the
    instant of the update as it is asked for (the bucket behind the service,
    further down, keeps it as the client of the SDK writes it). *)

Record StoredObject := {
  Data : string;
  Lock : option ObjectLockRetention
}.

Record Bucket := {
  Stored : gmap string StoredObject;
  MaxKeys : nat
}.

Module Bucket.

Definition NoSuchKey : error :=
  "api error NoSuchKey: The specified key does not exist.".
Definition NoSuchObjectLockConfiguration : error :=
  "api error NoSuchObjectLockConfiguration: The specified object does not have a ObjectLock configuration".
Definition MalformedXML : error :=
  "api error MalformedXML: The XML you provided was not well-formed".

(** the keys under [prefix], in the order of their bytes *)
Definition keys (b : Bucket) (prefix : string) : list string :=
  filter (λ key, strings.HasPrefix key prefix = true)
         (merge_sort String.le (elements (dom (Stored b)))).

(** the keys that follow [token] *)
Fixpoint after (token : string) (keys : list string) : list string :=
  match keys with
  | [] => []
  | key :: keys' => if decide (key = token) then keys' else after token keys'
  end.

(** one page: the token of a truncated page is its last key *)
Definition page (b : Bucket) (params : ListObjectsV2Input) : ListObjectsV2Output :=
  let all := keys b (list_Prefix params) in
  let rest := match ContinuationToken params with
              | None => all
              | Some token => after token all
              end in
  let size := Nat.max 1 (MaxKeys b) in
  let more := bool_decide (drop size rest ≠ []) in
  {| Contents := take size rest;
     IsTruncated := Some more;
     NextContinuationToken := if more then last (take size rest) else None |}.

(** the protection expiry of the object at [key], if it has one *)
Definition expiry (b : Bucket) (key : string) : option Time :=
  o ← Stored b !! key; retention ← Lock o; RetainUntilDate retention.

Definition lock (b : Bucket) (key : string) (o : StoredObject)
    (retention : ObjectLockRetention) : Bucket :=
  {| Stored := <[key := {| Data := Data o; Lock := Some retention |}]> (Stored b);
     MaxKeys := MaxKeys b |}.

Global Instance api : S3API Bucket := {|
  GetObject params b :=
    (match Stored b !! get_Key params with
     | Some o => Ok {| Body := Ok (Data o) |}
     | None => Err NoSuchKey
     end, b);
  GetObjectRetention params b :=
    (match Stored b !! ret_Key params with
     | Some o =>
         match Lock o with
         | Some retention => Ok {| Retention := Some retention |}
         | None => Err NoSuchObjectLockConfiguration
         end
     | None => Err NoSuchKey
     end, b);
  PutObjectRetention params b :=
    match Stored b !! put_Key params, put_Retention params with
    | Some o, Some retention => (Ok tt, lock b (put_Key params) o retention)
    | Some _, None => (Err MalformedXML, b)
    | None, _ => (Err NoSuchKey, b)
    end;
  ListObjectsV2 params b := (Ok (page b params), b)
|}.

(** the two buckets hold the same objects with the same contents *)
Definition sameContent (b b' : Bucket) : Prop :=
  MaxKeys b = MaxKeys b'
  ∧ ∀ key, Data <$> (Stored b !! key) = Data <$> (Stored b' !! key).

(** the object at [key] is protected until [requiredUntil] at least *)
Definition protected (requiredUntil : Time) (b : Bucket) (key : string) : Prop :=
  ∃ current, expiry b key = Some current ∧ requiredUntil ≤ current.

(** the object keys the manifest at [manifestKey] refers to *)
Definition referenced (scan : string → Res json.value) (b : Bucket) (manifestKey : string)
  : list string :=
  match Stored b !! manifestKey with
  | None => []
  | Some o =>
      match parseManifest scan (Data o), extractHostnamePath manifestKey with
      | Ok manifest, Ok hostnamePath => objectKey hostnamePath <$> paths manifest
      | _, _ => []
      end
  end.

(** What a stretch [t] of a run with target [requiredUntil] does to the
    bucket: the contents stay; an expiry stays or becomes the target; an
    update is issued, outside dry runs only, for a queried object whose
    expiry was absent or before the target; and outside dry runs, when
    every update has succeeded, every queried object ends up protected. *)
Definition step (dryRun : bool) (requiredUntil : Time)
    (b : Bucket) (t : list Event) (b' : Bucket) : Prop :=
  sameContent b b'
  ∧ (∀ key, expiry b' key = expiry b key ∨ expiry b' key = Some requiredUntil)
  ∧ (∀ update presp,
       PutObjectRetentionCall update presp ∈ t →
       dryRun = false
       ∧ put_Key update ∈ checked t
       ∧ needsRetentionUpdate (expiry b (put_Key update)) requiredUntil = true)
  ∧ (dryRun = false →
     (∀ update presp, PutObjectRetentionCall update presp ∈ t → presp = Ok tt) →
     ∀ key, key ∈ checked t → protected requiredUntil b' key).

(** From [b] to [b'] the contents stay and an expiry stays or is raised to
    [requiredUntil], the latter only where it was absent or before it. *)
Definition raises (requiredUntil : Time) (b b' : Bucket) : Prop :=
  sameContent b b'
  ∧ ∀ key, expiry b' key = expiry b key
           ∨ (expiry b' key = Some requiredUntil
              ∧ needsRetentionUpdate (expiry b key) requiredUntil = true).

End Bucket.

(** *** A mock, as in the tests: each operation answers from its function
    field, which sees the number of calls made so far. *)

Record MockS3Client := {
  callCount : nat;
  ListObjectsV2Func : nat → ListObjectsV2Input → Res ListObjectsV2Output;
  GetObjectFunc : nat → GetObjectInput → Res GetObjectOutput;
  GetObjectRetentionFunc : nat → GetObjectRetentionInput → Res GetObjectRetentionOutput;
  PutObjectRetentionFunc : nat → PutObjectRetentionInput → Res unit
}.

Module Mock.

Definition called (m : MockS3Client) : MockS3Client :=
  {| callCount := S (callCount m);
     ListObjectsV2Func := ListObjectsV2Func m;
     GetObjectFunc := GetObjectFunc m;
     GetObjectRetentionFunc := GetObjectRetentionFunc m;
     PutObjectRetentionFunc := PutObjectRetentionFunc m |}.

Global Instance api : S3API MockS3Client := {|
  GetObject params m := (GetObjectFunc m (callCount m) params, called m);
  GetObjectRetention params m := (GetObjectRetentionFunc m (callCount m) params, called m);
  PutObjectRetention params m := (PutObjectRetentionFunc m (callCount m) params, called m);
  ListObjectsV2 params m := (ListObjectsV2Func m (callCount m) params, called m)
|}.

End Mock.

(** ** A store behind the client

    What a run may rely on when its client talks to an object store.
    [expiryOf c key] is the protection expiry that the store holds, in the
    state [c] of the client, for the object at [key] of [bucket]. *)

Section Store.

Context {Client : Type} `{!S3API Client}.
Variable bucket : string.
Variable expiryOf : Client → string → option Time.

(** The store tells the truth about retention.  No call on [bucket] but an
    update changes an expiry, and an update changes the expiry of its own
    object at most.  A retention query that succeeds reports the expiry
    held; one that fails for a missing lock configuration or a missing
    object does so only where no expiry is held.  A query may fail for any
    other reason wherever it likes. *)
Record Truthful : Prop := {
  list_keeps_expiry : ∀ params c key,
    list_Bucket params = bucket → expiryOf (ListObjectsV2 params c).2 key = expiryOf c key;
  get_keeps_expiry : ∀ params c key,
    get_Bucket params = bucket → expiryOf (GetObject params c).2 key = expiryOf c key;
  query_keeps_expiry : ∀ params c key,
    ret_Bucket params = bucket →
    expiryOf (GetObjectRetention params c).2 key = expiryOf c key;
  query_reports : ∀ params c out,
    ret_Bucket params = bucket → (GetObjectRetention params c).1 = Ok out →
    queriedExpiry out = expiryOf c (ret_Key params);
  query_absent : ∀ params c err,
    ret_Bucket params = bucket → (GetObjectRetention params c).1 = Err err →
    noLockConfiguration err ∨ noSuchKey err → expiryOf c (ret_Key params) = None;
  update_elsewhere : ∀ params c key,
    put_Bucket params = bucket → key ≠ put_Key params →
    expiryOf (PutObjectRetention params c).2 key = expiryOf c key
}.

(** the instant the store keeps when an update asks for [t] *)
Variable kept : Time → Time.

(** The state of the store changes through updates alone: a listing, a
    download and a retention query leave the client as it was.  An update
    that succeeds sets the expiry of its object to what the store keeps of
    the instant asked for; whatever its outcome, it changes no answer to a
    listing, to a download or to the retention query for another object. *)
Record Settled : Prop := {
  store_truthful : Truthful;
  list_keeps : ∀ params c, list_Bucket params = bucket → (ListObjectsV2 params c).2 = c;
  get_keeps : ∀ params c, get_Bucket params = bucket → (GetObject params c).2 = c;
  query_keeps : ∀ params c, ret_Bucket params = bucket → (GetObjectRetention params c).2 = c;
  update_kept : ∀ key t c,
    (PutObjectRetention (updateRequest bucket key t) c).1 = Ok tt →
    expiryOf (PutObjectRetention (updateRequest bucket key t) c).2 key = Some (kept t);
  update_lists : ∀ update c params,
    put_Bucket update = bucket → list_Bucket params = bucket →
    (ListObjectsV2 params (PutObjectRetention update c).2).1 = (ListObjectsV2 params c).1;
  update_gets : ∀ update c params,
    put_Bucket update = bucket → get_Bucket params = bucket →
    (GetObject params (PutObjectRetention update c).2).1 = (GetObject params c).1;
  update_queries : ∀ update c params,
    put_Bucket update = bucket → ret_Bucket params = bucket →
    ret_Key params ≠ put_Key update →
    (GetObjectRetention params (PutObjectRetention update c).2).1
    = (GetObjectRetention params c).1
}.

(** the expiry held for [key] in [c] is absent or strictly before
    [requiredUntil] *)
Definition below (requiredUntil : Time) (c : Client) (key : string) : Prop :=
  ∀ current, expiryOf c key = Some current → current < requiredUntil.

(** From [c] to [c'] along [t], an expiry has changed only where it was
    absent or before [requiredUntil], and every update of [t] bears on such
    an object. *)
Definition extends (requiredUntil : Time) (c : Client) (t : list Event) (c' : Client)
  : Prop :=
  (∀ key, expiryOf c' key = expiryOf c key ∨ below requiredUntil c key)
  ∧ ∀ update presp,
      PutObjectRetentionCall update presp ∈ t → below requiredUntil c (put_Key update).

(** the two states answer alike to listings and downloads *)
Definition alike (c c' : Client) : Prop :=
  (∀ params, list_Bucket params = bucket →
             (ListObjectsV2 params c').1 = (ListObjectsV2 params c).1)
  ∧ (∀ params, get_Bucket params = bucket →
               (GetObject params c').1 = (GetObject params c).1).

(** in [c] the retention query for [key] does not make [checkRetention]
    ask for an update *)
Definition settled (requiredUntil : Time) (c : Client) (key : string) : Prop :=
  verdict (GetObjectRetention {| ret_Bucket := bucket; ret_Key := key |} c).1 requiredUntil
  ≠ (true, None).

(** the object keys that the manifest at [manifestKey] names in [c] *)
Definition named (scan : string → Res json.value) (c : Client) (manifestKey : string)
  : list string :=
  match downloaded scan (GetObject {| get_Bucket := bucket; get_Key := manifestKey |} c).1,
        extractHostnamePath manifestKey with
  | Ok manifest, Ok hostnamePath => objectKey hostnamePath <$> paths manifest
  | _, _ => []
  end.

(** Along [t] the answers to listings and downloads stay, an object that
    was settled stays so and, outside dry runs, when every update of [t]
    has succeeded, every object queried ends up settled. *)
Definition settles (dryRun : bool) (requiredUntil : Time)
    (c : Client) (t : list Event) (c' : Client) : Prop :=
  alike c c'
  ∧ (∀ key, settled requiredUntil c key → settled requiredUntil c' key)
  ∧ (dryRun = false →
     (∀ update presp, PutObjectRetentionCall update presp ∈ t → presp = Ok tt) →
     ∀ key, key ∈ checked t → settled requiredUntil c' key).

(** When every object that [t] queries is settled (or in a dry run), [t]
    issues no update and leaves the client as it was. *)
Definition rests (dryRun : bool) (requiredUntil : Time)
    (c : Client) (t : list Event) (c' : Client) : Prop :=
  (dryRun = false → ∀ key, key ∈ checked t → settled requiredUntil c key) →
  c' = c ∧ ∀ e, e ∈ t → ¬ isPut e.

End Store.

(** *** The bucket behind the service

    The client of the SDK writes the instant of an update with
    milliseconds, so the service keeps an expiry without the nanoseconds
    asked for; and the service denies the retention query for the objects
    in [Denied]. *)

Record Service := {
  Held : Bucket;
  Denied : gset string
}.

Module Service.

Definition AccessDenied : error := "api error AccessDenied: Access Denied".

(** the instant with its milliseconds, without what follows them *)
Definition millis (t : Time) : Time := t - t `mod` 1000000.

Definition onWire (params : PutObjectRetentionInput) : PutObjectRetentionInput :=
  {| put_Bucket := put_Bucket params;
     put_Key := put_Key params;
     put_Retention :=
       (λ retention, {| Mode := Mode retention;
                        RetainUntilDate := millis <$> RetainUntilDate retention |})
         <$> put_Retention params |}.

(** the answer of the bucket, passed on *)
Definition held {A} (s : Service) (answer : A * Bucket) : A * Service :=
  (answer.1, {| Held := answer.2; Denied := Denied s |}).

Global Instance api : S3API Service := {|
  GetObject params s := held s (GetObject params (Held s));
  GetObjectRetention params s :=
    if bool_decide (ret_Key params ∈ Denied s) then (Err AccessDenied, s)
    else held s (GetObjectRetention params (Held s));
  PutObjectRetention params s := held s (PutObjectRetention (onWire params) (Held s));
  ListObjectsV2 params s := held s (ListObjectsV2 params (Held s))
|}.

Definition expiry (s : Service) (key : string) : option Time := Bucket.expiry (Held s) key.

End Service.

(** ** A small cluster, for the examples *)

Module Example.

(** the one document the scanner below knows *)
Definition document : json.value :=
  json.tableDocument [["data/ks/t/f1.db"; "data/ks/t/f2.db"]].

Definition scan (data : string) : Res json.value :=
  if decide (data = "m1") then Ok document else Err "unexpected end of JSON input".

(** a calendar of days of 86400 seconds, months of 30 days, years of 365 *)
Definition AddDate (t : Time) (years months days : Z) : Time :=
  t + (365 * years + 30 * months + days) * 86400 * 1000000000.

Definition rangeKeys (m : gmap string bool) : list string := (map_to_list m).*1.

Definition governed (retainUntil : Time) : option ObjectLockRetention :=
  Some {| Mode := ObjectLockRetentionModeGovernance; RetainUntilDate := Some retainUntil |}.

(** Two backups of one host: the manifest of the first names two data files,
    of which the bucket holds one; the manifest of the second does not
    scan. *)
Definition bucket : Bucket :=
  {| Stored := list_to_map
       [("c/h/b1/meta/manifest.json", {| Data := "m1"; Lock := None |});
        ("c/h/b2/meta/manifest.json", {| Data := "{"; Lock := None |});
        ("c/h/data/ks/t/f1.db", {| Data := "sstable"; Lock := governed 5 |})];
     MaxKeys := 2 |}.

(** the same host with both data files in place *)
Definition complete : Bucket :=
  {| Stored := <["c/h/data/ks/t/f2.db" := {| Data := "sstable"; Lock := None |}]>
                 (Stored bucket);
     MaxKeys := 2 |}.

(** the same host behind the service, which denies the retention query
    for the second data file *)
Definition service : Service :=
  {| Held := complete; Denied := {["c/h/data/ks/t/f2.db"]} |}.

(** a client whose every call is denied *)
Definition denied : MockS3Client :=
  {| callCount := 0;
     ListObjectsV2Func := λ _ _, Err "AccessDenied";
     GetObjectFunc := λ _ _, Err "AccessDenied";
     GetObjectRetentionFunc := λ _ _, Err "AccessDenied";
     PutObjectRetentionFunc := λ _ _, Err "AccessDenied" |}.

(** a client whose second listing page is denied *)
Definition secondPageDenied : MockS3Client :=
  {| callCount := 0;
     ListObjectsV2Func := λ n _,
       match n with
       | O => Ok {| Contents := ["c/h/b1/meta/manifest.json"];
                    IsTruncated := Some true;
                    NextContinuationToken := Some "token123" |}
       | _ => Err "AccessDenied"
       end;
     GetObjectFunc := λ _ _, Err "AccessDenied";
     GetObjectRetentionFunc := λ _ _, Err "AccessDenied";
     PutObjectRetentionFunc := λ _ _, Err "AccessDenied" |}.

End Example.

(** ** More ways to read a trace *)

(** the keys a trace requests with [GetObject], in order *)
Definition downloads (t : list Event) : list string :=
  omap (λ e, match e with
             | GetObjectCall params _ => Some (get_Key params)
             | _ => None
             end) t.

(** the keys whose retention a trace asks to update, in order *)
Definition updated (t : list Event) : list string :=
  omap (λ e, match e with
             | PutObjectRetentionCall params _ => Some (put_Key params)
             | _ => None
             end) t.

(** the call [e] addresses [bucket], and lists under [prefix] *)
Definition onBucket (bucket prefix : string) (e : Event) : Prop :=
  match e with
  | ListObjectsV2Call params _ => list_Bucket params = bucket ∧ list_Prefix params = prefix
  | GetObjectCall params _ => get_Bucket params = bucket
  | GetObjectRetentionCall params _ => ret_Bucket params = bucket
  | PutObjectRetentionCall params _ => put_Bucket params = bucket
  | LogLine _ => True
  end.

(** The trace is a chain of listing calls for [bucket] and [prefix]: the
    first carries [token], each further one the continuation token of the
    truncated page before it, and nothing follows a failed call or a page
    that is not truncated. *)
Inductive Chained (bucket prefix : string) : option string → list Event → Prop :=
| Chained_nil token : Chained bucket prefix token []
| Chained_failed token err :
    Chained bucket prefix token
      [ListObjectsV2Call {| list_Bucket := bucket; list_Prefix := prefix;
                            ContinuationToken := token |} (Err err)]
| Chained_last token resp :
    ToBool (IsTruncated resp) = false →
    Chained bucket prefix token
      [ListObjectsV2Call {| list_Bucket := bucket; list_Prefix := prefix;
                            ContinuationToken := token |} (Ok resp)]
| Chained_more token resp t :
    ToBool (IsTruncated resp) = true →
    Chained bucket prefix (NextContinuationToken resp) t →
    Chained bucket prefix token
      (ListObjectsV2Call {| list_Bucket := bucket; list_Prefix := prefix;
                            ContinuationToken := token |} (Ok resp) :: t).

(** the line [main] logs after an update of [key] until [retentionUntil] *)
Definition updateLog (key : string) (retentionUntil : Time) (presp : Res unit) : LogEntry :=
  match presp with
  | Ok _ => LogUpdated key retentionUntil
  | Err err => LogUpdateError key err
  end.

(** Every update of the trace is followed at once by its log line. *)
Inductive Audited (retentionUntil : Time) : list Event → Prop :=
| Audited_nil : Audited retentionUntil []
| Audited_other e t :
    ¬ isPut e → Audited retentionUntil t → Audited retentionUntil (e :: t)
| Audited_update params presp t :
    Audited retentionUntil t →
    Audited retentionUntil
      (PutObjectRetentionCall params presp
       :: LogLine (updateLog (put_Key params) retentionUntil presp) :: t).

(** ** The first version of the program

    What the first [main.go] did differently: it formed the key of an object
    from the directory of the backup, and [checkRetention] compared the
    expiry in place. *)

Module FirstVersion.

(** the object key in the loop of [main]:
    [basePath := strings.TrimSuffix(manifestKey, "/meta/manifest.json")],
    [objectKey := basePath + "/" + obj.Path] *)
Definition objectKey (manifestKey path : string) : string :=
  let basePath := strings.TrimSuffix manifestKey "/meta/manifest.json" in
  basePath +:+ "/" +:+ path.

Section Calls.

Context {Client : Type} `{!S3API Client}.

Local Open Scope prog_scope.

(** [checkRetention] *)
Definition checkRetention (bucket key : string) (requiredUntil : Time)
  : Prog Client (bool * option error) :=
  resp <- callGetObjectRetention {| ret_Bucket := bucket; ret_Key := key |};;
  match resp with
  | Err err =>
      if strings.Contains err "NoSuchObjectLockConfiguration"
         || strings.Contains err "ObjectLockConfigurationNotFoundError"
         || strings.Contains err "NoSuchKey"
      then ret (true, None)
      else ret (false, Some err)
  | Ok resp =>
      match Retention resp with
      | None => ret (true, None)
      | Some retention =>
          match RetainUntilDate retention with
          | None => ret (true, None)
          | Some retainUntilDate => ret (Before retainUntilDate requiredUntil, None)
          end
      end
  end.

End Calls.

End FirstVersion.

(** * Properties *)

(** ** Strings *)

Module strings_facts.
Import strings.

Lemma app_nil (t : string) : "" +:+ t = t.
Proof. reflexivity. Qed.

Lemma app_cons (c : ascii) (s t : string) : String c s +:+ t = String c (s +:+ t).
Proof. reflexivity. Qed.

Lemma app_nil_r (s : string) : s +:+ "" = s.
Proof. induction s as [|c s IH]; [done|]. by rewrite app_cons, IH. Qed.

Lemma app_assoc (s t u : string) : (s +:+ t) +:+ u = s +:+ (t +:+ u).
Proof. induction s as [|c s IH]; [done|]. by rewrite !app_cons, IH. Qed.

Lemma app_length (s t : string) :
  String.length (s +:+ t) = (String.length s + String.length t)%nat.
Proof. induction s as [|c s IH]; [done|]. rewrite app_cons. simpl. by rewrite IH. Qed.

Lemma HasPrefix_spec (s prefix : string) :
  HasPrefix s prefix = true ↔ ∃ rest, s = prefix +:+ rest.
Proof.
  revert s. induction prefix as [|p prefix IH]; intros s; simpl.
  - split; [intros _; by exists s | done].
  - destruct s as [|c s].
    + split; [done | intros [rest Hrest]; by rewrite app_cons in Hrest].
    + destruct (decide (c = p)) as [->|Hne].
      * rewrite IH. split; intros [rest Hrest]; exists rest.
        -- by rewrite app_cons, Hrest.
        -- rewrite app_cons in Hrest. congruence.
      * split; [done | intros [rest Hrest]; rewrite app_cons in Hrest; congruence].
Qed.

Lemma HasPrefix_app (prefix rest : string) : HasPrefix (prefix +:+ rest) prefix = true.
Proof. apply HasPrefix_spec. by exists rest. Qed.

Lemma Contains_spec (s substr : string) :
  Contains s substr = true ↔ ∃ before after, s = before +:+ substr +:+ after.
Proof.
  induction s as [|c s IH]; simpl.
  - rewrite orb_false_r, HasPrefix_spec. split.
    + intros [rest Hrest]. by exists "", rest.
    + intros [[|b before] [after Heq]]; [by exists after|].
      by rewrite app_cons in Heq.
  - rewrite orb_true_iff, HasPrefix_spec, IH. split.
    + intros [[rest Hrest]|(before & after & Heq)].
      * by exists "", rest.
      * exists (String c before), after. by rewrite app_cons, Heq.
    + intros [[|b before] [after Heq]].
      * left. by exists after.
      * right. exists before, after. rewrite app_cons in Heq. congruence.
Qed.

Lemma from_app (before s : string) : from (String.length before) (before +:+ s) = s.
Proof. induction before as [|c before IH]; [by destruct s|]. by rewrite app_cons. Qed.

Lemma from_split (n : nat) (s : string) :
  (n ≤ String.length s)%nat →
  ∃ before, s = before +:+ from n s ∧ String.length before = n.
Proof.
  revert s. induction n as [|n IH]; intros s Hn.
  - by exists "".
  - destruct s as [|c s]; simpl in Hn; [lia|].
    destruct (IH s) as (before & Heq & Hlen); [lia|].
    exists (String c before). simpl. rewrite app_cons, <-Heq. by rewrite Hlen.
Qed.

Lemma HasSuffix_spec (s suffix : string) :
  HasSuffix s suffix = true ↔ ∃ before, s = before +:+ suffix.
Proof.
  unfold HasSuffix. rewrite andb_true_iff, !bool_decide_eq_true. split.
  - intros [Hlen Hfrom].
    destruct (from_split (String.length s - String.length suffix) s) as (before & Heq & _);
      [lia|].
    exists before. by rewrite <-Hfrom.
  - intros [before ->]. rewrite app_length. split; [lia|].
    replace (String.length before + String.length suffix - String.length suffix)%nat
      with (String.length before) by lia.
    apply from_app.
Qed.

Lemma Split_nonempty (s : string) (sep : ascii) : Split s sep ≠ [].
Proof.
  destruct s as [|c s]; simpl; [done|].
  destruct (decide (c = sep)); [done|]. by destruct (Split s sep).
Qed.

(** [Split] loses nothing: joining the parts gives the string back. *)
Lemma Join_Split (s : string) (sep : ascii) : Join (Split s sep) sep = s.
Proof.
  induction s as [|c s IH]; simpl; [done|].
  destruct (decide (c = sep)) as [->|Hne].
  - pose proof (Split_nonempty s sep) as Hne.
    simpl. destruct (Split s sep) as [|part parts]; [done|].
    by rewrite app_nil, IH.
  - pose proof (Split_nonempty s sep) as Hnonempty.
    destruct (Split s sep) as [|part parts]; [done|].
    destruct parts as [|part' parts]; simpl in *.
    + by rewrite IH.
    + by rewrite app_cons, IH.
Qed.

(** No part of a [Split] holds the separator. *)
Lemma Split_no_sep (s : string) (sep : ascii) :
  Forall (λ part, hasByte sep part = false) (Split s sep).
Proof.
  induction s as [|c s IH]; simpl; [by constructor|].
  destruct (decide (c = sep)) as [->|Hne].
  - by constructor.
  - destruct (Split s sep) as [|part parts].
    + constructor; [|done]. simpl. by rewrite bool_decide_eq_false_2.
    + inversion IH; subst. constructor; [|done].
      simpl. by rewrite bool_decide_eq_false_2.
Qed.

Lemma Split_length (s : string) (sep : ascii) :
  length (Split s sep) = S (count sep s).
Proof.
  induction s as [|c s IH]; simpl; [done|].
  destruct (decide (c = sep)); simpl; [by rewrite IH|].
  pose proof (Split_nonempty s sep).
  destruct (Split s sep); [done|]. simpl in *. lia.
Qed.

End strings_facts.

(** ** The retention policy evaluator *)

(** C1. [needsRetentionUpdate] is a total function of its two arguments: it
    answers [true] when the current expiry is absent, [true] when the
    current expiry is strictly before the required instant, and [false] when
    it is at or after it; equal instants give [false]. *)
Theorem needsRetentionUpdate_spec (current required : Time) :
  needsRetentionUpdate None required = true
  ∧ (current < required → needsRetentionUpdate (Some current) required = true)
  ∧ (required ≤ current → needsRetentionUpdate (Some current) required = false)
  ∧ needsRetentionUpdate (Some required) required = false.
Proof.
  unfold needsRetentionUpdate, Before. repeat split.
  - intros Hlt. by apply Z.ltb_lt.
  - intros Hle. by apply Z.ltb_ge.
  - apply Z.ltb_irrefl.
Qed.

Lemma needsRetentionUpdate_spec_witness :
  needsRetentionUpdate None 20 = true
  ∧ (10 < 20 → needsRetentionUpdate (Some 10) 20 = true)
  ∧ (20 ≤ 10 → needsRetentionUpdate (Some 10) 20 = false)
  ∧ needsRetentionUpdate (Some 20) 20 = false.
Proof. exact (needsRetentionUpdate_spec 10 20). Defined.

Lemma needsRetentionUpdate_true (current : option Time) (required : Time) :
  needsRetentionUpdate current required = true ↔
  current = None ∨ ∃ c, current = Some c ∧ c < required.
Proof.
  destruct current as [c|]; simpl; unfold Before; rewrite ?Z.ltb_lt.
  - split; [intros Hlt; right; by exists c | intros [?|(c' & [= <-] & Hlt)]; done].
  - split; [by left | done].
Qed.

(** ** The key resolver *)

(** C4. The object key is the referenced path itself when the path begins
    with the hostname path, and the hostname path followed by the referenced
    path otherwise; the manifest [cluster1/host1/backup-001/meta/manifest.json]
    with the path [data/ks/table/file1.db] gives
    [cluster1/host1/data/ks/table/file1.db]. *)
Theorem objectKey_spec (hostnamePath path : string) :
  ((∃ rest, path = hostnamePath +:+ rest) → objectKey hostnamePath path = path)
  ∧ ((¬ ∃ rest, path = hostnamePath +:+ rest) →
     objectKey hostnamePath path = hostnamePath +:+ path)
  ∧ (∃ hostnamePath1,
       extractHostnamePath "cluster1/host1/backup-001/meta/manifest.json" = Ok hostnamePath1
       ∧ objectKey hostnamePath1 "data/ks/table/file1.db"
         = "cluster1/host1/data/ks/table/file1.db").
Proof.
  unfold objectKey. split; [|split].
  - intros Hprefix. apply strings_facts.HasPrefix_spec in Hprefix. by rewrite Hprefix.
  - intros Hprefix. destruct (strings.HasPrefix path hostnamePath) eqn:Heq; [|done].
    apply strings_facts.HasPrefix_spec in Heq. done.
  - exists "cluster1/host1/". split; reflexivity.
Qed.

Lemma objectKey_spec_witness :
  objectKey "a/b/" "a/b/data/f.db" = "a/b/data/f.db"
  ∧ objectKey "a/b/" "data/f.db" = "a/b/data/f.db".
Proof.
  destruct (objectKey_spec "a/b/" "a/b/data/f.db") as (Hsame & _ & _).
  destruct (objectKey_spec "a/b/" "data/f.db") as (_ & Hjoin & _).
  split.
  - apply Hsame. by exists "data/f.db".
  - apply Hjoin. intros [rest Hrest]. discriminate Hrest.
Defined.

(** C5. [extractHostnamePath] splits the manifest key on [/]; it fails
    exactly when fewer than 4 segments result, the empty key included, and
    otherwise returns the first two segments, each followed by [/]. *)
Theorem extractHostnamePath_spec (manifestKey : string) :
  let parts := strings.Split manifestKey "/" in
  strings.Join parts "/" = manifestKey
  ∧ Forall (λ part, strings.hasByte "/" part = false) parts
  ∧ (isErr (extractHostnamePath manifestKey) = true ↔ (length parts < 4)%nat)
  ∧ ((4 ≤ length parts)%nat →
     ∃ cluster host rest,
       parts = cluster :: host :: rest
       ∧ extractHostnamePath manifestKey = Ok (cluster +:+ "/" +:+ host +:+ "/"))
  ∧ isErr (extractHostnamePath "") = true.
Proof.
  intros parts. split; [apply strings_facts.Join_Split|].
  split; [apply strings_facts.Split_no_sep|].
  unfold extractHostnamePath. fold parts. repeat split.
  - case_bool_decide; [done|]. simpl. discriminate.
  - intros Hlen. by rewrite bool_decide_eq_true_2.
  - intros Hlen. destruct parts as [|cluster [|host rest]]; simpl in Hlen; [lia..|].
    exists cluster, host, rest. split; [done|].
    rewrite bool_decide_eq_false_2 by (simpl; lia). done.
Qed.

Lemma extractHostnamePath_spec_witness :
  extractHostnamePath "a/b/c/d/e/meta/manifest.json" = Ok "a/b/"
  ∧ isErr (extractHostnamePath "a/b/c") = true.
Proof.
  destruct (extractHostnamePath_spec "a/b/c/d/e/meta/manifest.json") as (_ & _ & _ & Hok & _).
  destruct (extractHostnamePath_spec "a/b/c") as (_ & _ & Herr & _).
  split.
  - destruct Hok as (cluster & host & rest & Hparts & Heq).
    + vm_compute. lia.
    + vm_compute in Hparts. injection Hparts as <- <- _. exact Heq.
  - apply Herr. vm_compute. lia.
Defined.

(** ** The manifest parser *)

Lemma mapRes_fmap_Ok {A B C} (f : B → Res C) (h : A → B) (g : A → C) (l : list A) :
  (∀ a, f (h a) = Ok (g a)) → mapRes f (h <$> l) = Ok (g <$> l).
Proof.
  intros Hf. induction l as [|a l IH]; [done|].
  rewrite !fmap_cons. cbn [mapRes]. by rewrite Hf, IH.
Qed.

Lemma flatten_fold {A B} (f : A → list B) (l : list A) (init : list B) :
  fold_left (λ acc a, acc ++ f a) l init = init ++ concat (f <$> l).
Proof.
  revert init. induction l as [|a l IH]; intros init; simpl.
  - by rewrite app_nil_r.
  - by rewrite IH, app_assoc.
Qed.

Lemma intoObject_pathRecord (path : string) :
  json.intoObject (json.pathRecord path) = Ok (json.objectOf path).
Proof. reflexivity. Qed.

Lemma Legacy_intoPath_pathRecord (path : string) :
  Legacy.intoPath (json.pathRecord path) = Ok (json.objectOf path).
Proof. reflexivity. Qed.

(** Onto a slice that is empty, an array is decoded element by element
    into fresh objects. *)
Lemma ontoObjects_nil (elems : list json.value) :
  json.ontoObjects [] elems = mapRes json.intoObject elems.
Proof.
  induction elems as [|v elems IH]; [done|].
  cbn [json.ontoObjects mapRes hd tl]. by rewrite IH.
Qed.

Lemma Legacy_ontoPaths_nil (elems : list json.value) :
  Legacy.ontoPaths [] elems = mapRes Legacy.intoPath elems.
Proof.
  induction elems as [|v elems IH]; [done|].
  cbn [Legacy.ontoPaths mapRes hd tl]. by rewrite IH.
Qed.

Lemma intoEntry_tableRecord (paths : list string) :
  json.intoEntry (json.tableRecord paths)
  = Ok {| Keyspace := ""; ColumnFamily := ""; EntryObjects := json.objectOf <$> paths |}.
Proof.
  unfold json.intoEntry, json.tableRecord, foldRes, json.entryMember.
  replace (json.selects "keyspace" ("objects", json.Array (json.pathRecord <$> paths)).1)
    with false by reflexivity.
  replace (json.selects "columnfamily" ("objects", json.Array (json.pathRecord <$> paths)).1)
    with false by reflexivity.
  replace (json.selects "objects" ("objects", json.Array (json.pathRecord <$> paths)).1)
    with true by reflexivity.
  unfold json.intoObjects. cbn [snd EntryObjects json.zeroEntry]. rewrite ontoObjects_nil.
  by rewrite (mapRes_fmap_Ok _ _ json.objectOf) by apply intoObject_pathRecord.
Qed.

Lemma UnmarshalEntries_tableDocument (tables : list (list string)) :
  json.UnmarshalEntries (json.tableDocument tables)
  = Ok ((λ paths, {| Keyspace := ""; ColumnFamily := "";
                     EntryObjects := json.objectOf <$> paths |}) <$> tables).
Proof.
  unfold json.UnmarshalEntries, json.tableDocument.
  by erewrite mapRes_fmap_Ok by apply intoEntry_tableRecord.
Qed.

Lemma Path_objectOf (ps : list string) : Path <$> (json.objectOf <$> ps) = ps.
Proof. induction ps as [|p ps IH]; [done|]. rewrite !fmap_cons. by rewrite IH. Qed.

Lemma Path_tables (tables : list (list string)) :
  Path <$> concat (EntryObjects <$>
    ((λ ps, {| Keyspace := ""; ColumnFamily := ""; EntryObjects := json.objectOf <$> ps |})
       <$> tables))
  = concat tables.
Proof.
  induction tables as [|ps tables IH]; [done|].
  rewrite !fmap_cons. cbn [concat EntryObjects].
  by rewrite fmap_app, IH, Path_objectOf.
Qed.

(** The document of shape (b) decodes to the concatenation of its tables. *)
Lemma parseManifest_tableDocument scan data (tables : list (list string)) :
  scan data = Ok (json.tableDocument tables) →
  ∃ manifest, parseManifest scan data = Ok manifest ∧ paths manifest = concat tables.
Proof.
  intros Hscan. unfold parseManifest. rewrite Hscan.
  change (Ok (json.tableDocument tables) ≫= λ doc, json.UnmarshalEntries doc)
    with (json.UnmarshalEntries (json.tableDocument tables)).
  rewrite UnmarshalEntries_tableDocument. eexists. split; [done|].
  unfold paths. cbn [Objects]. rewrite flatten_fold, app_nil_l.
  apply Path_tables.
Qed.

(** The document of shape (a) is refused: its top level is no sequence. *)
Lemma parseManifest_flatDocument scan data (key : string) (paths : list string) :
  scan data = Ok (json.flatDocument key paths) →
  isErr (parseManifest scan data) = true.
Proof. intros Hscan. unfold parseManifest. by rewrite Hscan. Qed.

(** The first version of the program decoded shape (a), under the key
    [objects], and refused shape (b). *)
Lemma Legacy_UnmarshalManifest_shapes (paths : list string) (tables : list (list string)) :
  Legacy.UnmarshalManifest (json.flatDocument "objects" paths)
  = Ok {| Objects := json.objectOf <$> paths |}
  ∧ isErr (Legacy.UnmarshalManifest (json.tableDocument tables)) = true.
Proof.
  split; [|done].
  unfold Legacy.UnmarshalManifest, json.flatDocument, foldRes, Legacy.manifestMember.
  replace (json.selects "objects" ("objects", json.Array (json.pathRecord <$> paths)).1)
    with true by reflexivity.
  unfold Legacy.intoPaths. cbn [snd Objects]. rewrite Legacy_ontoPaths_nil.
  by rewrite (mapRes_fmap_Ok _ _ json.objectOf) by apply Legacy_intoPath_pathRecord.
Qed.

(** C3. Of the two wire shapes, [parseManifest] decodes the sequence of
    per-table records, to the concatenation of their path records in record
    order then in-record order, and answers the top-level mapping with an
    error: the document
    [{objects: [{path: data/keyspace/table/file1.db}, {path: data/keyspace/table/file2.db}]}]
    of the program's own test does not parse. *)
Theorem parseManifest_wire_shapes scan (data : string) :
  (∀ tables, scan data = Ok (json.tableDocument tables) →
     ∃ manifest, parseManifest scan data = Ok manifest ∧ paths manifest = concat tables)
  ∧ (scan data
       = Ok (json.flatDocument "objects"
               ["data/keyspace/table/file1.db"; "data/keyspace/table/file2.db"]) →
     isErr (parseManifest scan data) = true).
Proof.
  split.
  - intros tables. apply parseManifest_tableDocument.
  - apply parseManifest_flatDocument.
Qed.

Lemma parseManifest_wire_shapes_witness :
  isErr (parseManifest
           (λ _, Ok (json.flatDocument "objects"
                       ["data/keyspace/table/file1.db"; "data/keyspace/table/file2.db"]))
           "manifest") = true.
Proof.
  apply (parseManifest_wire_shapes
           (λ _, Ok (json.flatDocument "objects"
                       ["data/keyspace/table/file1.db"; "data/keyspace/table/file2.db"]))
           "manifest").
  reflexivity.
Defined.

(** ** Runs of the program, call by call *)

Section Runs.

Context {Client : Type} `{!S3API Client}.
Variable scan : string → Res json.value.
Variable AddDate : Time → Z → Z → Z → Time.
Variable rangeKeys : gmap string bool → list string.

Lemma bind_run {A B} (m : Prog Client A) (f : A → Prog Client B) (c : Client) :
  bind m f c
  = (result (f (result (m c)) (final (m c))),
     final (f (result (m c)) (final (m c))),
     trace (m c) ++ trace (f (result (m c)) (final (m c)))).
Proof.
  unfold bind, result, final, trace.
  destruct (m c) as [[a c1] t1]. simpl. by destruct (f a c1) as [[b c2] t2].
Qed.

Lemma bind_log {B} (entry : LogEntry) (k : Prog Client B) (c : Client) :
  bind (log entry) (λ _, k) c = (result (k c), final (k c), LogLine entry :: trace (k c)).
Proof. unfold bind, log, result, final, trace. by destruct (k c) as [[b c2] t2]. Qed.

Lemma forEach_cons {A} (x : A) (l : list A) (body : A → Prog Client unit) (c : Client) :
  forEach (x :: l) body c
  = (tt, final (forEach l body (final (body x c))),
     trace (body x c) ++ trace (forEach l body (final (body x c)))).
Proof.
  cbn [forEach]. rewrite bind_run. f_equal. f_equal.
  by destruct (result (forEach l body (final (body x c)))).
Qed.

Lemma forEach_app {A} (l1 l2 : list A) (body : A → Prog Client unit) (c : Client) :
  forEach (l1 ++ l2) body c
  = (tt, final (forEach l2 body (final (forEach l1 body c))),
     trace (forEach l1 body c) ++ trace (forEach l2 body (final (forEach l1 body c)))).
Proof.
  revert c. induction l1 as [|x l1 IH]; intros c.
  - cbn. by destruct (forEach l2 body c) as [[[] c'] t].
  - rewrite <-app_comm_cons, !forEach_cons, IH. cbn. by rewrite app_assoc.
Qed.

(** [checkRetention] is its query followed by [verdict]. *)
Lemma checkRetention_run (bucket key : string) (requiredUntil : Time) (c : Client) :
  let params := {| ret_Bucket := bucket; ret_Key := key |} in
  checkRetention bucket key requiredUntil c
  = (verdict (GetObjectRetention params c).1 requiredUntil,
     (GetObjectRetention params c).2,
     [GetObjectRetentionCall params (GetObjectRetention params c).1]).
Proof.
  intros params. unfold checkRetention, bind, callGetObjectRetention. fold params.
  destruct (GetObjectRetention params c) as [[out|err] c1]; cbn.
  - unfold queriedExpiry. by destruct (Retention out).
  - by destruct (_ || _).
Qed.

Lemma updateRetention_run (bucket key : string) (retainUntil : Time) (c : Client) :
  let params := updateRequest bucket key retainUntil in
  updateRetention bucket key retainUntil c
  = (match (PutObjectRetention params c).1 with Ok _ => None | Err err => Some err end,
     (PutObjectRetention params c).2,
     [PutObjectRetentionCall params (PutObjectRetention params c).1]).
Proof.
  intros params. unfold updateRetention, bind, callPutObjectRetention.
  fold (updateRequest bucket key retainUntil). fold params.
  by destruct (PutObjectRetention params c) as [[[]|err] c1].
Qed.

(** One object: the query, then by its verdict nothing, a log line, or the
    update and its log line. *)
Lemma reconcileObject_run (bucket : string) (dryRun : bool) (retentionUntil : Time)
    (hostnamePath : string) (obj : ManifestObject) (c : Client) :
  let key := objectKey hostnamePath (Path obj) in
  let query := {| ret_Bucket := bucket; ret_Key := key |} in
  let update := updateRequest bucket key retentionUntil in
  let resp := (GetObjectRetention query c).1 in
  let c1 := (GetObjectRetention query c).2 in
  reconcileObject bucket dryRun retentionUntil hostnamePath obj c
  = match verdict resp retentionUntil with
    | (_, Some err) =>
        (tt, c1, [GetObjectRetentionCall query resp; LogLine (LogCheckError key err)])
    | (false, None) => (tt, c1, [GetObjectRetentionCall query resp])
    | (true, None) =>
        if dryRun then (tt, c1, [GetObjectRetentionCall query resp; LogLine (LogDryRun key)])
        else
          (tt, (PutObjectRetention update c1).2,
           [GetObjectRetentionCall query resp;
            PutObjectRetentionCall update (PutObjectRetention update c1).1;
            LogLine match (PutObjectRetention update c1).1 with
                    | Ok _ => LogUpdated key retentionUntil
                    | Err err => LogUpdateError key err
                    end])
    end.
Proof.
  intros key query update resp c1. unfold reconcileObject. fold key.
  rewrite bind_run, checkRetention_run. fold query resp c1.
  unfold result, final, trace. cbn [fst snd].
  destruct (verdict resp retentionUntil) as [[] [err|]]; try done.
  destruct dryRun; [done|].
  rewrite bind_run, updateRetention_run. fold update.
  unfold result, final, trace. cbn [fst snd].
  by destruct (PutObjectRetention update c1).1.
Qed.

Lemma downloadManifest_run (bucket key : string) (c : Client) :
  let params := {| get_Bucket := bucket; get_Key := key |} in
  downloadManifest scan bucket key c
  = (downloaded scan (GetObject params c).1, (GetObject params c).2,
     [GetObjectCall params (GetObject params c).1]).
Proof.
  intros params. unfold downloadManifest, bind, callGetObject. fold params.
  destruct (GetObject params c) as [[out|err] c1]; cbn; [|done].
  by destruct (Body out).
Qed.

(** One manifest: the download, then a log line for a manifest that does
    not download, decode or give a hostname path, or else its objects. *)
Lemma reconcileManifest_run (bucket : string) (dryRun : bool) (retentionUntil : Time)
    (manifestKey : string) (c : Client) :
  let params := {| get_Bucket := bucket; get_Key := manifestKey |} in
  let resp := (GetObject params c).1 in
  let c1 := (GetObject params c).2 in
  reconcileManifest scan bucket dryRun retentionUntil manifestKey c
  = match downloaded scan resp, extractHostnamePath manifestKey with
    | Err err, _ =>
        (tt, c1, [LogLine (LogProcessing manifestKey); GetObjectCall params resp;
                  LogLine (LogDownloadError manifestKey err)])
    | Ok _, Err _ =>
        (tt, c1, [LogLine (LogProcessing manifestKey); GetObjectCall params resp;
                  LogLine (LogInvalidPath manifestKey)])
    | Ok manifest, Ok hostnamePath =>
        let objects :=
          forEach (Objects manifest)
                  (reconcileObject bucket dryRun retentionUntil hostnamePath) c1 in
        (tt, final objects,
         LogLine (LogProcessing manifestKey) :: GetObjectCall params resp :: trace objects)
    end.
Proof.
  intros params resp c1. unfold reconcileManifest.
  rewrite bind_log, bind_run, downloadManifest_run. fold params resp c1.
  unfold result, final, trace. cbn [fst snd].
  destruct (downloaded scan resp) as [manifest|err]; [|done].
  destruct (extractHostnamePath manifestKey) as [hostnamePath|err]; [|done].
  cbn zeta.
  by destruct (forEach _ _ c1) as [[[] c2] t].
Qed.

End Runs.


(** ** Properties that compose along a run *)

Section Relations.

Context {Client : Type}.
Variable R : Client → list Event → Client → Prop.
Hypothesis R_nil : ∀ c, R c [] c.
Hypothesis R_app : ∀ c t1 c1 t2 c2, R c t1 c1 → R c1 t2 c2 → R c (t1 ++ t2) c2.

Lemma forEach_rel {A} (l : list A) (body : A → Prog Client unit) :
  (∀ x c, x ∈ l → R c (trace (body x c)) (final (body x c))) →
  ∀ c, R c (trace (forEach l body c)) (final (forEach l body c)).
Proof.
  induction l as [|x l IH]; intros Hbody c.
  - apply R_nil.
  - rewrite forEach_cons. unfold trace at 1, final at 1. cbn [fst snd].
    eapply R_app.
    + apply Hbody. by left.
    + apply IH. intros x' c' Hx'. apply Hbody. by right.
Qed.

Context `{!S3API Client}.
Variable scan : string → Res json.value.
Variable bucket : string.
Variable dryRun : bool.
Variable retentionUntil : Time.

Hypothesis R_log : ∀ c entry, R c [LogLine entry] c.
Hypothesis R_get : ∀ c key,
  let params := {| get_Bucket := bucket; get_Key := key |} in
  R c [GetObjectCall params (GetObject params c).1] (GetObject params c).2.
Hypothesis R_object : ∀ hostnamePath obj c,
  R c (trace (reconcileObject bucket dryRun retentionUntil hostnamePath obj c))
      (final (reconcileObject bucket dryRun retentionUntil hostnamePath obj c)).

Lemma reconcileManifest_rel (manifestKey : string) (c : Client) :
  R c (trace (reconcileManifest scan bucket dryRun retentionUntil manifestKey c))
      (final (reconcileManifest scan bucket dryRun retentionUntil manifestKey c)).
Proof.
  rewrite reconcileManifest_run.
  set (params := {| get_Bucket := bucket; get_Key := manifestKey |}).
  assert (Hhead : R c [LogLine (LogProcessing manifestKey);
                       GetObjectCall params (GetObject params c).1] (GetObject params c).2).
  { apply (R_app c [_] c [_]); [apply R_log | apply R_get]. }
  destruct (downloaded scan _) as [manifest|err].
  - destruct (extractHostnamePath manifestKey) as [hostnamePath|err].
    + unfold trace at 1, final at 1. cbn [fst snd].
      apply (R_app c [_; _] _ _ _ Hhead).
      apply forEach_rel. intros obj c' _. apply R_object.
    + apply (R_app c [_; _] _ [_] _ Hhead). apply R_log.
  - apply (R_app c [_; _] _ [_] _ Hhead). apply R_log.
Qed.

Lemma reconcile_rel (manifests : list string) (c : Client) :
  R c (trace (reconcile scan bucket dryRun retentionUntil manifests c))
      (final (reconcile scan bucket dryRun retentionUntil manifests c)).
Proof.
  apply forEach_rel. intros manifestKey c' _. apply reconcileManifest_rel.
Qed.

End Relations.

(** ** Manifest discovery *)

Section Discovery.

Context {Client : Type} `{!S3API Client}.
Variable rangeKeys : gmap string bool → list string.

Lemma listPages_S (fuel : nat) (bucket prefix : string) (token : option string)
    (backupPaths : gmap string bool) (c : Client) :
  let params := {| list_Bucket := bucket; list_Prefix := prefix; ContinuationToken := token |} in
  let c1 := (ListObjectsV2 params c).2 in
  listPages (S fuel) bucket prefix token backupPaths c
  = match (ListObjectsV2 params c).1 with
    | Err err =>
        (Some (Err ("failed to list objects: " +:+ err)), c1,
         [ListObjectsV2Call params (Err err)])
    | Ok resp =>
        if ToBool (IsTruncated resp) then
          let rest := listPages fuel bucket prefix (NextContinuationToken resp)
                                (collect (Contents resp) backupPaths) c1 in
          (result rest, final rest, ListObjectsV2Call params (Ok resp) :: trace rest)
        else
          (Some (Ok (collect (Contents resp) backupPaths)), c1,
           [ListObjectsV2Call params (Ok resp)])
    end.
Proof.
  intros params c1. cbn [listPages]. fold params.
  rewrite bind_run. unfold callListObjectsV2, result, final, trace. subst c1.
  destruct (ListObjectsV2 params c) as [[resp|err] c1]; cbn [fst snd]; [|done].
  by destruct (ToBool (IsTruncated resp)).
Qed.

(** The listing loop issues listing calls only. *)
Lemma listPages_trace (fuel : nat) (bucket prefix : string) (token : option string)
    (backupPaths : gmap string bool) (c : Client) :
  Forall isList (trace (listPages fuel bucket prefix token backupPaths c)).
Proof.
  revert token backupPaths c. induction fuel as [|fuel IH]; intros token backupPaths c.
  - constructor.
  - rewrite listPages_S. destruct (ListObjectsV2 _ c).1 as [resp|err].
    + destruct (ToBool (IsTruncated resp)).
      * constructor; [done|]. apply IH.
      * by repeat constructor.
    + by repeat constructor.
Qed.

Lemma collect_dom (contents : list string) (backupPaths : gmap string bool) (key : string) :
  key ∈ dom (collect contents backupPaths) ↔
  key ∈ dom backupPaths
  ∨ (key ∈ contents ∧ strings.HasSuffix key "/meta/manifest.json" = true).
Proof.
  unfold collect. revert backupPaths.
  induction contents as [|key' contents IH]; intros backupPaths; cbn [fold_left].
  - split; [by left | intros [?|[Hin _]]; [done | by apply elem_of_nil in Hin]].
  - rewrite IH. destruct (strings.HasSuffix key' "/meta/manifest.json") eqn:Hsuffix.
    + rewrite dom_insert, elem_of_union, elem_of_singleton, elem_of_cons.
      split; [intros [[->|?]|[? ?]]|intros [?|[[->|?] ?]]]; eauto.
    + rewrite elem_of_cons.
      split; [intros [?|[? ?]]|intros [?|[[->|?] ?]]]; eauto. congruence.
Qed.

(** A listing that ends is walked to its end, given fuel for its pages: on
    success the map holds the listed keys with the manifest suffix (and
    what it held before); a failed page gives the error and no map. *)
Lemma listPages_Listing (bucket prefix : string) (token : option string) (c : Client)
    (pages : list ListObjectsV2Output) (outcome : option error) (c' : Client) :
  Listing bucket prefix token c pages outcome c' →
  ∀ (fuel : nat) (backupPaths : gmap string bool),
    (length pages + match outcome with Some _ => 1 | None => 0 end ≤ fuel)%nat →
    final (listPages fuel bucket prefix token backupPaths c) = c'
    ∧ match outcome with
      | Some err =>
          result (listPages fuel bucket prefix token backupPaths c)
          = Some (Err ("failed to list objects: " +:+ err))
      | None =>
          ∃ found,
            result (listPages fuel bucket prefix token backupPaths c) = Some (Ok found)
            ∧ ∀ key, key ∈ dom found ↔
                key ∈ dom backupPaths
                ∨ ∃ page, page ∈ pages ∧ key ∈ Contents page
                          ∧ strings.HasSuffix key "/meta/manifest.json" = true
      end.
Proof.
  induction 1 as [token c resp c' Hcall Hlast | token c err c' Hcall
                 | token c resp c' pages outcome c'' Hcall Hmore Hrest IH];
    intros [|fuel] backupPaths Hfuel; cbn [length] in Hfuel; try lia;
    rewrite listPages_S, Hcall; cbn [fst snd].
  - rewrite Hlast. split; [done|]. eexists. split; [done|].
    intros key. rewrite collect_dom. split.
    + intros [?|[? ?]]; [by left|]. right. exists resp. split; [by left | done].
    + intros [?|(page & Hpage & ? & ?)]; [by left|].
      apply list_elem_of_singleton in Hpage as ->. by right.
  - done.
  - rewrite Hmore. cbn zeta. unfold final at 1, result at 1 3. cbn [fst snd].
    destruct (IH fuel (collect (Contents resp) backupPaths)) as [Hfinal Hresult]; [lia|].
    split; [done|]. destruct outcome as [err|]; [done|].
    destruct Hresult as (found & Hfound & Hdom). exists found. split; [done|].
    intros key. rewrite Hdom, collect_dom. split.
    + intros [[?|[? ?]]|(page & ? & ? & ?)].
      * by left.
      * right. exists resp. split; [by left | done].
      * right. exists page. split; [by right | done].
    + intros [?|(page & Hpage & ? & ?)]; [by left; left|].
      apply elem_of_cons in Hpage as [->|?]; [left; by right|].
      right. by exists page.
Qed.

Lemma findManifests_run (fuel : nat) (bucket cluster : string) (c : Client) :
  let pages := listPages fuel bucket (cluster +:+ "/") None ∅ c in
  findManifests rangeKeys fuel bucket cluster c
  = (match result pages with
     | None => None
     | Some (Err err) => Some (Err err)
     | Some (Ok backupPaths) => Some (Ok (rangeKeys backupPaths))
     end, final pages, trace pages).
Proof.
  intros pages. unfold findManifests. rewrite bind_run. fold pages.
  destruct (result pages) as [[backupPaths|err]|]; unfold ret, result, final, trace;
    cbn [fst snd]; by rewrite app_nil_r.
Qed.

Lemma findManifests_trace (fuel : nat) (bucket cluster : string) (c : Client) :
  Forall isList (trace (findManifests rangeKeys fuel bucket cluster c)).
Proof. rewrite findManifests_run. apply listPages_trace. Qed.

Hypothesis rangeKeys_perm : ∀ m, rangeKeys m ≡ₚ (map_to_list m).*1.

Lemma rangeKeys_NoDup (m : gmap string bool) : NoDup (rangeKeys m).
Proof. rewrite rangeKeys_perm. apply NoDup_fst_map_to_list. Qed.

Lemma rangeKeys_dom (m : gmap string bool) (key : string) : key ∈ rangeKeys m ↔ key ∈ dom m.
Proof.
  rewrite rangeKeys_perm, elem_of_dom, list_elem_of_fmap. split.
  - intros [[key' v] [-> Hin]]. apply elem_of_map_to_list in Hin. by exists v.
  - intros [v Hv]. exists (key, v). split; [done|]. by apply elem_of_map_to_list.
Qed.

(** C7. Discovery follows the continuation tokens until a page is not
    truncated.  Over a listing that ends, [findManifests] returns (given
    fuel for the pages) exactly the listed keys that end in
    [/meta/manifest.json], none of them twice, whatever the pages share and
    in whatever order the map is walked; keys without the suffix are left
    out. *)
Theorem findManifests_spec (bucket cluster : string) (c : Client)
    (pages : list ListObjectsV2Output) (c' : Client) (fuel : nat) :
  Listing bucket (cluster +:+ "/") None c pages None c' →
  (length pages ≤ fuel)%nat →
  ∃ manifests,
    result (findManifests rangeKeys fuel bucket cluster c) = Some (Ok manifests)
    ∧ final (findManifests rangeKeys fuel bucket cluster c) = c'
    ∧ NoDup manifests
    ∧ ∀ key, key ∈ manifests ↔
        (∃ page, page ∈ pages ∧ key ∈ Contents page)
        ∧ ∃ before, key = before +:+ "/meta/manifest.json".
Proof.
  intros Hlisting Hfuel.
  destruct (listPages_Listing _ _ _ _ _ _ _ Hlisting fuel ∅) as (Hfinal & found & Hfound & Hdom);
    [lia|].
  rewrite findManifests_run. unfold result at 1, final at 1. cbn [fst snd].
  rewrite Hfound. exists (rangeKeys found). split; [done|]. split; [done|].
  split; [apply rangeKeys_NoDup|].
  intros key. rewrite rangeKeys_dom, Hdom, dom_empty, elem_of_empty. split.
  - intros [[]|(page & ? & ? & Hsuffix)]. apply strings_facts.HasSuffix_spec in Hsuffix. eauto.
  - intros [(page & ? & ?) Hsuffix]. apply strings_facts.HasSuffix_spec in Hsuffix.
    right. by exists page.
Qed.

End Discovery.

(** ** The verdict of the retention query *)

Lemma verdict_absent (err : error) (requiredUntil : Time) :
  noLockConfiguration err ∨ noSuchKey err → verdict (Err err) requiredUntil = (true, None).
Proof.
  unfold noLockConfiguration, noSuchKey, verdict. intros Habsent.
  assert (Hcontains :
    strings.Contains err "NoSuchObjectLockConfiguration"
    || strings.Contains err "ObjectLockConfigurationNotFoundError"
    || strings.Contains err "NoSuchKey" = true); [|by rewrite Hcontains].
  rewrite !orb_true_iff, !strings_facts.Contains_spec. tauto.
Qed.

Lemma verdict_other (err : error) (requiredUntil : Time) :
  ¬ (noLockConfiguration err ∨ noSuchKey err) →
  verdict (Err err) requiredUntil = (false, Some err).
Proof.
  unfold noLockConfiguration, noSuchKey, verdict. intros Hother.
  destruct (_ || _) eqn:Hcontains; [|done]. exfalso. apply Hother.
  rewrite !orb_true_iff, !strings_facts.Contains_spec in Hcontains. tauto.
Qed.

(** [checkRetention] says yes in two cases only: the query has succeeded
    and reported no expiry or an expiry strictly before the required
    instant, or it has failed with an error that names a missing lock
    configuration or a missing object. *)
Lemma verdict_true (resp : Res GetObjectRetentionOutput) (requiredUntil : Time) :
  verdict resp requiredUntil = (true, None) ↔
  (∃ out, resp = Ok out
          ∧ (queriedExpiry out = None
             ∨ ∃ current, queriedExpiry out = Some current ∧ current < requiredUntil))
  ∨ (∃ err, resp = Err err ∧ (noLockConfiguration err ∨ noSuchKey err)).
Proof.
  split.
  - destruct resp as [out|err]; unfold verdict.
    + intros [= Hneeds]. left. exists out. split; [done|].
      by apply needsRetentionUpdate_true in Hneeds.
    + intros Hverdict. right. exists err. split; [done|].
      destruct (_ || _) eqn:Hcontains; [|done].
      rewrite !orb_true_iff, !strings_facts.Contains_spec in Hcontains.
      unfold noLockConfiguration, noSuchKey. tauto.
  - intros [(out & -> & Hlow)|(err & -> & Habsent)]; [|by apply verdict_absent].
    unfold verdict. f_equal. destruct Hlow as [-> | (current & -> & Hlt)]; [done|].
    cbn. unfold Before. by apply Z.ltb_lt.
Qed.

(** ** Guarded updates *)

Lemma Guarded_app (requiredUntil : Time) (t1 t2 : list Event) :
  Guarded requiredUntil t1 → Guarded requiredUntil t2 → Guarded requiredUntil (t1 ++ t2).
Proof.
  induction 1; intros Ht2; cbn [app]; [done|..].
  - apply Guarded_other; auto.
  - apply Guarded_update; auto.
Qed.

Lemma Guarded_split (requiredUntil : Time) (t : list Event) :
  Guarded requiredUntil t →
  ∀ before update presp after,
    t = before ++ PutObjectRetentionCall update presp :: after →
    ∃ before' query resp,
      before = before' ++ [GetObjectRetentionCall query resp]
      ∧ update = updateRequest (ret_Bucket query) (ret_Key query) requiredUntil
      ∧ verdict resp requiredUntil = (true, None).
Proof.
  induction 1 as [|e t He _ IH|query resp presp' t Hverdict _ IH];
    intros before update presp after Heq.
  - by destruct before.
  - destruct before as [|e' before]; cbn [app] in Heq.
    + injection Heq as -> _. by destruct He.
    + injection Heq as <- Heq. destruct (IH _ _ _ _ Heq) as (before' & q & r & -> & ? & ?).
      by exists (e :: before'), q, r.
  - destruct before as [|e1 [|e2 before]]; cbn [app] in Heq.
    + discriminate Heq.
    + injection Heq as <- <- _ _. by exists [], query, resp.
    + injection Heq as <- <- Heq. destruct (IH _ _ _ _ Heq) as (before' & q & r & -> & ? & ?).
      by eexists (_ :: _ :: before'), q, r.
Qed.

(** ** The reconciliation driver *)

Section Driver.

Context {Client : Type} `{!S3API Client}.
Variable scan : string → Res json.value.
Variable AddDate : Time → Z → Z → Z → Time.
Variable rangeKeys : gmap string bool → list string.

(** How a run of [main] goes: it ends at once on bad flags or a failed
    configuration; or the listing does not come to an end, or fails; or the
    manifests found are reconciled one after the other. *)
Lemma main_cases (fuel : nat) (bucket cluster : string) (retentionDays : Z) (dryRun : bool)
    (cfg : Res unit) (now : Time) (c : Client) :
  let found := findManifests rangeKeys fuel bucket cluster c in
  let run := main scan AddDate rangeKeys fuel bucket cluster retentionDays dryRun cfg now c in
  (¬ validFlags bucket cluster retentionDays cfg
   ∧ trace run = [] ∧ final run = c ∧ ∃ message, result run = Some (Fatal message))
  ∨ (validFlags bucket cluster retentionDays cfg
     ∧ match result found with
       | None => run = (None, final found, trace found)
       | Some (Err err) =>
           run = (Some (Fatal ("Failed to find manifests: " +:+ err)), final found,
                  trace found)
       | Some (Ok manifests) =>
           let pass := reconcile scan bucket dryRun (AddDate now 0 0 retentionDays) manifests
                                 (final found) in
           run = (Some Done, final pass,
                  trace found ++ LogLine (LogFound (length manifests)) :: trace pass
                  ++ [LogLine LogDone])
       end).
Proof.
  intros found run. subst run. unfold main, validFlags.
  destruct (_ || _) eqn:Hflags.
  { left. rewrite !orb_true_iff, !bool_decide_eq_true in Hflags.
    split; [|eauto]. intros (? & ? & ? & _). destruct Hflags as [[?|?]|?]; [done..|lia]. }
  rewrite !orb_false_iff, !bool_decide_eq_false in Hflags.
  destruct Hflags as [[? ?] ?].
  destruct cfg as [[]|err]; [|left; split; [by intros (_ & _ & _ & ?)|]; eauto].
  right. split; [repeat split; done || lia|].
  rewrite bind_run. fold found.
  destruct (result found) as [[manifests|err]|]; unfold ret, result, final, trace;
    cbn [fst snd]; rewrite ?app_nil_r; try done.
  rewrite bind_log, bind_run, bind_log. unfold ret, result, final, trace. cbn [fst snd].
  done.
Qed.

Lemma main_result (fuel : nat) (bucket cluster : string) (retentionDays : Z) (dryRun : bool)
    (cfg : Res unit) (now : Time) (c : Client) :
  result (main scan AddDate rangeKeys fuel bucket cluster retentionDays dryRun cfg now c)
  = exitOf bucket cluster retentionDays cfg
           (result (findManifests rangeKeys fuel bucket cluster c)).
Proof.
  unfold main, exitOf. destruct (_ || _); [done|]. destruct cfg as [[]|err]; [|done].
  rewrite bind_run. unfold result at 1. cbn [fst].
  destruct (result (findManifests rangeKeys fuel bucket cluster c)) as [[manifests|err]|];
    try done.
  rewrite bind_log, bind_run, bind_log. done.
Qed.

(** A property of traces that holds of the empty trace, of every event that
    is no update, and of the trace of every object, and that passes to
    concatenations, holds of the trace of [main]. *)
Lemma main_trace (T : list Event → Prop) (fuel : nat) (bucket cluster : string)
    (retentionDays : Z) (dryRun : bool) (cfg : Res unit) (now : Time) (c : Client) :
  T [] →
  (∀ t1 t2, T t1 → T t2 → T (t1 ++ t2)) →
  (∀ e, ¬ isPut e → T [e]) →
  (∀ hostnamePath obj c,
     T (trace (reconcileObject bucket dryRun (AddDate now 0 0 retentionDays)
                               hostnamePath obj c))) →
  T (trace (main scan AddDate rangeKeys fuel bucket cluster retentionDays dryRun cfg now c)).
Proof.
  intros Hnil Happ Hother Hobject.
  assert (Hlist : ∀ t, Forall isList t → T t).
  { induction 1 as [|e t He _ IH]; [done|].
    apply (Happ [e] t); [|done]. apply Hother. destruct e; cbn in *; tauto. }
  pose proof (findManifests_trace rangeKeys fuel bucket cluster c) as Hfound.
  destruct (main_cases fuel bucket cluster retentionDays dryRun cfg now c)
    as [(_ & -> & _)|[_ Hrun]]; [done|].
  destruct (result (findManifests rangeKeys fuel bucket cluster c)) as [[manifests|err]|];
    cbn zeta in Hrun; rewrite Hrun; unfold trace at 1; cbn [snd]; try by apply Hlist.
  apply Happ; [by apply Hlist|]. apply (Happ [_]); [apply Hother; by intros []|].
  apply Happ; [|apply Hother; by intros []].
  apply (reconcile_rel (λ _ t _, T t)).
  - done.
  - intros; by apply Happ.
  - intros; apply Hother; by intros [].
  - intros; apply Hother; by intros [].
  - done.
Qed.

Lemma reconcileObject_Guarded (bucket : string) (dryRun : bool) (retentionUntil : Time)
    (hostnamePath : string) (obj : ManifestObject) (c : Client) :
  Guarded retentionUntil
          (trace (reconcileObject bucket dryRun retentionUntil hostnamePath obj c)).
Proof.
  rewrite reconcileObject_run.
  destruct (verdict _ retentionUntil) as [[] [err|]] eqn:Hverdict.
  - by repeat (apply Guarded_other; [by intros []|]); constructor.
  - destruct dryRun.
    + by repeat (apply Guarded_other; [by intros []|]); constructor.
    + unfold trace. cbn [snd].
      apply (Guarded_update _ {| ret_Bucket := bucket |}); [done|].
      by repeat (apply Guarded_other; [by intros []|]); constructor.
  - by repeat (apply Guarded_other; [by intros []|]); constructor.
  - by repeat (apply Guarded_other; [by intros []|]); constructor.
Qed.

(** The trace of [main] is guarded. *)
Lemma main_Guarded (fuel : nat) (bucket cluster : string) (retentionDays : Z) (dryRun : bool)
    (cfg : Res unit) (now : Time) (c : Client) :
  Guarded (AddDate now 0 0 retentionDays)
    (trace (main scan AddDate rangeKeys fuel bucket cluster retentionDays dryRun cfg now c)).
Proof.
  apply main_trace.
  - constructor.
  - apply Guarded_app.
  - intros e He. apply Guarded_other; [done | constructor].
  - apply reconcileObject_Guarded.
Qed.

End Driver.

(** ** The claims about the driver, for every client *)

Section Claims.

Context {Client : Type} `{!S3API Client}.
Variable scan : string → Res json.value.
Variable AddDate : Time → Z → Z → Z → Time.
Variable rangeKeys : gmap string bool → list string.

(** C6. Whatever the retention query answers: a failure that names a
    missing lock configuration or a missing object makes [checkRetention]
    return [true] with no error, as a success without expiry does; every
    other failure comes back as [false] with the error itself, and the
    driver then logs it and issues no update for the object. *)
Theorem checkRetention_classifies (bucket key : string) (requiredUntil : Time) (c : Client) :
  let query := {| ret_Bucket := bucket; ret_Key := key |} in
  let resp := (GetObjectRetention query c).1 in
  let c' := (GetObjectRetention query c).2 in
  (∀ err, resp = Err err → noLockConfiguration err ∨ noSuchKey err →
     checkRetention bucket key requiredUntil c
     = ((true, None), c', [GetObjectRetentionCall query resp]))
  ∧ (∀ err, resp = Err err → ¬ (noLockConfiguration err ∨ noSuchKey err) →
       checkRetention bucket key requiredUntil c
       = ((false, Some err), c', [GetObjectRetentionCall query resp])
       ∧ ∀ dryRun hostnamePath obj,
           objectKey hostnamePath (Path obj) = key →
           reconcileObject bucket dryRun requiredUntil hostnamePath obj c
           = (tt, c', [GetObjectRetentionCall query resp; LogLine (LogCheckError key err)]))
  ∧ (∀ out, resp = Ok out →
       checkRetention bucket key requiredUntil c
       = ((needsRetentionUpdate (queriedExpiry out) requiredUntil, None), c',
          [GetObjectRetentionCall query resp])
       ∧ (queriedExpiry out = None →
          checkRetention bucket key requiredUntil c
          = ((true, None), c', [GetObjectRetentionCall query resp]))).
Proof.
  intros query resp c'. split; [|split].
  - intros err Hresp Habsent. rewrite checkRetention_run. fold query resp c'.
    by rewrite Hresp, verdict_absent.
  - intros err Hresp Hother. split.
    + rewrite checkRetention_run. fold query resp c'. by rewrite Hresp, verdict_other.
    + intros dryRun hostnamePath obj Hkey. rewrite reconcileObject_run, Hkey.
      fold query resp c'. by rewrite Hresp, verdict_other.
  - intros out Hresp. rewrite checkRetention_run. fold query resp c'.
    rewrite Hresp. split; [done|]. intros Hnone. unfold verdict. by rewrite Hnone.
Qed.

(** C10. Every update that a run of [main] issues, whatever the flags, the
    client and the manifests, asks for the mode [GOVERNANCE], and so never
    for [COMPLIANCE]. *)
Theorem updates_use_governance (fuel : nat) (bucket cluster : string) (retentionDays : Z)
    (dryRun : bool) (cfg : Res unit) (now : Time) (c : Client)
    (update : PutObjectRetentionInput) (presp : Res unit) :
  PutObjectRetentionCall update presp
    ∈ trace (main scan AddDate rangeKeys fuel bucket cluster retentionDays dryRun cfg now c) →
  ∃ retention,
    put_Retention update = Some retention
    ∧ Mode retention = "GOVERNANCE"
    ∧ Mode retention ≠ "COMPLIANCE".
Proof.
  intros Hin. apply list_elem_of_split in Hin as (before & after & Hsplit).
  destruct (Guarded_split _ _
              (main_Guarded scan AddDate rangeKeys fuel bucket cluster retentionDays dryRun
                            cfg now c) _ _ _ _ Hsplit)
    as (_ & query & _ & _ & -> & _).
  eexists. split; [done|]. by split.
Qed.

(** Every update of a run comes right after the retention query for its
    object, which has succeeded and reported no expiry or one strictly
    before the target, or has failed for a missing lock configuration or a
    missing object; and the update asks for the target. *)
Lemma updates_are_guarded (fuel : nat) (bucket cluster : string) (retentionDays : Z)
    (dryRun : bool) (cfg : Res unit) (now : Time) (c : Client)
    (before after : list Event) (update : PutObjectRetentionInput) (presp : Res unit) :
  trace (main scan AddDate rangeKeys fuel bucket cluster retentionDays dryRun cfg now c)
  = before ++ PutObjectRetentionCall update presp :: after →
  ∃ before' query resp,
    before = before' ++ [GetObjectRetentionCall query resp]
    ∧ put_Bucket update = ret_Bucket query
    ∧ put_Key update = ret_Key query
    ∧ ((∃ out, resp = Ok out
               ∧ (queriedExpiry out = None
                  ∨ ∃ current, queriedExpiry out = Some current
                               ∧ current < AddDate now 0 0 retentionDays))
       ∨ (∃ err, resp = Err err ∧ (noLockConfiguration err ∨ noSuchKey err)))
    ∧ (put_Retention update ≫= RetainUntilDate) = Some (AddDate now 0 0 retentionDays).
Proof.
  intros Hsplit.
  destruct (Guarded_split _ _
              (main_Guarded scan AddDate rangeKeys fuel bucket cluster retentionDays dryRun
                            cfg now c) _ _ _ _ Hsplit)
    as (before' & query & resp & -> & -> & Hverdict).
  exists before', query, resp. repeat split; try done. by apply verdict_true.
Qed.

End Claims.


(** ** Error containment *)

Section Containment.

Context {Client : Type} `{!S3API Client}.
Variable scan : string → Res json.value.
Variable AddDate : Time → Z → Z → Z → Time.
Variable rangeKeys : gmap string bool → list string.

Lemma objectVisited_mono (bucket : string) (dryRun : bool) (retentionUntil : Time)
    (t t' : list Event) (key : string) :
  t ⊆ t' →
  objectVisited bucket dryRun retentionUntil t key →
  objectVisited bucket dryRun retentionUntil t' key.
Proof.
  intros Hsub (resp & Hquery & Hupdate). exists resp. split; [by apply Hsub|].
  intros Hverdict Hdry. destruct (Hupdate Hverdict Hdry) as [presp Hput].
  exists presp. by apply Hsub.
Qed.

Lemma manifestVisited_mono (bucket : string) (dryRun : bool) (retentionUntil : Time)
    (t t' : list Event) (manifestKey : string) :
  t ⊆ t' →
  manifestVisited scan bucket dryRun retentionUntil t manifestKey →
  manifestVisited scan bucket dryRun retentionUntil t' manifestKey.
Proof.
  intros Hsub (resp & Hget & Hobjects). exists resp. split; [by apply Hsub|].
  intros manifest hostnamePath Hdown Hpath obj Hobj.
  eapply objectVisited_mono; [done|]. by eapply Hobjects.
Qed.

(** One object is visited whatever its query and its update answer. *)
Lemma reconcileObject_visits (bucket : string) (dryRun : bool) (retentionUntil : Time)
    (hostnamePath : string) (obj : ManifestObject) (c : Client) :
  objectVisited bucket dryRun retentionUntil
    (trace (reconcileObject bucket dryRun retentionUntil hostnamePath obj c))
    (objectKey hostnamePath (Path obj)).
Proof.
  rewrite reconcileObject_run.
  set (query := {| ret_Bucket := bucket; ret_Key := objectKey hostnamePath (Path obj) |}).
  exists (GetObjectRetention query c).1.
  destruct (verdict _ retentionUntil) as [[] [err|]] eqn:Hverdict;
    try (split; [by left | done]).
  destruct dryRun; (split; [by left|]); [done|].
  intros _ _. eexists. right. by left.
Qed.

(** Every object of a manifest is visited, whatever happens to the others. *)
Lemma objects_visited (bucket : string) (dryRun : bool) (retentionUntil : Time)
    (hostnamePath : string) (objects : list ManifestObject) (c : Client) (obj : ManifestObject) :
  obj ∈ objects →
  objectVisited bucket dryRun retentionUntil
    (trace (forEach objects (reconcileObject bucket dryRun retentionUntil hostnamePath) c))
    (objectKey hostnamePath (Path obj)).
Proof.
  revert c. induction objects as [|obj' objects IH]; intros c Hin.
  - by apply elem_of_nil in Hin.
  - rewrite forEach_cons. unfold trace at 1. cbn [snd].
    apply elem_of_cons in Hin as [->|Hin].
    + eapply objectVisited_mono; [|apply reconcileObject_visits].
      intros e He. apply elem_of_app. by left.
    + eapply objectVisited_mono; [|by apply IH].
      intros e He. apply elem_of_app. by right.
Qed.

Lemma reconcileManifest_visits (bucket : string) (dryRun : bool) (retentionUntil : Time)
    (manifestKey : string) (c : Client) :
  manifestVisited scan bucket dryRun retentionUntil
    (trace (reconcileManifest scan bucket dryRun retentionUntil manifestKey c)) manifestKey.
Proof.
  rewrite reconcileManifest_run.
  set (params := {| get_Bucket := bucket; get_Key := manifestKey |}).
  exists (GetObject params c).1.
  destruct (downloaded scan _) as [manifest|err] eqn:Hdown.
  - destruct (extractHostnamePath manifestKey) as [hostnamePath|err] eqn:Hpath.
    + split; [right; by left|].
      intros manifest' hostnamePath' [= <-] [= <-] obj Hobj.
      eapply objectVisited_mono; [|by apply objects_visited].
      intros e He. unfold trace at 2. cbn [snd]. by do 2 right.
    + split; [right; by left | done].
  - split; [right; by left | done].
Qed.

(** Every manifest of the list is visited, whatever happens to the others. *)
Lemma manifests_visited (bucket : string) (dryRun : bool) (retentionUntil : Time)
    (manifests : list string) (c : Client) (manifestKey : string) :
  manifestKey ∈ manifests →
  manifestVisited scan bucket dryRun retentionUntil
    (trace (reconcile scan bucket dryRun retentionUntil manifests c)) manifestKey.
Proof.
  unfold reconcile. revert c. induction manifests as [|manifestKey' manifests IH]; intros c Hin.
  - by apply elem_of_nil in Hin.
  - rewrite forEach_cons. unfold trace at 1. cbn [snd].
    apply elem_of_cons in Hin as [->|Hin].
    + eapply manifestVisited_mono; [|apply reconcileManifest_visits].
      intros e He. apply elem_of_app. by left.
    + eapply manifestVisited_mono; [|by apply IH].
      intros e He. apply elem_of_app. by right.
Qed.

(** C8. With flags and configuration in order, a run of [main] ends in
    [log.Fatal] only when discovery fails on a listing page, and then has
    issued listing calls only: no manifest is requested, no object queried
    or updated.  When discovery succeeds the run ends normally and visits
    every manifest found and every object of every manifest that downloads,
    decodes and has a hostname path, whatever fails for the other manifests
    and objects. *)
Theorem error_containment (fuel : nat) (bucket cluster : string) (retentionDays : Z)
    (dryRun : bool) (now : Time) (c : Client) :
  bucket ≠ "" → cluster ≠ "" → 0 < retentionDays →
  let found := findManifests rangeKeys fuel bucket cluster c in
  let run := main scan AddDate rangeKeys fuel bucket cluster retentionDays dryRun (Ok tt) now c in
  (∀ pages err c',
     Listing bucket (cluster +:+ "/") None c pages (Some err) c' →
     (length pages < fuel)%nat →
     result found = Some (Err ("failed to list objects: " +:+ err)))
  ∧ match result found with
    | None => result run = None
    | Some (Err err) =>
        result run = Some (Fatal ("Failed to find manifests: " +:+ err))
        ∧ Forall isList (trace run)
    | Some (Ok manifests) =>
        result run = Some Done
        ∧ ∀ manifestKey, manifestKey ∈ manifests →
            manifestVisited scan bucket dryRun (AddDate now 0 0 retentionDays)
                            (trace run) manifestKey
    end.
Proof.
  intros Hbucket Hcluster Hdays found run. split.
  - intros pages err c' Hlisting Hfuel. subst found. rewrite findManifests_run.
    unfold result at 1. cbn [fst].
    destruct (listPages_Listing _ _ _ _ _ _ _ Hlisting fuel ∅) as [_ ->]; [lia | done].
  - destruct (main_cases scan AddDate rangeKeys fuel bucket cluster retentionDays dryRun
                         (Ok tt) now c) as [(Hinvalid & _)|[_ Hrun]];
      [by destruct Hinvalid|].
    fold found run in Hrun.
    pose proof (findManifests_trace rangeKeys fuel bucket cluster c) as Hlist.
    fold found in Hlist.
    destruct (result found) as [[manifests|err]|]; cbn zeta in Hrun; rewrite Hrun.
    + split; [done|]. intros manifestKey Hin.
      eapply manifestVisited_mono; [|by apply manifests_visited].
      intros e He. unfold trace at 2. cbn [snd].
      apply elem_of_app. right. right. apply elem_of_app. by left.
    + done.
    + done.
Qed.

End Containment.

(** ** Runs against the bucket in memory *)

Module Bucket_facts.
Import Bucket.

Lemma sameContent_refl (b : Bucket) : sameContent b b.
Proof. by split. Qed.

Lemma sameContent_trans (b1 b2 b3 : Bucket) :
  sameContent b1 b2 → sameContent b2 b3 → sameContent b1 b3.
Proof. intros [? H12] [? H23]. split; [congruence|]. intros key. by rewrite H12. Qed.

Lemma sameContent_dom (b b' : Bucket) : sameContent b b' → dom (Stored b) = dom (Stored b').
Proof.
  intros [_ Hdata]. apply set_eq. intros key. rewrite !elem_of_dom.
  specialize (Hdata key).
  destruct (Stored b !! key), (Stored b' !! key); try done; split; intros []; done.
Qed.

Lemma sameContent_page (b b' : Bucket) (params : ListObjectsV2Input) :
  sameContent b b' → page b params = page b' params.
Proof.
  intros Hsame. unfold page, keys.
  by rewrite (sameContent_dom _ _ Hsame), (proj1 Hsame).
Qed.

Lemma sameContent_referenced scan (b b' : Bucket) (manifestKey : string) :
  sameContent b b' → referenced scan b manifestKey = referenced scan b' manifestKey.
Proof.
  intros [_ Hdata]. unfold referenced. specialize (Hdata manifestKey).
  destruct (Stored b !! manifestKey), (Stored b' !! manifestKey); try done.
  by injection Hdata as ->.
Qed.

Lemma sameContent_lock (b : Bucket) (key : string) (o : StoredObject)
    (retention : ObjectLockRetention) :
  Stored b !! key = Some o → sameContent b (lock b key o retention).
Proof.
  intros Hkey. split; [done|]. intros key'. cbn.
  destruct (decide (key = key')) as [<-|Hne].
  - by rewrite lookup_insert_eq, Hkey.
  - by rewrite lookup_insert_ne.
Qed.

Lemma expiry_lock (b : Bucket) (key key' : string) (o : StoredObject)
    (retention : ObjectLockRetention) :
  expiry (lock b key o retention) key'
  = if decide (key = key') then RetainUntilDate retention else expiry b key'.
Proof.
  unfold expiry, lock. cbn. destruct (decide (key = key')) as [<-|Hne].
  - by rewrite lookup_insert_eq.
  - by rewrite lookup_insert_ne.
Qed.

Lemma GetObjectRetention_eq (query : GetObjectRetentionInput) (b : Bucket) :
  GetObjectRetention query b
  = (match Stored b !! ret_Key query with
     | Some o =>
         match Lock o with
         | Some retention => Ok {| Retention := Some retention |}
         | None => Err NoSuchObjectLockConfiguration
         end
     | None => Err NoSuchKey
     end, b).
Proof. reflexivity. Qed.

Lemma PutObjectRetention_eq (update : PutObjectRetentionInput) (b : Bucket) :
  PutObjectRetention update b
  = match Stored b !! put_Key update, put_Retention update with
    | Some o, Some retention => (Ok tt, lock b (put_Key update) o retention)
    | Some _, None => (Err MalformedXML, b)
    | None, _ => (Err NoSuchKey, b)
    end.
Proof. reflexivity. Qed.

Lemma GetObject_eq (params : GetObjectInput) (b : Bucket) :
  GetObject params b
  = (match Stored b !! get_Key params with
     | Some o => Ok {| Body := Ok (Data o) |}
     | None => Err NoSuchKey
     end, b).
Proof. reflexivity. Qed.

(** The bucket answers a retention query so that [checkRetention] asks for
    an update exactly when the expiry of the object is absent or before the
    required instant; the query leaves the bucket as it is. *)
Lemma query_verdict (bucket key : string) (requiredUntil : Time) (b : Bucket) :
  let query := {| ret_Bucket := bucket; ret_Key := key |} in
  (GetObjectRetention query b).2 = b
  ∧ verdict (GetObjectRetention query b).1 requiredUntil
    = (needsRetentionUpdate (expiry b key) requiredUntil, None).
Proof.
  intros query. split; [done|]. rewrite GetObjectRetention_eq. unfold expiry.
  cbn [fst ret_Key query].
  destruct (Stored b !! key) as [o|]; cbn [mbind option_bind].
  - destruct (Lock o) as [retention|]; [done|].
    apply verdict_absent. left. unfold noLockConfiguration. left.
    by exists "api error ", ": The specified object does not have a ObjectLock configuration".
  - apply verdict_absent. right. unfold noSuchKey.
    by exists "api error ", ": The specified key does not exist.".
Qed.

Lemma not_needed_protected (requiredUntil : Time) (b : Bucket) (key : string) :
  needsRetentionUpdate (expiry b key) requiredUntil = false → protected requiredUntil b key.
Proof.
  unfold protected. destruct (expiry b key) as [current|]; [|done]. cbn. unfold Before.
  intros Hge%Z.ltb_ge. by exists current.
Qed.

Lemma checked_app (t1 t2 : list Event) : checked (t1 ++ t2) = checked t1 ++ checked t2.
Proof. apply omap_app. Qed.

Lemma step_nil (dryRun : bool) (requiredUntil : Time) (b : Bucket) :
  step dryRun requiredUntil b [] b.
Proof.
  split; [apply sameContent_refl|]. split; [by left|].
  split; [intros ?? Hin; by apply elem_of_nil in Hin|].
  intros _ _ key Hin. by apply elem_of_nil in Hin.
Qed.

Lemma step_app (dryRun : bool) (requiredUntil : Time) (b : Bucket) (t1 : list Event)
    (b1 : Bucket) (t2 : list Event) (b2 : Bucket) :
  step dryRun requiredUntil b t1 b1 → step dryRun requiredUntil b1 t2 b2 →
  step dryRun requiredUntil b (t1 ++ t2) b2.
Proof.
  intros (Hsame1 & Hexp1 & Hput1 & Hdone1) (Hsame2 & Hexp2 & Hput2 & Hdone2).
  assert (Hkeep : ∀ key, protected requiredUntil b1 key → protected requiredUntil b2 key).
  { intros key (current & Hcur & Hle). destruct (Hexp2 key) as [Heq|Heq].
    - exists current. by rewrite Heq.
    - exists requiredUntil. split; [done | lia]. }
  split; [by eapply sameContent_trans|]. split; [|split].
  - intros key. destruct (Hexp2 key) as [-> | ->]; [apply Hexp1 | by right].
  - intros update presp [Hin|Hin]%elem_of_app; rewrite checked_app.
    + destruct (Hput1 _ _ Hin) as (? & ? & ?). repeat split; [done| |done].
      apply elem_of_app. by left.
    + destruct (Hput2 _ _ Hin) as (? & ? & Hneeds). repeat split; [done| |].
      * apply elem_of_app. by right.
      * destruct (Hexp1 (put_Key update)) as [Heq|Heq]; rewrite Heq in Hneeds; [done|].
        cbn in Hneeds. unfold Before in Hneeds. by rewrite Z.ltb_irrefl in Hneeds.
  - intros Hdry Hok key. rewrite checked_app. intros [Hin|Hin]%elem_of_app.
    + apply Hkeep, Hdone1; [done| |done].
      intros update presp Hput. eapply Hok, elem_of_app. by left.
    + apply Hdone2; [done| |done].
      intros update presp Hput. eapply Hok, elem_of_app. by right.
Qed.

(** An event that is neither query nor update is a step that changes
    nothing. *)
Lemma step_other (dryRun : bool) (requiredUntil : Time) (b : Bucket) (e : Event) :
  ¬ isPut e → checked [e] = [] → step dryRun requiredUntil b [e] b.
Proof.
  intros He Hchecked. split; [apply sameContent_refl|]. split; [by left|]. split.
  - intros update presp Hin%list_elem_of_singleton. subst e. by destruct He.
  - intros _ _ key. rewrite Hchecked. intros Hin. by apply elem_of_nil in Hin.
Qed.

Lemma reconcileObject_step (bucket : string) (dryRun : bool) (requiredUntil : Time)
    (hostnamePath : string) (obj : ManifestObject) (b : Bucket) :
  step dryRun requiredUntil b
       (trace (reconcileObject bucket dryRun requiredUntil hostnamePath obj b))
       (final (reconcileObject bucket dryRun requiredUntil hostnamePath obj b)).
Proof.
  rewrite reconcileObject_run.
  set (key := objectKey hostnamePath (Path obj)).
  destruct (query_verdict bucket key requiredUntil b) as [-> ->].
  set (query := {| ret_Bucket := bucket; ret_Key := key |}).
  set (resp := (GetObjectRetention query b).1).
  destruct (needsRetentionUpdate (expiry b key) requiredUntil) eqn:Hneeds.
  - destruct dryRun.
    + unfold trace, final. cbn [fst snd].
      split; [apply sameContent_refl|]. split; [by left|]. split.
      * intros update presp Hin.
        apply elem_of_cons in Hin as [[=]|Hin].
        apply list_elem_of_singleton in Hin. discriminate Hin.
      * done.
    + unfold trace, final. cbn [fst snd].
      destruct (Stored b !! key) as [o|] eqn:Hkey.
      * replace (PutObjectRetention (updateRequest bucket key requiredUntil) b)
          with (Ok tt, lock b key o {| Mode := ObjectLockRetentionModeGovernance;
                                       RetainUntilDate := Some requiredUntil |})
          by (rewrite PutObjectRetention_eq; cbn [put_Key put_Retention updateRequest];
              by rewrite Hkey).
        cbn [fst snd]. split; [by apply sameContent_lock|]. split; [|split].
        -- intros key'. rewrite expiry_lock. case_decide; [by right | by left].
        -- intros update presp Hin.
           apply elem_of_cons in Hin as [[=]|Hin].
           apply elem_of_cons in Hin as [[= -> _]|Hin].
           ++ repeat split; [by left | done].
           ++ apply list_elem_of_singleton in Hin. discriminate Hin.
        -- intros _ _ key' ->%list_elem_of_singleton.
           exists requiredUntil. rewrite expiry_lock, decide_True by done. split; [done | lia].
      * replace (PutObjectRetention (updateRequest bucket key requiredUntil) b)
          with (Err (A:=unit) NoSuchKey, b)
          by (rewrite PutObjectRetention_eq; cbn [put_Key put_Retention updateRequest];
              by rewrite Hkey).
        cbn [fst snd]. split; [apply sameContent_refl|]. split; [by left|]. split.
        -- intros update presp Hin.
           apply elem_of_cons in Hin as [[=]|Hin].
           apply elem_of_cons in Hin as [[= -> _]|Hin].
           ++ repeat split; [by left | done].
           ++ apply list_elem_of_singleton in Hin. discriminate Hin.
        -- intros _ Hok. exfalso.
           specialize (Hok (updateRequest bucket key requiredUntil) (Err NoSuchKey)).
           discriminate Hok. right. by left.
  - unfold trace, final. cbn [fst snd].
    split; [apply sameContent_refl|]. split; [by left|]. split.
    + intros update presp Hin. apply list_elem_of_singleton in Hin. discriminate Hin.
    + intros _ _ key' ->%list_elem_of_singleton. by apply not_needed_protected.
Qed.

(** The pass over the manifests is a step of the bucket. *)
Lemma reconcile_step scan (bucket : string) (dryRun : bool) (requiredUntil : Time)
    (manifests : list string) (b : Bucket) :
  step dryRun requiredUntil b
       (trace (reconcile scan bucket dryRun requiredUntil manifests b))
       (final (reconcile scan bucket dryRun requiredUntil manifests b)).
Proof.
  apply (reconcile_rel (step dryRun requiredUntil)).
  - apply step_nil.
  - apply step_app.
  - intros b' entry. apply step_other; [by intros [] | done].
  - intros b' params. apply step_other; [by intros [] | done].
  - intros. apply reconcileObject_step.
Qed.

Lemma reconcileManifest_step scan (bucket : string) (dryRun : bool) (requiredUntil : Time)
    (manifestKey : string) (b : Bucket) :
  step dryRun requiredUntil b
       (trace (reconcileManifest scan bucket dryRun requiredUntil manifestKey b))
       (final (reconcileManifest scan bucket dryRun requiredUntil manifestKey b)).
Proof.
  apply (reconcileManifest_rel (step dryRun requiredUntil)).
  - apply step_nil.
  - apply step_app.
  - intros b' entry. apply step_other; [by intros [] | done].
  - intros b' params. apply step_other; [by intros [] | done].
  - intros. apply reconcileObject_step.
Qed.

(** *** What a pass queries *)

(** The objects of a manifest are queried one by one, in order, for every
    client. *)
Lemma checked_objects {Client} `{!S3API Client} (bucket : string) (dryRun : bool)
    (requiredUntil : Time) (hostnamePath : string) (objects : list ManifestObject) (c : Client) :
  checked (trace (forEach objects (reconcileObject bucket dryRun requiredUntil hostnamePath) c))
  = objectKey hostnamePath <$> (Path <$> objects).
Proof.
  revert c. induction objects as [|obj objects IH]; intros c; [done|].
  rewrite forEach_cons. unfold trace at 1. cbn [snd].
  rewrite checked_app, IH, !fmap_cons. f_equal.
  rewrite reconcileObject_run.
  destruct (verdict _ requiredUntil) as [[] [err|]]; try done. by destruct dryRun.
Qed.

Lemma checked_reconcileManifest scan (bucket : string) (dryRun : bool) (requiredUntil : Time)
    (manifestKey : string) (b : Bucket) :
  checked (trace (reconcileManifest scan bucket dryRun requiredUntil manifestKey b))
  = referenced scan b manifestKey.
Proof.
  rewrite reconcileManifest_run, GetObject_eq. cbn [fst snd get_Key]. unfold referenced.
  destruct (Stored b !! manifestKey) as [o|]; cbn [downloaded Body]; [|done].
  destruct (parseManifest scan (Data o)) as [manifest|err]; [|done].
  destruct (extractHostnamePath manifestKey) as [hostnamePath|err]; [|done].
  cbn zeta. unfold trace at 1. cbn [snd checked omap].
  apply checked_objects.
Qed.

Lemma checked_reconcile scan (bucket : string) (dryRun : bool) (requiredUntil : Time)
    (manifests : list string) (b : Bucket) :
  checked (trace (reconcile scan bucket dryRun requiredUntil manifests b))
  = concat (referenced scan b <$> manifests).
Proof.
  unfold reconcile. revert b. induction manifests as [|manifestKey manifests IH]; intros b.
  - done.
  - rewrite forEach_cons. unfold trace at 1. cbn [snd].
    rewrite checked_app, checked_reconcileManifest, IH, fmap_cons. cbn [concat]. f_equal.
    f_equal. apply list_fmap_ext. intros _ manifestKey' _.
    symmetry. apply sameContent_referenced.
    apply (reconcileManifest_step scan bucket dryRun requiredUntil manifestKey b).
Qed.

(** *** Listing the bucket *)

Lemma ListObjectsV2_eq (params : ListObjectsV2Input) (b : Bucket) :
  ListObjectsV2 params b = (Ok (page b params), b).
Proof. reflexivity. Qed.

(** Listing leaves the bucket as it is, and buckets of the same content
    list the same. *)
Lemma listPages_bucket (fuel : nat) (bucket prefix : string) (token : option string)
    (backupPaths : gmap string bool) (b b' : Bucket) :
  sameContent b b' →
  final (listPages fuel bucket prefix token backupPaths b) = b
  ∧ result (listPages fuel bucket prefix token backupPaths b)
    = result (listPages fuel bucket prefix token backupPaths b').
Proof.
  intros Hsame. revert token backupPaths.
  induction fuel as [|fuel IH]; intros token backupPaths; [done|].
  rewrite !listPages_S, !ListObjectsV2_eq. cbn [fst snd].
  rewrite <-(sameContent_page b b') by done.
  destruct (ToBool _); [|done]. cbn zeta. unfold final at 1, result at 1 3. cbn [fst snd].
  apply IH.
Qed.

Lemma findManifests_bucket (rangeKeys : gmap string bool → list string) (fuel : nat)
    (bucket cluster : string) (b : Bucket) :
  final (findManifests rangeKeys fuel bucket cluster b) = b.
Proof.
  rewrite findManifests_run. unfold final at 1. cbn [fst snd].
  by apply (listPages_bucket fuel bucket (cluster +:+ "/") None ∅ b b), sameContent_refl.
Qed.

(** The updates of a run of [main] are updates of its pass over the
    manifests found, which starts from the bucket as it was. *)
Lemma main_updates scan AddDate rangeKeys (fuel : nat) (bucket cluster : string)
    (retentionDays : Z) (dryRun : bool) (cfg : Res unit) (now : Time) (b : Bucket)
    (update : PutObjectRetentionInput) (presp : Res unit) :
  PutObjectRetentionCall update presp
    ∈ trace (main scan AddDate rangeKeys fuel bucket cluster retentionDays dryRun cfg now b) →
  validFlags bucket cluster retentionDays cfg
  ∧ ∃ manifests,
      result (findManifests rangeKeys fuel bucket cluster b) = Some (Ok manifests)
      ∧ PutObjectRetentionCall update presp
        ∈ trace (reconcile scan bucket dryRun (AddDate now 0 0 retentionDays) manifests b).
Proof.
  intros Hin.
  pose proof (findManifests_trace rangeKeys fuel bucket cluster b) as Hlist.
  assert (Hnot : PutObjectRetentionCall update presp
                 ∉ trace (findManifests rangeKeys fuel bucket cluster b)).
  { intros Hfound. rewrite Forall_forall in Hlist. destruct (Hlist _ Hfound). }
  destruct (main_cases scan AddDate rangeKeys fuel bucket cluster retentionDays dryRun cfg now b)
    as [(_ & Hnil & _)|[Hvalid Hrun]].
  { rewrite Hnil in Hin. by apply elem_of_nil in Hin. }
  split; [done|].
  rewrite findManifests_bucket in Hrun.
  destruct (result (findManifests rangeKeys fuel bucket cluster b)) as [[manifests|err]|];
    cbn zeta in Hrun; rewrite Hrun in Hin; unfold trace at 1 in Hin; cbn [snd] in Hin;
    try done.
  exists manifests. split; [done|].
  apply elem_of_app in Hin as [?|Hin]; [done|].
  apply elem_of_cons in Hin as [[=]|Hin].
  apply elem_of_app in Hin as [?|Hin]; [done|].
  apply list_elem_of_singleton in Hin. discriminate Hin.
Qed.

(** On the bucket, an update asks for the target and bears on an object
    whose expiry before the run was absent or before the target. *)
Lemma main_extends scan AddDate rangeKeys (fuel : nat) (bucket cluster : string)
    (retentionDays : Z) (dryRun : bool) (cfg : Res unit) (now : Time) (b : Bucket)
    (update : PutObjectRetentionInput) (presp : Res unit) :
  PutObjectRetentionCall update presp
    ∈ trace (main scan AddDate rangeKeys fuel bucket cluster retentionDays dryRun cfg now b) →
  (put_Retention update ≫= RetainUntilDate) = Some (AddDate now 0 0 retentionDays)
  ∧ ∀ current, expiry b (put_Key update) = Some current →
               current ≤ AddDate now 0 0 retentionDays.
Proof.
  intros Hin. split.
  - apply list_elem_of_split in Hin as (before & after & Hsplit).
    by destruct (updates_are_guarded _ _ _ _ _ _ _ _ _ _ _ _ _ _ _ Hsplit)
      as (_ & _ & _ & _ & _ & _ & _ & ?).
  - apply main_updates in Hin as (_ & manifests & _ & Hin).
    destruct (reconcile_step scan bucket dryRun (AddDate now 0 0 retentionDays) manifests b)
      as (_ & _ & Hput & _).
    destruct (Hput _ _ Hin) as (_ & _ & Hneeds).
    intros current Hcurrent. rewrite Hcurrent in Hneeds. cbn in Hneeds.
    unfold Before in Hneeds. apply Z.ltb_lt in Hneeds. lia.
Qed.

(** *** Listing the bucket comes to an end *)

Lemma after_fresh (key : string) (l1 l2 : list string) :
  key ∉ l1 → after key (l1 ++ key :: l2) = l2.
Proof.
  induction l1 as [|key' l1 IH]; intros Hfresh; cbn [app after].
  - by rewrite decide_True.
  - apply not_elem_of_cons in Hfresh as [Hne Hfresh].
    rewrite decide_False by done. by apply IH.
Qed.

Lemma keys_NoDup (b : Bucket) (prefix : string) : NoDup (keys b prefix).
Proof.
  unfold keys. apply NoDup_filter. rewrite merge_sort_Permutation. apply NoDup_elements.
Qed.

(** From any point of the sorted keys on, the pages that remain form a
    listing that ends, of no more pages than keys remain, plus one. *)
Lemma Listing_rest (b : Bucket) (bucket prefix : string) (n : nat) :
  ∀ (before rest : list string) (token : option string),
    keys b prefix = before ++ rest →
    (length rest ≤ n)%nat →
    match token with
    | None => keys b prefix
    | Some key => after key (keys b prefix)
    end = rest →
    ∃ pages, Listing bucket prefix token b pages None b ∧ (length pages ≤ S n)%nat.
Proof.
  induction n as [|n IH]; intros before rest token Hkeys Hlen Hrest.
  - destruct rest; [|cbn in Hlen; lia].
    set (params := {| list_Bucket := bucket; list_Prefix := prefix;
                      ContinuationToken := token |}).
    exists [page b params]. split; [|cbn; lia].
    apply Listing_last; [done|]. unfold page. cbn [ContinuationToken list_Prefix params].
    rewrite Hrest. by rewrite drop_nil.
  - set (params := {| list_Bucket := bucket; list_Prefix := prefix;
                      ContinuationToken := token |}).
    set (size := Nat.max 1 (MaxKeys b)).
    destruct (decide (drop size rest = [])) as [Hlast|Hmore].
    + exists [page b params]. split; [|cbn; lia].
      apply Listing_last; [done|]. unfold page. cbn [ContinuationToken list_Prefix params].
      rewrite Hrest. fold size. by rewrite Hlast.
    + assert (Htruncated : ToBool (IsTruncated (page b params)) = true).
      { unfold page. cbn [ContinuationToken list_Prefix params]. rewrite Hrest. fold size.
        cbn. by rewrite bool_decide_eq_true_2. }
      assert (Hnext : NextContinuationToken (page b params) = last (take size rest)).
      { unfold page. cbn [ContinuationToken list_Prefix params]. rewrite Hrest. fold size.
        cbn. by rewrite bool_decide_eq_true_2. }
      assert (Hsize : (1 ≤ size)%nat) by (unfold size; lia).
      destruct (take size rest) as [|key0 taken0] eqn:Htake using rev_ind.
      { apply (f_equal length) in Htake. rewrite length_take in Htake.
        destruct rest; [by rewrite drop_nil in Hmore | cbn in Htake; lia]. }
      clear IHtaken0. rename key0 into key, taken0 into taken.
      rewrite last_snoc in Hnext.
      assert (Hall : keys b prefix = (before ++ taken) ++ key :: drop size rest).
      { rewrite Hkeys. rewrite <-(take_drop size rest) at 1. rewrite Htake.
        by rewrite <-!app_assoc. }
      destruct (IH (before ++ taken ++ [key]) (drop size rest) (Some key))
        as (pages & Hpages & Hcount).
      * rewrite Hall. by rewrite <-!app_assoc.
      * rewrite length_drop. lia.
      * rewrite Hall. apply after_fresh.
        pose proof (keys_NoDup b prefix) as Hnodup. rewrite Hall in Hnodup.
        apply NoDup_app in Hnodup as (_ & Hdisjoint & _).
        intros Hin. apply (Hdisjoint key Hin). by left.
      * exists (page b params :: pages). split; [|cbn; lia].
        eapply Listing_more; [done | done |]. by rewrite Hnext.
Qed.

(** The listing of the bucket ends within one page per key, plus one. *)
Lemma Listing_bucket (b : Bucket) (bucket prefix : string) :
  ∃ pages,
    Listing bucket prefix None b pages None b
    ∧ (length pages ≤ S (length (keys b prefix)))%nat.
Proof. by apply (Listing_rest b bucket prefix _ [] (keys b prefix) None). Qed.

(** With fuel for one page per key and one more, [main] returns. *)
Lemma main_returns scan AddDate rangeKeys (fuel : nat) (bucket cluster : string)
    (retentionDays : Z) (dryRun : bool) (cfg : Res unit) (now : Time) (b : Bucket) :
  validFlags bucket cluster retentionDays cfg →
  (length (keys b (cluster +:+ "/")) < fuel)%nat →
  result (main scan AddDate rangeKeys fuel bucket cluster retentionDays dryRun cfg now b)
  = Some Done.
Proof.
  intros (Hbucket & Hcluster & Hdays & Hcfg) Hfuel.
  destruct (Listing_bucket b bucket (cluster +:+ "/")) as (pages & Hlisting & Hpages).
  destruct (listPages_Listing _ _ _ _ _ _ _ Hlisting fuel ∅) as (_ & found & Hfound & _);
    [lia|].
  assert (Hresult : result (findManifests rangeKeys fuel bucket cluster b)
                    = Some (Ok (rangeKeys found))).
  { rewrite findManifests_run. unfold result at 1. cbn [fst]. by rewrite Hfound. }
  rewrite main_result, Hresult.
  unfold exitOf. rewrite !bool_decide_eq_false_2 by (done || lia). cbn.
  by destruct cfg.
Qed.

(** *** Two passes *)

Lemma checked_reconcile_elem scan (bucket : string) (dryRun : bool) (requiredUntil : Time)
    (manifests : list string) (b : Bucket) (key : string) :
  key ∈ checked (trace (reconcile scan bucket dryRun requiredUntil manifests b)) ↔
  ∃ manifestKey, manifestKey ∈ manifests ∧ key ∈ referenced scan b manifestKey.
Proof.
  rewrite checked_reconcile, list_elem_of_In, in_concat. split.
  - intros (keys & Hkeys & Hkey). apply list_elem_of_In, list_elem_of_fmap in Hkeys.
    destruct Hkeys as (manifestKey & -> & Hin). exists manifestKey.
    split; [done|]. by apply list_elem_of_In.
  - intros (manifestKey & Hin & Hkey). exists (referenced scan b manifestKey). split.
    + apply list_elem_of_In, list_elem_of_fmap. by exists manifestKey.
    + by apply list_elem_of_In.
Qed.

(** A run of [main] leaves the contents of the bucket as they are. *)
Lemma main_sameContent scan AddDate rangeKeys (fuel : nat) (bucket cluster : string)
    (retentionDays : Z) (dryRun : bool) (cfg : Res unit) (now : Time) (b : Bucket) :
  sameContent b
    (final (main scan AddDate rangeKeys fuel bucket cluster retentionDays dryRun cfg now b)).
Proof.
  destruct (main_cases scan AddDate rangeKeys fuel bucket cluster retentionDays dryRun cfg now b)
    as [(_ & _ & -> & _)|[_ Hrun]]; [apply sameContent_refl|].
  rewrite findManifests_bucket in Hrun.
  destruct (result (findManifests rangeKeys fuel bucket cluster b)) as [[manifests|err]|];
    cbn zeta in Hrun; rewrite Hrun; unfold final at 1; cbn [fst snd];
    try apply sameContent_refl.
  apply (reconcile_step scan bucket dryRun (AddDate now 0 0 retentionDays) manifests b).
Qed.

(** What discovery finds depends on the contents of the bucket alone, up
    to the order of the keys. *)
Lemma findManifests_sameContent rangeKeys1 rangeKeys2 (fuel : nat) (bucket cluster : string)
    (b b' : Bucket) :
  (∀ m, rangeKeys1 m ≡ₚ (map_to_list m).*1) →
  (∀ m, rangeKeys2 m ≡ₚ (map_to_list m).*1) →
  sameContent b b' →
  match result (findManifests rangeKeys1 fuel bucket cluster b),
        result (findManifests rangeKeys2 fuel bucket cluster b') with
  | None, None => True
  | Some (Err err), Some (Err err') => err = err'
  | Some (Ok manifests), Some (Ok manifests') => manifests ≡ₚ manifests'
  | _, _ => False
  end.
Proof.
  intros Hperm1 Hperm2 Hsame. rewrite !findManifests_run. unfold result at 1 3. cbn [fst].
  destruct (listPages_bucket fuel bucket (cluster +:+ "/") None ∅ b b' Hsame) as [_ <-].
  destruct (result (listPages fuel bucket (cluster +:+ "/") None ∅ b))
    as [[backupPaths|err]|]; try done.
  by rewrite Hperm1, Hperm2.
Qed.

End Bucket_facts.

(** ** Runs against a store *)

Section Stores.

Context {Client : Type} `{!S3API Client}.
Variable scan : string → Res json.value.
Variable AddDate : Time → Z → Z → Z → Time.
Variable bucket : string.
Variable expiryOf : Client → string → option Time.

(** The updates of a run of [main] are updates of its pass over the
    manifests found. *)
Lemma main_pass_updates (rangeKeys : gmap string bool → list string) (fuel : nat)
    (cluster : string) (retentionDays : Z) (dryRun : bool) (cfg : Res unit) (now : Time)
    (c : Client) (update : PutObjectRetentionInput) (presp : Res unit) :
  let found := findManifests rangeKeys fuel bucket cluster c in
  PutObjectRetentionCall update presp
    ∈ trace (main scan AddDate rangeKeys fuel bucket cluster retentionDays dryRun cfg now c) →
  validFlags bucket cluster retentionDays cfg
  ∧ ∃ manifests,
      result found = Some (Ok manifests)
      ∧ PutObjectRetentionCall update presp
        ∈ trace (reconcile scan bucket dryRun (AddDate now 0 0 retentionDays) manifests
                           (final found)).
Proof.
  intros found Hin.
  pose proof (findManifests_trace rangeKeys fuel bucket cluster c) as Hlist.
  assert (Hnot : PutObjectRetentionCall update presp ∉ trace found).
  { intros Hfound. rewrite Forall_forall in Hlist. destruct (Hlist _ Hfound). }
  destruct (main_cases scan AddDate rangeKeys fuel bucket cluster retentionDays dryRun cfg now c)
    as [(_ & Hnil & _)|[Hvalid Hrun]].
  { rewrite Hnil in Hin. by apply elem_of_nil in Hin. }
  split; [done|]. fold found in Hrun.
  destruct (result found) as [[manifests|err]|];
    cbn zeta in Hrun; rewrite Hrun in Hin; unfold trace at 1 in Hin; cbn [snd] in Hin;
    try done.
  exists manifests. split; [done|].
  apply elem_of_app in Hin as [?|Hin]; [done|].
  apply elem_of_cons in Hin as [[=]|Hin].
  apply elem_of_app in Hin as [?|Hin]; [done|].
  apply list_elem_of_singleton in Hin. discriminate Hin.
Qed.

(** *** What a run does to the expiries of a truthful store *)

Section Expiries.

Hypothesis store : Truthful bucket expiryOf.
Variable requiredUntil : Time.

Lemma extends_nil (c : Client) : extends expiryOf requiredUntil c [] c.
Proof. split; [by left|]. intros ?? Hin. by apply elem_of_nil in Hin. Qed.

Lemma extends_app (c : Client) (t1 : list Event) (c1 : Client) (t2 : list Event)
    (c2 : Client) :
  extends expiryOf requiredUntil c t1 c1 → extends expiryOf requiredUntil c1 t2 c2 →
  extends expiryOf requiredUntil c (t1 ++ t2) c2.
Proof.
  intros [Hexp1 Hput1] [Hexp2 Hput2].
  assert (Hback : ∀ key, below expiryOf requiredUntil c1 key →
                         below expiryOf requiredUntil c key).
  { intros key Hbelow. destruct (Hexp1 key) as [Heq|?]; [|done].
    intros current Hcurrent. apply Hbelow. by rewrite Heq. }
  split.
  - intros key. destruct (Hexp2 key) as [->|?]; [apply Hexp1|]. right. by apply Hback.
  - intros update presp [Hin|Hin]%elem_of_app; [by eapply Hput1|].
    eapply Hback, Hput2, Hin.
Qed.

(** A call that is no update leaves the expiries as they are. *)
Lemma extends_read (c : Client) (e : Event) (c' : Client) :
  ¬ isPut e → (∀ key, expiryOf c' key = expiryOf c key) →
  extends expiryOf requiredUntil c [e] c'.
Proof.
  intros He Hsame. split; [by left|].
  intros update presp Hin%list_elem_of_singleton. subst e. by destruct He.
Qed.

(** When [checkRetention] says yes, the expiry held is absent or before the
    required instant. *)
Lemma verdict_below (key : string) (c : Client) :
  verdict (GetObjectRetention {| ret_Bucket := bucket; ret_Key := key |} c).1 requiredUntil
  = (true, None) →
  below expiryOf requiredUntil c key.
Proof.
  set (query := {| ret_Bucket := bucket; ret_Key := key |}).
  intros [(out & Hresp & Hlow)|(err & Hresp & Habsent)]%verdict_true current Hcurrent.
  - rewrite (query_reports _ _ store query c out eq_refl Hresp) in Hlow.
    cbn [ret_Key query] in Hlow. rewrite Hcurrent in Hlow.
    destruct Hlow as [?|(current' & [= <-] & ?)]; done.
  - pose proof (query_absent _ _ store query c err eq_refl Hresp Habsent) as Hnone.
    cbn [ret_Key query] in Hnone. congruence.
Qed.

Lemma reconcileObject_extends (dryRun : bool) (hostnamePath : string) (obj : ManifestObject)
    (c : Client) :
  extends expiryOf requiredUntil c
          (trace (reconcileObject bucket dryRun requiredUntil hostnamePath obj c))
          (final (reconcileObject bucket dryRun requiredUntil hostnamePath obj c)).
Proof.
  rewrite reconcileObject_run.
  set (key := objectKey hostnamePath (Path obj)).
  set (query := {| ret_Bucket := bucket; ret_Key := key |}).
  pose proof (query_keeps_expiry _ _ store query c) as Hquery.
  specialize (λ key, Hquery key eq_refl).
  assert (Hquiet : ∀ entries,
            Forall (λ e, ¬ isPut e) entries →
            extends expiryOf requiredUntil c
                    (GetObjectRetentionCall query (GetObjectRetention query c).1 :: entries)
                    (GetObjectRetention query c).2).
  { intros entries Hentries. split; [by left; rewrite Hquery|].
    intros update presp Hin. apply elem_of_cons in Hin as [[=]|Hin].
    rewrite Forall_forall in Hentries. by destruct (Hentries _ Hin). }
  destruct (verdict _ requiredUntil) as [[] [err|]] eqn:Hverdict;
    unfold trace, final; cbn [fst snd].
  - apply Hquiet. (constructor; [by intros []|constructor]).
  - destruct dryRun; [apply Hquiet; (constructor; [by intros []|constructor])|].
    unfold trace, final. cbn [fst snd].
    apply verdict_below in Hverdict.
    set (update := updateRequest bucket key requiredUntil).
    split.
    + intros key'. destruct (decide (key' = key)) as [->|Hne]; [by right|]. left.
      rewrite (update_elsewhere _ _ store update) by done. apply Hquery.
    + intros update' presp Hin.
      apply elem_of_cons in Hin as [[=]|Hin].
      apply elem_of_cons in Hin as [[= -> _]|Hin]; [done|].
      apply list_elem_of_singleton in Hin. discriminate Hin.
  - apply Hquiet. (constructor; [by intros []|constructor]).
  - apply Hquiet. constructor.
Qed.

Lemma reconcile_extends (dryRun : bool) (manifests : list string) (c : Client) :
  extends expiryOf requiredUntil c
          (trace (reconcile scan bucket dryRun requiredUntil manifests c))
          (final (reconcile scan bucket dryRun requiredUntil manifests c)).
Proof.
  apply (reconcile_rel (extends expiryOf requiredUntil)).
  - apply extends_nil.
  - apply extends_app.
  - intros c' entry. by apply extends_read; [intros []|].
  - intros c' key params. apply extends_read; [by intros []|].
    intros key'. by apply (get_keeps_expiry _ _ store).
  - intros. apply reconcileObject_extends.
Qed.

(** Listing leaves the expiries as they are. *)
Lemma listPages_expiry (fuel : nat) (prefix : string) (token : option string)
    (backupPaths : gmap string bool) (c : Client) (key : string) :
  expiryOf (final (listPages fuel bucket prefix token backupPaths c)) key = expiryOf c key.
Proof.
  revert token backupPaths c. induction fuel as [|fuel IH]; intros token backupPaths c; [done|].
  rewrite listPages_S.
  set (params := {| list_Bucket := bucket; list_Prefix := prefix;
                    ContinuationToken := token |}).
  pose proof (list_keeps_expiry _ _ store params c key eq_refl) as Hlist.
  destruct (ListObjectsV2 params c).1 as [resp|err]; [|done].
  destruct (ToBool (IsTruncated resp)); [|done].
  cbn zeta. unfold final at 1. cbn [fst snd]. by rewrite IH.
Qed.

(** On a truthful store every update of a run asks for more than the
    object had before the run. *)
Lemma main_raises (rangeKeys : gmap string bool → list string) (fuel : nat)
    (cluster : string) (retentionDays : Z) (dryRun : bool) (cfg : Res unit) (now : Time)
    (c : Client) (update : PutObjectRetentionInput) (presp : Res unit) :
  requiredUntil = AddDate now 0 0 retentionDays →
  PutObjectRetentionCall update presp
    ∈ trace (main scan AddDate rangeKeys fuel bucket cluster retentionDays dryRun cfg now c) →
  below expiryOf requiredUntil c (put_Key update).
Proof.
  intros Htarget Hin. apply main_pass_updates in Hin as (_ & manifests & _ & Hin).
  rewrite <-Htarget in Hin.
  destruct (reconcile_extends dryRun manifests
              (final (findManifests rangeKeys fuel bucket cluster c))) as [_ Hput].
  specialize (Hput _ _ Hin).
  intros current Hcurrent. apply Hput.
  rewrite findManifests_run. unfold final at 1. cbn [fst snd].
  by rewrite listPages_expiry.
Qed.

End Expiries.

(** *** Two passes over a settled store *)

Section Passes.

Variable kept : Time → Time.
Hypothesis store : Settled bucket expiryOf kept.
Variable requiredUntil : Time.
Hypothesis requiredUntil_kept : requiredUntil ≤ kept requiredUntil.

Lemma alike_refl (c : Client) : alike bucket c c.
Proof. by split. Qed.

Lemma alike_trans (c1 c2 c3 : Client) :
  alike bucket c1 c2 → alike bucket c2 c3 → alike bucket c1 c3.
Proof.
  intros [Hlist1 Hget1] [Hlist2 Hget2]. split; intros params Hbucket.
  - by rewrite Hlist2, Hlist1.
  - by rewrite Hget2, Hget1.
Qed.

Lemma named_alike (c c' : Client) (manifestKey : string) :
  alike bucket c c' → named bucket scan c' manifestKey = named bucket scan c manifestKey.
Proof. intros [_ Hget]. unfold named. by rewrite Hget. Qed.

(** The keys a pass queries for a manifest are the keys the manifest
    names. *)
Lemma checked_reconcileManifest_named (dryRun : bool) (manifestKey : string) (c : Client) :
  checked (trace (reconcileManifest scan bucket dryRun requiredUntil manifestKey c))
  = named bucket scan c manifestKey.
Proof.
  rewrite reconcileManifest_run. unfold named.
  destruct (downloaded scan _) as [manifest|err]; [|done].
  destruct (extractHostnamePath manifestKey) as [hostnamePath|err]; [|done].
  cbn zeta. unfold trace at 1. cbn [snd checked omap].
  apply Bucket_facts.checked_objects.
Qed.

Lemma settles_nil (dryRun : bool) (c : Client) : settles bucket dryRun requiredUntil c [] c.
Proof.
  split; [apply alike_refl|]. split; [done|].
  intros _ _ key Hin. by apply elem_of_nil in Hin.
Qed.

Lemma settles_app (dryRun : bool) (c : Client) (t1 : list Event) (c1 : Client)
    (t2 : list Event) (c2 : Client) :
  settles bucket dryRun requiredUntil c t1 c1 → settles bucket dryRun requiredUntil c1 t2 c2 →
  settles bucket dryRun requiredUntil c (t1 ++ t2) c2.
Proof.
  intros (Halike1 & Hkeep1 & Hdone1) (Halike2 & Hkeep2 & Hdone2).
  split; [by eapply alike_trans|]. split; [by auto|].
  intros Hdry Hok key. rewrite Bucket_facts.checked_app. intros [Hin|Hin]%elem_of_app.
  - apply Hkeep2, Hdone1; [done| |done].
    intros update presp Hput. eapply Hok, elem_of_app. by left.
  - apply Hdone2; [done| |done].
    intros update presp Hput. eapply Hok, elem_of_app. by right.
Qed.

Lemma settles_read (dryRun : bool) (c : Client) (e : Event) :
  checked [e] = [] → settles bucket dryRun requiredUntil c [e] c.
Proof.
  intros Hchecked. split; [apply alike_refl|]. split; [done|].
  intros _ _ key. rewrite Hchecked. intros Hin. by apply elem_of_nil in Hin.
Qed.

(** After an update to the required instant has succeeded, the object is
    settled. *)
Lemma updated_settled (key : string) (c : Client) :
  let update := updateRequest bucket key requiredUntil in
  (PutObjectRetention update c).1 = Ok tt →
  settled bucket requiredUntil (PutObjectRetention update c).2 key.
Proof.
  intros update Hok. pose proof (update_kept _ _ _ store key requiredUntil c Hok) as Hkept.
  fold update in Hkept. set (c' := (PutObjectRetention update c).2) in *.
  set (query := {| ret_Bucket := bucket; ret_Key := key |}).
  unfold settled. fold query.
  intros [(out & Hresp & Hlow)|(err & Hresp & Habsent)]%verdict_true.
  - rewrite (query_reports _ _ (store_truthful _ _ _ store) query c' out eq_refl Hresp) in Hlow.
    cbn [ret_Key query] in Hlow. rewrite Hkept in Hlow.
    destruct Hlow as [?|(current & [= <-] & ?)]; [done | lia].
  - pose proof (query_absent _ _ (store_truthful _ _ _ store) query c' err eq_refl Hresp
                             Habsent) as Hnone.
    cbn [ret_Key query] in Hnone. congruence.
Qed.

Lemma reconcileObject_settles (dryRun : bool) (hostnamePath : string) (obj : ManifestObject)
    (c : Client) :
  settles bucket dryRun requiredUntil c
          (trace (reconcileObject bucket dryRun requiredUntil hostnamePath obj c))
          (final (reconcileObject bucket dryRun requiredUntil hostnamePath obj c)).
Proof.
  rewrite reconcileObject_run.
  set (key := objectKey hostnamePath (Path obj)).
  set (query := {| ret_Bucket := bucket; ret_Key := key |}).
  rewrite (query_keeps _ _ _ store query c eq_refl).
  assert (Hquiet : ∀ entries,
            verdict (GetObjectRetention query c).1 requiredUntil ≠ (true, None) →
            settles bucket dryRun requiredUntil c
                    (GetObjectRetentionCall query (GetObjectRetention query c).1
                     :: (LogLine <$> entries)) c).
  { intros entries Hverdict. split; [apply alike_refl|]. split; [done|].
    intros _ _ key'.
    replace (checked (GetObjectRetentionCall query (GetObjectRetention query c).1
                      :: (LogLine <$> entries))) with [key]
      by (cbn; f_equal; induction entries; [done|by cbn]).
    by intros ->%list_elem_of_singleton. }
  destruct (verdict _ requiredUntil) as [[] [err|]] eqn:Hverdict;
    unfold trace, final; cbn [fst snd].
  - by apply (Hquiet [_]).
  - destruct dryRun.
    { split; [apply alike_refl|]. by split. }
    unfold trace, final. cbn [fst snd].
    set (update := updateRequest bucket key requiredUntil).
    split; [|split].
    + split; intros params Hbucket.
      * by apply (update_lists _ _ _ store).
      * by apply (update_gets _ _ _ store).
    + intros key' Hsettled. destruct (decide (key' = key)) as [->|Hne]; [done|].
      unfold settled. by rewrite (update_queries _ _ _ store).
    + intros _ Hok key' Hin. cbn in Hin. apply list_elem_of_singleton in Hin as ->.
      apply updated_settled, (Hok update). right. by left.
  - by apply (Hquiet [_]).
  - by apply (Hquiet []).
Qed.

Lemma reconcile_settles (dryRun : bool) (manifests : list string) (c : Client) :
  settles bucket dryRun requiredUntil c
          (trace (reconcile scan bucket dryRun requiredUntil manifests c))
          (final (reconcile scan bucket dryRun requiredUntil manifests c)).
Proof.
  apply (reconcile_rel (settles bucket dryRun requiredUntil)).
  - apply settles_nil.
  - apply settles_app.
  - intros c' entry. by apply settles_read.
  - intros c' key params. rewrite (get_keeps _ _ _ store params c' eq_refl).
    by apply settles_read.
  - intros. apply reconcileObject_settles.
Qed.

Lemma reconcileManifest_settles (dryRun : bool) (manifestKey : string) (c : Client) :
  settles bucket dryRun requiredUntil c
          (trace (reconcileManifest scan bucket dryRun requiredUntil manifestKey c))
          (final (reconcileManifest scan bucket dryRun requiredUntil manifestKey c)).
Proof.
  apply (reconcileManifest_rel (settles bucket dryRun requiredUntil)).
  - apply settles_nil.
  - apply settles_app.
  - intros c' entry. by apply settles_read.
  - intros c' key params. rewrite (get_keeps _ _ _ store params c' eq_refl).
    by apply settles_read.
  - intros. apply reconcileObject_settles.
Qed.

(** The keys a pass queries are the keys its manifests name. *)
Lemma checked_reconcile_named (dryRun : bool) (manifests : list string) (c : Client) :
  checked (trace (reconcile scan bucket dryRun requiredUntil manifests c))
  = concat (named bucket scan c <$> manifests).
Proof.
  unfold reconcile. revert c. induction manifests as [|manifestKey manifests IH]; intros c.
  - done.
  - rewrite forEach_cons. unfold trace at 1. cbn [snd].
    rewrite Bucket_facts.checked_app, checked_reconcileManifest_named, IH, fmap_cons.
    cbn [concat]. f_equal. f_equal. apply list_fmap_ext. intros _ manifestKey' _.
    apply named_alike.
    by destruct (reconcileManifest_settles dryRun manifestKey c) as [Halike _].
Qed.

Lemma rests_nil (dryRun : bool) (c : Client) : rests bucket dryRun requiredUntil c [] c.
Proof. intros _. split; [done|]. intros e Hin. by apply elem_of_nil in Hin. Qed.

Lemma rests_app (dryRun : bool) (c : Client) (t1 : list Event) (c1 : Client)
    (t2 : list Event) (c2 : Client) :
  rests bucket dryRun requiredUntil c t1 c1 → rests bucket dryRun requiredUntil c1 t2 c2 →
  rests bucket dryRun requiredUntil c (t1 ++ t2) c2.
Proof.
  intros Hrest1 Hrest2 Hsettled.
  destruct Hrest1 as [-> Hno1].
  { intros Hdry key Hin. apply Hsettled; [done|].
    rewrite Bucket_facts.checked_app. apply elem_of_app. by left. }
  destruct Hrest2 as [-> Hno2].
  { intros Hdry key Hin. apply Hsettled; [done|].
    rewrite Bucket_facts.checked_app. apply elem_of_app. by right. }
  split; [done|]. intros e [Hin|Hin]%elem_of_app; auto.
Qed.

Lemma rests_read (dryRun : bool) (c : Client) (e : Event) :
  ¬ isPut e → rests bucket dryRun requiredUntil c [e] c.
Proof. intros He _. split; [done|]. by intros e' ->%list_elem_of_singleton. Qed.

Lemma reconcileObject_rests (dryRun : bool) (hostnamePath : string) (obj : ManifestObject)
    (c : Client) :
  rests bucket dryRun requiredUntil c
        (trace (reconcileObject bucket dryRun requiredUntil hostnamePath obj c))
        (final (reconcileObject bucket dryRun requiredUntil hostnamePath obj c)).
Proof.
  rewrite reconcileObject_run.
  set (key := objectKey hostnamePath (Path obj)).
  set (query := {| ret_Bucket := bucket; ret_Key := key |}).
  rewrite (query_keeps _ _ _ store query c eq_refl).
  assert (Hquiet : ∀ entries,
            rests bucket dryRun requiredUntil c
                  (GetObjectRetentionCall query (GetObjectRetention query c).1
                   :: (LogLine <$> entries)) c).
  { intros entries _. split; [done|]. intros e Hin.
    apply elem_of_cons in Hin as [->|Hin]; [by intros []|].
    apply list_elem_of_fmap in Hin as (entry & -> & _). by intros []. }
  destruct (verdict _ requiredUntil) as [[] [err|]] eqn:Hverdict;
    unfold trace, final; cbn [fst snd].
  - apply (Hquiet [_]).
  - destruct dryRun; [apply (Hquiet [_])|].
    unfold trace, final. cbn [fst snd].
    intros Hsettled. destruct (Hsettled eq_refl key); [by left | done].
  - apply (Hquiet [_]).
  - apply (Hquiet []).
Qed.

Lemma reconcile_rests (dryRun : bool) (manifests : list string) (c : Client) :
  rests bucket dryRun requiredUntil c
        (trace (reconcile scan bucket dryRun requiredUntil manifests c))
        (final (reconcile scan bucket dryRun requiredUntil manifests c)).
Proof.
  apply (reconcile_rel (rests bucket dryRun requiredUntil)).
  - apply rests_nil.
  - apply rests_app.
  - intros c' entry. apply rests_read. by intros [].
  - intros c' key params. rewrite (get_keeps _ _ _ store params c' eq_refl).
    apply rests_read. by intros [].
  - intros. apply reconcileObject_rests.
Qed.

(** Listing leaves the client as it was, and states that list alike give
    the same pages. *)
Lemma listPages_alike (fuel : nat) (prefix : string) (token : option string)
    (backupPaths : gmap string bool) (c c' : Client) :
  alike bucket c c' →
  final (listPages fuel bucket prefix token backupPaths c) = c
  ∧ result (listPages fuel bucket prefix token backupPaths c')
    = result (listPages fuel bucket prefix token backupPaths c).
Proof.
  intros Halike. assert (Hc' : ∀ params, list_Bucket params = bucket →
                                 (ListObjectsV2 params c').2 = c')
    by (intros; by apply (list_keeps _ _ _ store)).
  revert token backupPaths.
  induction fuel as [|fuel IH]; intros token backupPaths; [done|].
  rewrite !listPages_S.
  set (params := {| list_Bucket := bucket; list_Prefix := prefix;
                    ContinuationToken := token |}).
  rewrite (proj1 Halike params eq_refl), (Hc' params eq_refl),
    (list_keeps _ _ _ store params c eq_refl).
  destruct (ListObjectsV2 params c).1 as [resp|err]; [|done].
  destruct (ToBool (IsTruncated resp)); [|done].
  cbn zeta. unfold final at 1, result at 1 3. cbn [fst snd]. apply IH.
Qed.

(** The second of two passes.  After a pass over [manifests] whose updates
    have all succeeded, a pass from the state reached, over manifests that
    were among them, issues no update and changes nothing. *)
Lemma second_pass (dryRun : bool) (manifests manifests' : list string) (c : Client) :
  let first := reconcile scan bucket dryRun requiredUntil manifests c in
  let second := reconcile scan bucket dryRun requiredUntil manifests' (final first) in
  manifests' ⊆ manifests →
  (∀ update presp, PutObjectRetentionCall update presp ∈ trace first → presp = Ok tt) →
  final second = final first ∧ ∀ e, e ∈ trace second → ¬ isPut e.
Proof.
  intros first second Hsub Hok.
  destruct (reconcile_settles dryRun manifests c) as (Halike & _ & Hdone).
  fold first in Halike, Hdone.
  apply reconcile_rests. intros Hdry key Hin.
  apply Hdone; [done..|].
  rewrite checked_reconcile_named in Hin. unfold first. rewrite checked_reconcile_named.
  apply list_elem_of_In, in_concat in Hin as (keys & Hkeys & Hkey).
  apply list_elem_of_In, list_elem_of_fmap in Hkeys as (manifestKey & -> & Hmanifest).
  rewrite (named_alike c) in Hkey by done.
  apply list_elem_of_In, in_concat. exists (named bucket scan c manifestKey).
  split; [|done]. apply list_elem_of_In, list_elem_of_fmap. exists manifestKey. auto.
Qed.

(** How a run of [main] goes from a state that lists as [c0] does. *)
Lemma main_settled_cases (rangeKeys : gmap string bool → list string) (fuel : nat)
    (cluster : string) (retentionDays : Z) (dryRun : bool) (cfg : Res unit) (now : Time)
    (c0 c : Client) :
  alike bucket c0 c →
  AddDate now 0 0 retentionDays = requiredUntil →
  let run := main scan AddDate rangeKeys fuel bucket cluster retentionDays dryRun cfg now c in
  (¬ validFlags bucket cluster retentionDays cfg
   ∧ trace run = [] ∧ final run = c ∧ ∃ message, result run = Some (Fatal message))
  ∨ (validFlags bucket cluster retentionDays cfg
     ∧ ∃ listing,
         (∀ e, e ∈ listing → ¬ isPut e)
         ∧ match result (listPages fuel bucket (cluster +:+ "/") None ∅ c0) with
           | None => run = (None, c, listing)
           | Some (Err err) =>
               run = (Some (Fatal ("Failed to find manifests: " +:+ err)), c, listing)
           | Some (Ok backupPaths) =>
               let pass := reconcile scan bucket dryRun requiredUntil (rangeKeys backupPaths)
                                     c in
               run = (Some Done, final pass,
                      listing ++ LogLine (LogFound (length (rangeKeys backupPaths)))
                      :: trace pass ++ [LogLine LogDone])
           end).
Proof.
  intros Halike Htarget run.
  set (found := findManifests rangeKeys fuel bucket cluster c).
  set (pages := listPages fuel bucket (cluster +:+ "/") None ∅ c).
  assert (Hresult : result found
                    = match result pages with
                      | None => None
                      | Some (Err err) => Some (Err err)
                      | Some (Ok backupPaths) => Some (Ok (rangeKeys backupPaths))
                      end) by (unfold found; by rewrite findManifests_run).
  assert (Hfinal : final found = c).
  { unfold found. rewrite findManifests_run. unfold final at 1. cbn [fst snd].
    by apply (listPages_alike fuel (cluster +:+ "/") None ∅ c c), alike_refl. }
  assert (Htrace : trace found = trace pages) by (unfold found; by rewrite findManifests_run).
  assert (Hpages : result pages = result (listPages fuel bucket (cluster +:+ "/") None ∅ c0))
    by by apply listPages_alike.
  destruct (main_cases scan AddDate rangeKeys fuel bucket cluster retentionDays dryRun cfg
                       now c) as [Hinvalid|[Hvalid Hrun]]; [by left|].
  right. split; [done|]. exists (trace pages). split.
  { intros e Hin He.
    pose proof (listPages_trace fuel bucket (cluster +:+ "/") None ∅ c) as Hlist.
    rewrite Forall_forall in Hlist. specialize (Hlist e Hin). by destruct e. }
  fold found run in Hrun. rewrite Hresult, Hfinal, Htrace, Htarget in Hrun.
  rewrite <-Hpages. by destruct (result pages) as [[backupPaths|err]|].
Qed.

(** Two runs of [main] in succession, with the same flags and the same
    target. *)
Lemma main_twice (rangeKeys1 rangeKeys2 : gmap string bool → list string) (fuel : nat)
    (cluster : string) (retentionDays : Z) (dryRun : bool) (cfg : Res unit)
    (now1 now2 : Time) (c : Client) :
  (∀ m, rangeKeys1 m ≡ₚ (map_to_list m).*1) →
  (∀ m, rangeKeys2 m ≡ₚ (map_to_list m).*1) →
  AddDate now1 0 0 retentionDays = requiredUntil →
  AddDate now2 0 0 retentionDays = requiredUntil →
  let first :=
    main scan AddDate rangeKeys1 fuel bucket cluster retentionDays dryRun cfg now1 c in
  let second :=
    main scan AddDate rangeKeys2 fuel bucket cluster retentionDays dryRun cfg now2
         (final first) in
  (∀ update presp, PutObjectRetentionCall update presp ∈ trace first → presp = Ok tt) →
  result second = result first
  ∧ (∀ e, e ∈ trace second → ¬ isPut e)
  ∧ final second = final first.
Proof.
  intros Hperm1 Hperm2 Htarget1 Htarget2 first second Hok.
  pose proof (main_settled_cases rangeKeys1 fuel cluster retentionDays dryRun cfg now1 c c
                (alike_refl c) Htarget1) as Hfirst.
  pose proof (λ Halike, main_settled_cases rangeKeys2 fuel cluster retentionDays dryRun cfg
                          now2 c (final first) Halike Htarget2) as Hsecond.
  cbn zeta in Hfirst, Hsecond. fold first in Hfirst. fold second in Hsecond.
  destruct Hfirst as [(Hinvalid & Hnil & Hfinal & message & Hresult)
                     |(Hvalid & listing & Hlisting & Hrun)].
  - rewrite Hfinal in Hsecond.
    destruct (Hsecond (alike_refl c)) as [(_ & Hnil2 & Hfinal2 & _)|[Hvalid _]]; [|done].
    split; [|split].
    + subst first second. rewrite !main_result. unfold exitOf, validFlags in *.
      destruct (_ || _) eqn:Hflags; [done|]. destruct cfg as [[]|err]; [|done].
      exfalso. apply Hinvalid.
      rewrite !orb_false_iff, !bool_decide_eq_false in Hflags. repeat split; tauto || lia.
    + rewrite Hnil2. intros e Hin. by apply elem_of_nil in Hin.
    + congruence.
  - destruct (result (listPages fuel bucket (cluster +:+ "/") None ∅ c))
      as [[backupPaths|err]|]; cbn zeta in Hrun.
    + set (manifests := rangeKeys1 backupPaths) in *.
      set (pass := reconcile scan bucket dryRun requiredUntil manifests c) in *.
      assert (Hfinal : final first = final pass) by by rewrite Hrun.
      destruct (reconcile_settles dryRun manifests c) as [Halike _]. fold pass in Halike.
      rewrite Hfinal in Hsecond.
      destruct (Hsecond Halike) as [[? _]|(_ & listing2 & Hlisting2 & Hrun2)]; [done|].
      cbn zeta in Hrun2.
      destruct (second_pass dryRun manifests (rangeKeys2 backupPaths) c) as [Hrest Hnone].
      { intros manifestKey. unfold manifests. by rewrite Hperm1, Hperm2. }
      { intros update presp Hin. apply (Hok update). rewrite Hrun. unfold trace at 1.
        cbn [snd]. apply elem_of_app. right. right. apply elem_of_app. by left. }
      fold pass in Hrest, Hnone.
      rewrite Hrun2, Hfinal. unfold result, final, trace. cbn [fst snd].
      split; [by rewrite Hrun|]. split; [|done].
      intros e [Hin|Hin]%elem_of_app; [by apply Hlisting2|].
      apply elem_of_cons in Hin as [->|Hin]; [by intros []|].
      apply elem_of_app in Hin as [Hin|Hin]; [by apply Hnone|].
      apply list_elem_of_singleton in Hin as ->. by intros [].
    + assert (Hfinal : final first = c) by by rewrite Hrun.
      rewrite Hfinal in Hsecond.
      destruct (Hsecond (alike_refl c)) as [[? _]|(_ & listing2 & Hlisting2 & Hrun2)];
        [done|].
      rewrite Hrun2, Hrun. unfold result, final, trace. cbn [fst snd]. by repeat split.
    + assert (Hfinal : final first = c) by by rewrite Hrun.
      rewrite Hfinal in Hsecond.
      destruct (Hsecond (alike_refl c)) as [[? _]|(_ & listing2 & Hlisting2 & Hrun2)];
        [done|].
      rewrite Hrun2, Hrun. unfold result, final, trace. cbn [fst snd]. by repeat split.
Qed.

End Passes.

End Stores.

(** ** The bucket behind the service is a settled store *)

Module Service_facts.
Import Bucket.

(** What an update does to the bucket in memory. *)
Lemma Bucket_update (update : PutObjectRetentionInput) (b : Bucket) :
  let b' := (PutObjectRetention update b).2 in
  sameContent b b'
  ∧ (∀ key, key ≠ put_Key update → Stored b' !! key = Stored b !! key)
  ∧ ((PutObjectRetention update b).1 = Ok tt →
     expiry b' (put_Key update) = put_Retention update ≫= RetainUntilDate).
Proof.
  rewrite Bucket_facts.PutObjectRetention_eq.
  destruct (Stored b !! put_Key update) as [o|] eqn:Hkey.
  - destruct (put_Retention update) as [retention|]; cbn [fst snd].
    + split; [by apply Bucket_facts.sameContent_lock|]. split.
      * intros key Hne. cbn. by rewrite lookup_insert_ne.
      * intros _. by rewrite Bucket_facts.expiry_lock, decide_True.
    + split; [apply Bucket_facts.sameContent_refl|]. by split.
  - cbn [fst snd]. split; [apply Bucket_facts.sameContent_refl|]. by split.
Qed.

Lemma held_state {A} (s : Service) (answer : A) : (Service.held s (answer, Held s)).2 = s.
Proof. by destruct s. Qed.

Lemma Service_GetObjectRetention_eq (params : GetObjectRetentionInput) (s : Service) :
  GetObjectRetention params s
  = (if bool_decide (ret_Key params ∈ Denied s) then Err Service.AccessDenied
     else (GetObjectRetention params (Held s)).1, s).
Proof.
  change (GetObjectRetention params s)
    with (if bool_decide (ret_Key params ∈ Denied s) then (Err Service.AccessDenied, s)
          else Service.held s (GetObjectRetention params (Held s))).
  case_bool_decide; [done|]. rewrite Bucket_facts.GetObjectRetention_eq.
  unfold Service.held. cbn [fst snd]. by destruct s.
Qed.

Lemma Service_PutObjectRetention_eq (params : PutObjectRetentionInput) (s : Service) :
  PutObjectRetention params s
  = ((PutObjectRetention (Service.onWire params) (Held s)).1,
     {| Held := (PutObjectRetention (Service.onWire params) (Held s)).2;
        Denied := Denied s |}).
Proof. reflexivity. Qed.

Lemma Service_ListObjectsV2_eq (params : ListObjectsV2Input) (s : Service) :
  ListObjectsV2 params s = (Ok (page (Held s) params), s).
Proof.
  change (ListObjectsV2 params s) with (Service.held s (ListObjectsV2 params (Held s))).
  rewrite Bucket_facts.ListObjectsV2_eq. unfold Service.held. cbn [fst snd]. by destruct s.
Qed.

Lemma Service_GetObject_eq (params : GetObjectInput) (s : Service) :
  GetObject params s = ((GetObject params (Held s)).1, s).
Proof.
  change (GetObject params s) with (Service.held s (GetObject params (Held s))).
  rewrite Bucket_facts.GetObject_eq. unfold Service.held. cbn [fst snd]. by destruct s.
Qed.

(** The error of a denied query names no missing lock configuration and no
    missing object. *)
Lemma AccessDenied_other :
  ¬ (noLockConfiguration Service.AccessDenied ∨ noSuchKey Service.AccessDenied).
Proof.
  intros Habsent. apply (verdict_absent _ 0) in Habsent. discriminate Habsent.
Qed.

Lemma Service_Truthful (bucket : string) : Truthful bucket Service.expiry.
Proof.
  split.
  - intros params s key _. by rewrite Service_ListObjectsV2_eq.
  - intros params s key _. by rewrite Service_GetObject_eq.
  - intros params s key _. by rewrite Service_GetObjectRetention_eq.
  - intros params s out _. rewrite Service_GetObjectRetention_eq. cbn [fst].
    case_bool_decide; [done|]. rewrite Bucket_facts.GetObjectRetention_eq. cbn [fst].
    unfold Service.expiry, expiry.
    destruct (Stored (Held s) !! ret_Key params) as [o|]; [|done].
    destruct (Lock o) as [retention|] eqn:Hlock; [|done]. intros [= <-]. cbn.
    by rewrite Hlock.
  - intros params s err _. rewrite Service_GetObjectRetention_eq. cbn [fst].
    case_bool_decide.
    { intros [= <-] Habsent. by destruct AccessDenied_other. }
    rewrite Bucket_facts.GetObjectRetention_eq. cbn [fst].
    unfold Service.expiry, expiry.
    destruct (Stored (Held s) !! ret_Key params) as [o|]; [|done].
    destruct (Lock o) as [retention|] eqn:Hlock; [done|]. intros _ _. cbn.
    by rewrite Hlock.
  - intros params s key _ Hne. rewrite Service_PutObjectRetention_eq. cbn [snd].
    unfold Service.expiry, expiry. cbn [Held].
    destruct (Bucket_update (Service.onWire params) (Held s)) as (_ & Hother & _).
    by rewrite Hother.
Qed.

Lemma Service_Settled (bucket : string) : Settled bucket Service.expiry Service.millis.
Proof.
  split.
  - apply Service_Truthful.
  - intros params s _. by rewrite Service_ListObjectsV2_eq.
  - intros params s _. by rewrite Service_GetObject_eq.
  - intros params s _. by rewrite Service_GetObjectRetention_eq.
  - intros key t s. rewrite Service_PutObjectRetention_eq. cbn [fst snd]. intros Hok.
    destruct (Bucket_update (Service.onWire (updateRequest bucket key t)) (Held s))
      as (_ & _ & Hkept).
    unfold Service.expiry. cbn [Held]. exact (Hkept Hok).
  - intros update s params _ _. rewrite Service_PutObjectRetention_eq, !Service_ListObjectsV2_eq.
    cbn [fst snd Held]. f_equal. symmetry. apply Bucket_facts.sameContent_page.
    apply (Bucket_update (Service.onWire update) (Held s)).
  - intros update s params _ _. rewrite Service_PutObjectRetention_eq, !Service_GetObject_eq.
    cbn [fst snd Held]. rewrite !Bucket_facts.GetObject_eq. cbn [fst].
    destruct (Bucket_update (Service.onWire update) (Held s)) as ([_ Hdata] & _).
    specialize (Hdata (get_Key params)).
    destruct (Stored (Held s) !! get_Key params),
             (Stored (PutObjectRetention (Service.onWire update) (Held s)).2 !! get_Key params);
      try done.
    by injection Hdata as ->.
  - intros update s params _ _ Hne.
    rewrite Service_PutObjectRetention_eq, !Service_GetObjectRetention_eq.
    cbn [fst snd Held Denied]. case_bool_decide; [done|].
    rewrite !Bucket_facts.GetObjectRetention_eq. cbn [fst].
    destruct (Bucket_update (Service.onWire update) (Held s)) as (_ & Hother & _).
    by rewrite Hother.
Qed.

End Service_facts.

(** ** Monotonicity and the second pass *)

(** C2. An update is issued only right after the retention query for its
    object, and only when that query has succeeded and reported no expiry or
    an expiry strictly before the target, or has failed for a missing lock
    configuration or a missing object; it asks for the target.  A query
    that fails for any other reason, or reports an expiry at or after the
    target, is not followed by an update.  This for every client.  On the
    bucket in memory, and on every store that tells the truth about
    retention (its queries may fail as they like), the expiry an update asks
    for is therefore never less than the expiry the object had before the
    run. *)
Theorem updates_never_shorten :
  (∀ (Client : Type) (api : S3API Client) scan AddDate rangeKeys (fuel : nat)
     (bucket cluster : string) (retentionDays : Z) (dryRun : bool) (cfg : Res unit)
     (now : Time) (c : Client) (before after : list Event)
     (update : PutObjectRetentionInput) (presp : Res unit),
     trace (main scan AddDate rangeKeys fuel bucket cluster retentionDays dryRun cfg now c)
     = before ++ PutObjectRetentionCall update presp :: after →
     ∃ before' query resp,
       before = before' ++ [GetObjectRetentionCall query resp]
       ∧ put_Bucket update = ret_Bucket query
       ∧ put_Key update = ret_Key query
       ∧ ((∃ out, resp = Ok out
                  ∧ (queriedExpiry out = None
                     ∨ ∃ current, queriedExpiry out = Some current
                                  ∧ current < AddDate now 0 0 retentionDays))
          ∨ (∃ err, resp = Err err ∧ (noLockConfiguration err ∨ noSuchKey err)))
       ∧ (put_Retention update ≫= RetainUntilDate) = Some (AddDate now 0 0 retentionDays))
  ∧ (∀ (Client : Type) (api : S3API Client) scan AddDate rangeKeys (fuel : nat)
       (bucket cluster : string) (retentionDays : Z) (dryRun : bool) (cfg : Res unit)
       (now : Time) (c : Client) (before after : list Event)
       (query : GetObjectRetentionInput) (resp : Res GetObjectRetentionOutput),
       trace (main scan AddDate rangeKeys fuel bucket cluster retentionDays dryRun cfg now c)
       = before ++ GetObjectRetentionCall query resp :: after →
       (∃ err, resp = Err err ∧ ¬ (noLockConfiguration err ∨ noSuchKey err))
       ∨ (∃ out current, resp = Ok out ∧ queriedExpiry out = Some current
                         ∧ AddDate now 0 0 retentionDays ≤ current) →
       ∀ update presp after', after ≠ PutObjectRetentionCall update presp :: after')
  ∧ (∀ scan AddDate rangeKeys (fuel : nat) (bucket cluster : string) (retentionDays : Z)
       (dryRun : bool) (cfg : Res unit) (now : Time) (b : Bucket)
       (update : PutObjectRetentionInput) (presp : Res unit),
       PutObjectRetentionCall update presp
         ∈ trace (main scan AddDate rangeKeys fuel bucket cluster retentionDays dryRun cfg
                       now b) →
       ∃ requested,
         (put_Retention update ≫= RetainUntilDate) = Some requested
         ∧ requested = AddDate now 0 0 retentionDays
         ∧ ∀ current, Bucket.expiry b (put_Key update) = Some current → current ≤ requested)
  ∧ (∀ (Client : Type) (api : S3API Client) (expiryOf : Client → string → option Time)
       scan AddDate rangeKeys (fuel : nat) (bucket cluster : string) (retentionDays : Z)
       (dryRun : bool) (cfg : Res unit) (now : Time) (c : Client)
       (update : PutObjectRetentionInput) (presp : Res unit),
       Truthful bucket expiryOf →
       PutObjectRetentionCall update presp
         ∈ trace (main scan AddDate rangeKeys fuel bucket cluster retentionDays dryRun cfg
                       now c) →
       ∃ requested,
         (put_Retention update ≫= RetainUntilDate) = Some requested
         ∧ requested = AddDate now 0 0 retentionDays
         ∧ ∀ current, expiryOf c (put_Key update) = Some current → current < requested).
Proof.
  split; [|split; [|split]].
  - intros. by eapply updates_are_guarded.
  - intros Client api scan AddDate rangeKeys fuel bucket cluster retentionDays dryRun cfg now c
           before after query resp Htrace Hquiet update presp after' ->.
    change (before ++ GetObjectRetentionCall query resp
                   :: PutObjectRetentionCall update presp :: after')
      with (before ++ [GetObjectRetentionCall query resp]
                   ++ PutObjectRetentionCall update presp :: after') in Htrace.
    rewrite app_assoc in Htrace.
    destruct (updates_are_guarded _ _ _ _ _ _ _ _ _ _ _ _ _ _ _ Htrace)
      as (before' & query' & resp' & Hlast & _ & _ & Hguard & _).
    apply app_inj_tail in Hlast as [_ [= _ <-]].
    destruct Hquiet as [(err & -> & Hother)|(out & current & -> & Hcurrent & Hle)],
             Hguard as [(out' & Hout & Hlow)|(err' & Herr & Habsent)]; try done.
    + by injection Herr as <-.
    + injection Hout as <-. rewrite Hcurrent in Hlow.
      destruct Hlow as [?|(current' & [= <-] & ?)]; [done | lia].
  - intros scan AddDate rangeKeys fuel bucket cluster retentionDays dryRun cfg now b
           update presp Hin.
    destruct (Bucket_facts.main_extends _ _ _ _ _ _ _ _ _ _ _ _ _ Hin) as [Hrequested Hbefore].
    by exists (AddDate now 0 0 retentionDays).
  - intros Client api expiryOf scan AddDate rangeKeys fuel bucket cluster retentionDays dryRun
           cfg now c update presp Hstore Hin.
    exists (AddDate now 0 0 retentionDays). split; [|split; [done|]].
    + apply list_elem_of_split in Hin as (before & after & Hsplit).
      by destruct (updates_are_guarded _ _ _ _ _ _ _ _ _ _ _ _ _ _ _ Hsplit)
        as (_ & _ & _ & _ & _ & _ & _ & ?).
    + by eapply (main_raises scan AddDate bucket expiryOf Hstore).
Qed.

(** C9, as amended. Two runs in succession, with the same flags and the
    same target, against a store whose state changes through successful
    updates alone, whose retention queries tell the truth and which keeps
    the target without loss: when every update of the first run has
    succeeded, the second run ends as the first did, issues no update and
    leaves the store as the first run left it.  With valid flags and fuel
    for the pages of a listing that ends, the runs go to their end. *)
Theorem second_pass_updates_nothing {Client : Type} `{!S3API Client}
    (expiryOf : Client → string → option Time) (kept : Time → Time)
    scan AddDate rangeKeys1 rangeKeys2 (fuel : nat)
    (bucket cluster : string) (retentionDays : Z) (dryRun : bool) (cfg : Res unit)
    (now1 now2 : Time) (c : Client) :
  Settled bucket expiryOf kept →
  (∀ m, rangeKeys1 m ≡ₚ (map_to_list m).*1) →
  (∀ m, rangeKeys2 m ≡ₚ (map_to_list m).*1) →
  AddDate now1 0 0 retentionDays = AddDate now2 0 0 retentionDays →
  AddDate now1 0 0 retentionDays ≤ kept (AddDate now1 0 0 retentionDays) →
  let first :=
    main scan AddDate rangeKeys1 fuel bucket cluster retentionDays dryRun cfg now1 c in
  let second :=
    main scan AddDate rangeKeys2 fuel bucket cluster retentionDays dryRun cfg now2
         (final first) in
  (∀ update presp, PutObjectRetentionCall update presp ∈ trace first → presp = Ok tt) →
  result second = result first
  ∧ (∀ e, e ∈ trace second → ¬ isPut e)
  ∧ final second = final first
  ∧ (validFlags bucket cluster retentionDays cfg →
     ∀ pages c',
       Listing bucket (cluster +:+ "/") None c pages None c' →
       (length pages ≤ fuel)%nat →
       result first = Some Done).
Proof.
  intros Hstore Hperm1 Hperm2 Htarget Hkept first second Hok.
  destruct (main_twice scan AddDate bucket expiryOf kept Hstore (AddDate now1 0 0 retentionDays)
              Hkept rangeKeys1 rangeKeys2 fuel cluster retentionDays dryRun cfg now1 now2 c
              Hperm1 Hperm2 eq_refl (eq_sym Htarget) Hok)
    as (Hresult & Hnone & Hfinal).
  repeat split; try done.
  intros (Hbucket & Hcluster & Hdays & Hcfg) pages c' Hlisting Hfuel.
  destruct (listPages_Listing _ _ _ _ _ _ _ Hlisting fuel ∅) as (_ & found & Hfound & _);
    [lia|].
  unfold first. rewrite main_result, findManifests_run. unfold result at 1. cbn [fst].
  rewrite Hfound. unfold exitOf. rewrite !bool_decide_eq_false_2 by (done || lia). cbn.
  by destruct cfg.
Qed.

(** ** The examples, run *)

Lemma Example_rangeKeys_perm (m : gmap string bool) :
  Example.rangeKeys m ≡ₚ (map_to_list m).*1.
Proof. reflexivity. Defined.

(** C9, as stated, fails: the manifest of the example bucket names a data
    file that the bucket does not hold.  The first pass asks to update it
    and fails; the second pass, with the same target, asks again. *)
Lemma second_pass_updates_again :
  let first :=
    main Example.scan Example.AddDate Example.rangeKeys 5 "backups" "c" 1 false (Ok tt) 0
         Example.bucket in
  let second :=
    main Example.scan Example.AddDate Example.rangeKeys 5 "backups" "c" 1 false (Ok tt) 0
         (final first) in
  result first = Some Done
  ∧ result second = Some Done
  ∧ ¬ (∀ e, e ∈ trace second → ¬ isPut e).
Proof.
  intros first second. split; [by vm_compute|]. split; [by vm_compute|].
  intros Hnone.
  apply (Hnone (PutObjectRetentionCall
                  (updateRequest "backups" "c/h/data/ks/t/f2.db" 86400000000000)
                  (Err Bucket.NoSuchKey))); [|done].
  apply list_elem_of_In. vm_compute.
  repeat (first [left; reflexivity | right]).
Qed.

(** C9 fails also where every update succeeds, when the store does not
    keep the target: a target with nanoseconds is kept to the millisecond,
    the next query finds the expiry before the target, and the second run
    asks again. *)
Lemma second_pass_updates_coarse :
  let first :=
    main Example.scan Example.AddDate Example.rangeKeys 5 "backups" "c" 1 false (Ok tt) 1
         Example.service in
  let second :=
    main Example.scan Example.AddDate Example.rangeKeys 5 "backups" "c" 1 false (Ok tt) 1
         (final first) in
  Service.millis (Example.AddDate 1 0 0 1) < Example.AddDate 1 0 0 1
  ∧ result first = Some Done
  ∧ (∀ update presp, PutObjectRetentionCall update presp ∈ trace first → presp = Ok tt)
  ∧ ¬ (∀ e, e ∈ trace second → ¬ isPut e).
Proof.
  intros first second. split; [by vm_compute|]. split; [by vm_compute|]. split.
  - intros update presp Hin%list_elem_of_In. vm_compute in Hin.
    repeat (destruct Hin as [Hin|Hin];
            [first [discriminate Hin | by injection Hin as _ <-]|]).
    destruct Hin.
  - intros Hnone.
    apply (Hnone (PutObjectRetentionCall
                    (updateRequest "backups" "c/h/data/ks/t/f1.db" 86400000000001)
                    (Ok tt))); [|done].
    apply list_elem_of_In. vm_compute.
    repeat (first [left; reflexivity | right]).
Qed.

Lemma second_pass_updates_nothing_witness :
  let first :=
    main Example.scan Example.AddDate Example.rangeKeys 5 "backups" "c" 1 false (Ok tt) 0
         Example.service in
  let second :=
    main Example.scan Example.AddDate Example.rangeKeys 5 "backups" "c" 1 false (Ok tt) 0
         (final first) in
  (result second = result first
   ∧ (∀ e, e ∈ trace second → ¬ isPut e)
   ∧ final second = final first
   ∧ (validFlags "backups" "c" 1 (Ok tt) →
      ∀ pages c',
        Listing "backups" ("c" +:+ "/") None Example.service pages None c' →
        (length pages ≤ 5)%nat →
        result first = Some Done))
  ∧ result first = Some Done
  ∧ PutObjectRetentionCall (updateRequest "backups" "c/h/data/ks/t/f1.db" 86400000000000)
                           (Ok tt) ∈ trace first
  ∧ GetObjectRetentionCall {| ret_Bucket := "backups"; ret_Key := "c/h/data/ks/t/f1.db" |}
                           (Ok {| Retention := Example.governed 86400000000000 |})
    ∈ trace second.
Proof.
  intros first second. split; [|split; [|split]].
  - apply (second_pass_updates_nothing Service.expiry Service.millis Example.scan
             Example.AddDate Example.rangeKeys Example.rangeKeys 5 "backups" "c" 1 false
             (Ok tt) 0 0 Example.service).
    + apply Service_facts.Service_Settled.
    + apply Example_rangeKeys_perm.
    + apply Example_rangeKeys_perm.
    + reflexivity.
    + by vm_compute.
    + intros update presp Hin%list_elem_of_In. vm_compute in Hin.
      repeat (destruct Hin as [Hin|Hin];
              [first [discriminate Hin | by injection Hin as _ <-]|]).
      destruct Hin.
  - by vm_compute.
  - apply list_elem_of_In. vm_compute. repeat (first [left; reflexivity | right]).
  - apply list_elem_of_In. vm_compute. repeat (first [left; reflexivity | right]).
Defined.

Lemma updates_never_shorten_witness :
  let bucketRun :=
    trace (main Example.scan Example.AddDate Example.rangeKeys 5 "backups" "c" 1 false
                (Ok tt) 0 Example.bucket) in
  let serviceRun :=
    trace (main Example.scan Example.AddDate Example.rangeKeys 5 "backups" "c" 1 false
                (Ok tt) 0 Example.service) in
  let update := updateRequest "backups" "c/h/data/ks/t/f1.db" 86400000000000 in
  (∃ before' query resp,
     take 6 bucketRun = before' ++ [GetObjectRetentionCall query resp]
     ∧ put_Bucket update = ret_Bucket query
     ∧ put_Key update = ret_Key query
     ∧ ((∃ out, resp = Ok out
                ∧ (queriedExpiry out = None
                   ∨ ∃ current, queriedExpiry out = Some current
                                ∧ current < Example.AddDate 0 0 0 1))
        ∨ (∃ err, resp = Err err ∧ (noLockConfiguration err ∨ noSuchKey err)))
     ∧ (put_Retention update ≫= RetainUntilDate) = Some (Example.AddDate 0 0 0 1))
  ∧ (∀ update' presp after',
       drop 9 serviceRun ≠ PutObjectRetentionCall update' presp :: after')
  ∧ Bucket.expiry Example.bucket "c/h/data/ks/t/f1.db" = Some 5
  ∧ (∀ current,
       Bucket.expiry Example.bucket "c/h/data/ks/t/f1.db" = Some current →
       current ≤ 86400000000000)
  ∧ (∀ current,
       Service.expiry Example.service "c/h/data/ks/t/f1.db" = Some current →
       current < 86400000000000).
Proof.
  intros bucketRun serviceRun update.
  destruct updates_never_shorten as (Hguard & Hquiet & Hbucket & Hstore).
  split; [|split; [|split; [|split]]].
  - apply (Hguard Bucket Bucket.api Example.scan Example.AddDate Example.rangeKeys 5%nat
             "backups" "c" 1 false (Ok tt) 0 Example.bucket (take 6 bucketRun)
             (drop 7 bucketRun) update (Ok tt)).
    by vm_compute.
  - apply (Hquiet Service Service.api Example.scan Example.AddDate Example.rangeKeys 5%nat
             "backups" "c" 1 false (Ok tt) 0 Example.service (take 8 serviceRun)
             (drop 9 serviceRun)
             {| ret_Bucket := "backups"; ret_Key := "c/h/data/ks/t/f2.db" |}
             (Err Service.AccessDenied)).
    + by vm_compute.
    + left. exists Service.AccessDenied. split; [done|].
      intros Habsent. apply (verdict_absent _ 0) in Habsent. discriminate Habsent.
  - reflexivity.
  - destruct (Hbucket Example.scan Example.AddDate Example.rangeKeys 5%nat
                "backups" "c" 1 false (Ok tt) 0 Example.bucket update (Ok tt))
      as (requested & _ & -> & Hle).
    + apply list_elem_of_In. vm_compute. repeat (first [left; reflexivity | right]).
    + exact Hle.
  - destruct (Hstore Service Service.api Service.expiry Example.scan Example.AddDate
                Example.rangeKeys 5%nat "backups" "c" 1 false (Ok tt) 0 Example.service
                update (Ok tt))
      as (requested & _ & -> & Hlt).
    + apply Service_facts.Service_Truthful.
    + apply list_elem_of_In. vm_compute. repeat (first [left; reflexivity | right]).
    + exact Hlt.
Defined.

Lemma updates_use_governance_witness :
  ∃ retention,
    put_Retention (updateRequest "backups" "c/h/data/ks/t/f1.db" 86400000000000)
    = Some retention
    ∧ Mode retention = "GOVERNANCE"
    ∧ Mode retention ≠ "COMPLIANCE".
Proof.
  apply (updates_use_governance Example.scan Example.AddDate Example.rangeKeys 5
           "backups" "c" 1 false (Ok tt) 0 Example.bucket _ (Ok tt)).
  apply list_elem_of_In. vm_compute. repeat (first [left; reflexivity | right]).
Defined.

Lemma checkRetention_classifies_witness :
  checkRetention "backups" "c/h/data/ks/t/f1.db" 10 Example.denied
  = ((false, Some "AccessDenied"), Mock.called Example.denied,
     [GetObjectRetentionCall {| ret_Bucket := "backups"; ret_Key := "c/h/data/ks/t/f1.db" |}
                             (Err "AccessDenied")])
  ∧ checkRetention "backups" "c/h/data/ks/t/f2.db" 10 Example.bucket
    = ((true, None), Example.bucket,
       [GetObjectRetentionCall {| ret_Bucket := "backups"; ret_Key := "c/h/data/ks/t/f2.db" |}
                               (Err Bucket.NoSuchKey)]).
Proof.
  split.
  - destruct (checkRetention_classifies "backups" "c/h/data/ks/t/f1.db" 10 Example.denied)
      as (_ & Hother & _).
    destruct (Hother "AccessDenied") as [Hcheck _]; [reflexivity| |exact Hcheck].
    intros [[Hconf|Hconf]|Hkey].
    + apply strings_facts.Contains_spec in Hconf. vm_compute in Hconf. discriminate Hconf.
    + apply strings_facts.Contains_spec in Hconf. vm_compute in Hconf. discriminate Hconf.
    + apply strings_facts.Contains_spec in Hkey. vm_compute in Hkey. discriminate Hkey.
  - destruct (checkRetention_classifies "backups" "c/h/data/ks/t/f2.db" 10 Example.bucket)
      as (Habsent & _ & _).
    apply (Habsent Bucket.NoSuchKey); [reflexivity|].
    right. by exists "api error ", ": The specified key does not exist.".
Defined.

Lemma findManifests_spec_witness :
  ∃ manifests,
    result (findManifests Example.rangeKeys 2 "backups" "c" Example.bucket)
    = Some (Ok manifests)
    ∧ NoDup manifests
    ∧ "c/h/b1/meta/manifest.json" ∈ manifests
    ∧ "c/h/data/ks/t/f1.db" ∉ manifests.
Proof.
  destruct (findManifests_spec Example.rangeKeys Example_rangeKeys_perm "backups" "c"
              Example.bucket
              [Bucket.page Example.bucket
                 {| list_Bucket := "backups"; list_Prefix := "c/"; ContinuationToken := None |};
               Bucket.page Example.bucket
                 {| list_Bucket := "backups"; list_Prefix := "c/";
                    ContinuationToken := Some "c/h/b2/meta/manifest.json" |}]
              Example.bucket 2)
    as (manifests & Hresult & _ & Hnodup & Hkeys).
  - eapply Listing_more; [reflexivity | reflexivity |].
    eapply Listing_last; reflexivity.
  - simpl. lia.
  - exists manifests. split; [done|]. split; [done|]. split.
    + apply Hkeys. split; [|by exists "c/h/b1"].
      eexists. split; [by left|]. apply list_elem_of_In. vm_compute. by left.
    + intros [_ [before Hsuffix]]%Hkeys.
      assert (Hs : strings.HasSuffix "c/h/data/ks/t/f1.db" "/meta/manifest.json" = true)
        by (apply strings_facts.HasSuffix_spec; by exists before).
      vm_compute in Hs. discriminate Hs.
Defined.

Lemma error_containment_witness :
  (result (main Example.scan Example.AddDate Example.rangeKeys 5 "backups" "c" 1 false (Ok tt) 0
                Example.secondPageDenied)
   = Some (Fatal "Failed to find manifests: failed to list objects: AccessDenied")
   ∧ Forall isList
       (trace (main Example.scan Example.AddDate Example.rangeKeys 5 "backups" "c" 1 false
                    (Ok tt) 0 Example.secondPageDenied)))
  ∧ (result (main Example.scan Example.AddDate Example.rangeKeys 5 "backups" "c" 1 false (Ok tt)
                  0 Example.bucket) = Some Done
     ∧ manifestVisited Example.scan "backups" false 86400000000000
         (trace (main Example.scan Example.AddDate Example.rangeKeys 5 "backups" "c" 1 false
                      (Ok tt) 0 Example.bucket))
         "c/h/b1/meta/manifest.json").
Proof.
  split.
  - pose proof (error_containment Example.scan Example.AddDate Example.rangeKeys 5
                  "backups" "c" 1 false 0 Example.secondPageDenied) as Hdenied.
    destruct Hdenied as [_ Hdenied]; [done | done | lia |].
    set (found := result (findManifests Example.rangeKeys 5 "backups" "c"
                                        Example.secondPageDenied)) in Hdenied.
    vm_compute in found. subst found. exact Hdenied.
  - pose proof (error_containment Example.scan Example.AddDate Example.rangeKeys 5
                  "backups" "c" 1 false 0 Example.bucket) as Hfound.
    destruct Hfound as [_ Hfound]; [done | done | lia |].
    set (found := result (findManifests Example.rangeKeys 5 "backups" "c" Example.bucket))
      in Hfound.
    vm_compute in found. subst found. destruct Hfound as [Hdone Hvisited].
    split; [exact Hdone|]. apply Hvisited.
    apply list_elem_of_In. repeat (first [left; reflexivity | right]).
Defined.


(** * Further properties of the program *)

(** ** What a run issues *)

Section Issues.

Context {Client : Type} `{!S3API Client}.
Variable scan : string → Res json.value.
Variable AddDate : Time → Z → Z → Z → Time.
Variable rangeKeys : gmap string bool → list string.

(** X1. In a dry run [main] issues no update, whatever the client answers:
    the branch of [-dry-run] only logs. *)
Theorem dry_run_issues_no_update (fuel : nat) (bucket cluster : string) (retentionDays : Z)
    (cfg : Res unit) (now : Time) (c : Client) (e : Event) :
  e ∈ trace (main scan AddDate rangeKeys fuel bucket cluster retentionDays true cfg now c) →
  ¬ isPut e.
Proof.
  revert e. apply Forall_forall.
  apply (main_trace scan AddDate rangeKeys (Forall (λ e, ¬ isPut e))).
  - constructor.
  - intros t1 t2. apply Forall_app_2.
  - intros e He. by constructor.
  - intros hostnamePath obj c'. rewrite reconcileObject_run.
    destruct (verdict _ _) as [[] [err|]]; by repeat (constructor; [by intros []|]).
Qed.

(** X2. With an empty bucket name, an empty cluster name, a retention of no
    days or a configuration that does not load, [main] ends in [log.Fatal]
    before any call: the client is left as it was and nothing is logged. *)
Theorem main_refuses_bad_flags (fuel : nat) (bucket cluster : string) (retentionDays : Z)
    (dryRun : bool) (cfg : Res unit) (now : Time) (c : Client) :
  bucket = "" ∨ cluster = "" ∨ retentionDays ≤ 0 ∨ isErr cfg = true →
  let run := main scan AddDate rangeKeys fuel bucket cluster retentionDays dryRun cfg now c in
  trace run = [] ∧ final run = c ∧ ∃ message, result run = Some (Fatal message).
Proof.
  intros Hbad run.
  destruct (main_cases scan AddDate rangeKeys fuel bucket cluster retentionDays dryRun cfg now c)
    as [(_ & Htrace)|[(Hbucket & Hcluster & Hdays & Hcfg) _]]; [done|].
  destruct Hbad as [?|[?|[?|Herr]]]; [done | done | lia | congruence].
Qed.

(** The objects updated are among the objects queried, in the same order. *)
Lemma Guarded_updated (requiredUntil : Time) (t : list Event) :
  Guarded requiredUntil t → updated t `sublist_of` checked t.
Proof.
  induction 1 as [|e t He _ IH|query resp presp t _ _ IH].
  - constructor.
  - destruct e; cbn; [exact IH | exact IH | by apply sublist_cons | by destruct He | exact IH].
  - cbn. by apply sublist_skip.
Qed.

(** X3. The keys [main] asks to update form a subsequence of the keys whose
    retention it queries: no object is updated that has not been queried,
    and none more often than it has been queried. *)
Theorem updates_among_queries (fuel : nat) (bucket cluster : string) (retentionDays : Z)
    (dryRun : bool) (cfg : Res unit) (now : Time) (c : Client) :
  let run := main scan AddDate rangeKeys fuel bucket cluster retentionDays dryRun cfg now c in
  updated (trace run) `sublist_of` checked (trace run)
  ∧ (length (updated (trace run)) ≤ length (checked (trace run)))%nat.
Proof.
  intros run.
  pose proof (Guarded_updated _ _
                (main_Guarded scan AddDate rangeKeys fuel bucket cluster retentionDays dryRun
                              cfg now c)) as Hsub.
  split; [done|]. by apply sublist_length.
Qed.

Lemma downloads_app (t1 t2 : list Event) : downloads (t1 ++ t2) = downloads t1 ++ downloads t2.
Proof. apply omap_app. Qed.

Lemma downloads_manifest (entry : LogEntry) (params : GetObjectInput)
    (resp : Res GetObjectOutput) (t : list Event) :
  downloads (LogLine entry :: GetObjectCall params resp :: t) = get_Key params :: downloads t.
Proof. reflexivity. Qed.

Lemma downloads_log (entry : LogEntry) (t : list Event) :
  downloads (LogLine entry :: t) = downloads t.
Proof. reflexivity. Qed.

Lemma downloads_objects (bucket : string) (dryRun : bool) (retentionUntil : Time)
    (hostnamePath : string) (objects : list ManifestObject) (c : Client) :
  downloads (trace (forEach objects
                            (reconcileObject bucket dryRun retentionUntil hostnamePath) c)) = [].
Proof.
  revert c. induction objects as [|obj objects IH]; intros c; [done|].
  rewrite forEach_cons. unfold trace at 1. cbn [snd]. rewrite downloads_app, IH, app_nil_r.
  rewrite reconcileObject_run.
  destruct (verdict _ _) as [[] [err|]]; try done. by destruct dryRun.
Qed.

Lemma downloads_reconcile (bucket : string) (dryRun : bool) (retentionUntil : Time)
    (manifests : list string) (c : Client) :
  downloads (trace (reconcile scan bucket dryRun retentionUntil manifests c)) = manifests.
Proof.
  unfold reconcile. revert c. induction manifests as [|manifestKey manifests IH]; intros c.
  - done.
  - rewrite forEach_cons. unfold trace at 1. cbn [snd]. rewrite downloads_app, IH.
    rewrite reconcileManifest_run.
    destruct (downloaded scan _) as [manifest|err]; [|done].
    destruct (extractHostnamePath manifestKey) as [hostnamePath|err]; [|done].
    cbn zeta. unfold trace at 1. cbn [snd].
    by rewrite downloads_manifest, downloads_objects.
Qed.

Lemma downloads_listing (t : list Event) : Forall isList t → downloads t = [].
Proof. induction 1 as [|[] t He _ IH]; try done. Qed.

(** X4. When discovery succeeds, [main] requests each manifest found exactly
    once, in the order found, and requests no other object. *)
Theorem manifests_downloaded_once (fuel : nat) (bucket cluster : string) (retentionDays : Z)
    (dryRun : bool) (cfg : Res unit) (now : Time) (c : Client) (manifests : list string) :
  validFlags bucket cluster retentionDays cfg →
  result (findManifests rangeKeys fuel bucket cluster c) = Some (Ok manifests) →
  downloads (trace (main scan AddDate rangeKeys fuel bucket cluster retentionDays dryRun cfg
                         now c))
  = manifests.
Proof.
  intros Hvalid Hfound.
  pose proof (findManifests_trace rangeKeys fuel bucket cluster c) as Hlist.
  destruct (main_cases scan AddDate rangeKeys fuel bucket cluster retentionDays dryRun cfg now c)
    as [(Hinvalid & _)|[_ Hrun]]; [done|].
  rewrite Hfound in Hrun. cbn zeta in Hrun. rewrite Hrun. unfold trace at 1. cbn [snd].
  rewrite downloads_app, (downloads_listing _ Hlist), app_nil_l.
  rewrite downloads_log, downloads_app, downloads_reconcile.
  change (downloads [LogLine LogDone]) with (@nil string). apply app_nil_r.
Qed.

(** X5. For one manifest the driver queries exactly the keys of the objects
    the manifest names, once per entry and in order; a manifest that does
    not download, does not decode or has no hostname path leads to no
    query at all (it is requested all the same, before its key is
    looked at). *)
Theorem manifest_queries (bucket : string) (dryRun : bool) (retentionUntil : Time)
    (manifestKey : string) (c : Client) :
  let request := {| get_Bucket := bucket; get_Key := manifestKey |} in
  let run := reconcileManifest scan bucket dryRun retentionUntil manifestKey c in
  downloads (trace run) = [manifestKey]
  ∧ checked (trace run)
    = match downloaded scan (GetObject request c).1, extractHostnamePath manifestKey with
      | Ok manifest, Ok hostnamePath => objectKey hostnamePath <$> paths manifest
      | _, _ => []
      end.
Proof.
  intros request run. subst run. split.
  - rewrite reconcileManifest_run. fold request.
    destruct (downloaded scan _) as [manifest|err]; [|done].
    destruct (extractHostnamePath manifestKey) as [hostnamePath|err]; [|done].
    cbn zeta. unfold trace at 1. cbn [snd].
    by rewrite downloads_manifest, downloads_objects.
  - rewrite reconcileManifest_run. fold request.
    destruct (downloaded scan _) as [manifest|err]; [|done].
    destruct (extractHostnamePath manifestKey) as [hostnamePath|err]; [|done].
    cbn zeta. unfold trace at 1. cbn [snd].
    apply (Bucket_facts.checked_objects bucket dryRun retentionUntil hostnamePath).
Qed.

End Issues.

(** ** Keys *)

Module keys_facts.
Import strings strings_facts.

Lemma Split_fresh (s : string) (sep : ascii) : hasByte sep s = false → Split s sep = [s].
Proof.
  induction s as [|c s IH]; cbn [hasByte Split]; [done|].
  intros [Hc Hs]%orb_false_iff. apply bool_decide_eq_false in Hc.
  rewrite decide_False by done. by rewrite (IH Hs).
Qed.

(** [Split] cuts at the first separator. *)
Lemma Split_app (a s : string) (sep : ascii) :
  hasByte sep a = false → Split (a +:+ String sep s) sep = a :: Split s sep.
Proof.
  induction a as [|c a IH]; cbn [hasByte].
  - intros _. rewrite app_nil. cbn [Split]. by rewrite decide_True.
  - intros [Hc Ha]%orb_false_iff. apply bool_decide_eq_false in Hc.
    rewrite app_cons. cbn [Split]. rewrite decide_False by done. by rewrite (IH Ha).
Qed.

Lemma Join_cons (part part' : string) (parts : list string) (sep : ascii) :
  Join (part :: part' :: parts) sep = part +:+ String sep (Join (part' :: parts) sep).
Proof. reflexivity. Qed.

(** X6. [strings.Split] on a one-byte separator and [strings.Join] are
    inverse to each other: the parts of [s] hold no separator, number one
    more than the separators of [s] and join back to [s]; and a non-empty
    list of parts without separator is what its join splits into. *)
Theorem Split_Join_inverse (sep : ascii) :
  (∀ s, Join (Split s sep) sep = s
        ∧ Forall (λ part, hasByte sep part = false) (Split s sep)
        ∧ length (Split s sep) = S (count sep s))
  ∧ (∀ parts, parts ≠ [] → Forall (λ part, hasByte sep part = false) parts →
              Split (Join parts sep) sep = parts).
Proof.
  split.
  - intros s. split; [apply Join_Split|]. split; [apply Split_no_sep | apply Split_length].
  - induction parts as [|part [|part' parts] IH]; intros Hne Hfresh; [done|..].
    + apply Split_fresh. by inversion Hfresh.
    + inversion Hfresh; subst. rewrite Join_cons, Split_app by done. f_equal. by apply IH.
Qed.

Lemma Split_Join_inverse_witness :
  Split (Join ["cluster1"; "host1"; ""; "meta"] "/") "/" = ["cluster1"; "host1"; ""; "meta"].
Proof.
  apply (proj2 (Split_Join_inverse "/")); [done|]. by repeat constructor.
Defined.

Lemma count_app (sep : ascii) (s t : string) :
  count sep (s +:+ t) = (count sep s + count sep t)%nat.
Proof.
  induction s as [|c s IH]; [done|]. rewrite app_cons. cbn [count]. rewrite IH. lia.
Qed.

(** the hostname path of a key that begins with two segments *)
Lemma extractHostnamePath_segments (cluster host rest : string) :
  hasByte "/" cluster = false → hasByte "/" host = false →
  extractHostnamePath (cluster +:+ "/" +:+ host +:+ "/" +:+ rest)
  = if bool_decide (1 ≤ count "/" rest)%nat
    then Ok (cluster +:+ "/" +:+ host +:+ "/")
    else Err ("invalid manifest path: " +:+ cluster +:+ "/" +:+ host +:+ "/" +:+ rest).
Proof.
  intros Hcluster Hhost. unfold extractHostnamePath.
  change (cluster +:+ "/" +:+ host +:+ "/" +:+ rest)
    with (cluster +:+ String "/" (host +:+ String "/" rest)).
  rewrite !Split_app by done. cbn [length]. rewrite Split_length.
  case_bool_decide; case_bool_decide; try lia; done.
Qed.

(** X7. A key [cluster/host/rest] whose first two segments hold no [/] has
    the hostname path [cluster/host/] when [rest] holds at least one [/],
    and is refused otherwise; so every key of the shape
    [cluster/host/backup/meta/manifest.json] resolves, whatever the name
    of the backup. *)
Theorem extractHostnamePath_shape (cluster host rest backup : string) :
  hasByte "/" cluster = false → hasByte "/" host = false →
  ((1 ≤ count "/" rest)%nat →
   extractHostnamePath (cluster +:+ "/" +:+ host +:+ "/" +:+ rest)
   = Ok (cluster +:+ "/" +:+ host +:+ "/"))
  ∧ (count "/" rest = 0%nat →
     isErr (extractHostnamePath (cluster +:+ "/" +:+ host +:+ "/" +:+ rest)) = true)
  ∧ extractHostnamePath (cluster +:+ "/" +:+ host +:+ "/" +:+ backup +:+ "/meta/manifest.json")
    = Ok (cluster +:+ "/" +:+ host +:+ "/").
Proof.
  intros Hcluster Hhost. split; [|split].
  - intros Hrest. rewrite extractHostnamePath_segments by done.
    by rewrite bool_decide_eq_true_2.
  - intros Hrest. rewrite extractHostnamePath_segments by done.
    rewrite bool_decide_eq_false_2 by lia. done.
  - rewrite extractHostnamePath_segments by done.
    rewrite bool_decide_eq_true_2; [done|]. rewrite count_app.
    assert (count "/" "/meta/manifest.json" = 2%nat) as -> by reflexivity. lia.
Qed.

Lemma extractHostnamePath_shape_witness :
  extractHostnamePath ("links" +:+ "/" +:+ "links-us-default-sts-8" +:+ "/"
                       +:+ "medusa-backup-schedule-1764858600" +:+ "/meta/manifest.json")
  = Ok ("links" +:+ "/" +:+ "links-us-default-sts-8" +:+ "/").
Proof.
  apply (extractHostnamePath_shape "links" "links-us-default-sts-8" "x"
           "medusa-backup-schedule-1764858600"); reflexivity.
Defined.

Lemma extractHostnamePath_Ok (manifestKey hostnamePath : string) :
  extractHostnamePath manifestKey = Ok hostnamePath →
  (∃ rest, manifestKey = hostnamePath +:+ rest)
  ∧ strings.HasPrefix manifestKey hostnamePath = true
  ∧ ∃ cluster host,
      hostnamePath = cluster +:+ "/" +:+ host +:+ "/"
      ∧ hasByte "/" cluster = false ∧ hasByte "/" host = false.
Proof.
  unfold extractHostnamePath.
  pose proof (Join_Split manifestKey "/") as Hjoin.
  pose proof (Split_no_sep manifestKey "/") as Hfresh.
  destruct (Split manifestKey "/") as [|cluster [|host [|third parts]]]; cbn [length];
    try (rewrite bool_decide_eq_true_2 by lia; discriminate).
  case_bool_decide; [discriminate|]. intros [= <-]. cbn [lookup list_lookup default].
  rewrite !Join_cons in Hjoin.
  assert (Hrest : manifestKey
                  = (cluster +:+ "/" +:+ host +:+ "/") +:+ Join (third :: parts) "/").
  { rewrite <-Hjoin at 1. rewrite !app_assoc. reflexivity. }
  split; [by eexists|]. split; [apply HasPrefix_spec; by eexists|].
  exists cluster, host. split; [done|].
  inversion Hfresh as [|? ? Hc Hfresh']; subst. by inversion Hfresh'.
Qed.


(** X8. The hostname path [extractHostnamePath] returns is a prefix of the
    manifest key it was taken from, and it is two segments without [/],
    each followed by [/]. *)
Theorem extractHostnamePath_prefix (manifestKey hostnamePath : string) :
  extractHostnamePath manifestKey = Ok hostnamePath →
  (∃ rest, manifestKey = hostnamePath +:+ rest)
  ∧ strings.HasPrefix manifestKey hostnamePath = true
  ∧ ∃ cluster host,
      hostnamePath = cluster +:+ "/" +:+ host +:+ "/"
      ∧ hasByte "/" cluster = false ∧ hasByte "/" host = false.
Proof. apply extractHostnamePath_Ok. Qed.

Lemma extractHostnamePath_prefix_witness :
  strings.HasPrefix "a/b/c/d/e/meta/manifest.json" "a/b/" = true.
Proof.
  by destruct (extractHostnamePath_prefix "a/b/c/d/e/meta/manifest.json" "a/b/") as (_ & ? & _).
Defined.

(** X9. The key [main] forms for an object always lies under the hostname
    path, and forming it again from the key changes nothing: a path that is
    already absolute is not prefixed twice. *)
Theorem objectKey_under_host (hostnamePath path : string) :
  strings.HasPrefix (objectKey hostnamePath path) hostnamePath = true
  ∧ objectKey hostnamePath (objectKey hostnamePath path) = objectKey hostnamePath path.
Proof.
  assert (Hprefix : strings.HasPrefix (objectKey hostnamePath path) hostnamePath = true).
  { unfold objectKey. destruct (strings.HasPrefix path hostnamePath) eqn:Hpath; [done|].
    apply HasPrefix_app. }
  split; [done|]. unfold objectKey at 1. by rewrite Hprefix.
Qed.

Lemma upto_app (before s : string) : upto (String.length before) (before +:+ s) = before.
Proof.
  induction before as [|c before IH]; [by destruct s|].
  rewrite app_cons. cbn. by rewrite IH.
Qed.

Lemma TrimSuffix_app (before suffix : string) :
  TrimSuffix (before +:+ suffix) suffix = before.
Proof.
  unfold TrimSuffix. rewrite (proj2 (HasSuffix_spec _ _)) by by exists before.
  rewrite app_length.
  replace (String.length before + String.length suffix - String.length suffix)%nat
    with (String.length before) by lia.
  apply upto_app.
Qed.

(** X10. [strings.TrimSuffix] removes a suffix that is there and leaves
    every other string as it is, so a trimmed string followed by the
    suffix gives the string back. *)
Theorem TrimSuffix_spec (s suffix : string) :
  (∀ before, s = before +:+ suffix → TrimSuffix s suffix = before)
  ∧ ((¬ ∃ before, s = before +:+ suffix) → TrimSuffix s suffix = s).
Proof.
  split.
  - intros before ->. apply TrimSuffix_app.
  - intros Hnone. unfold TrimSuffix. destruct (HasSuffix s suffix) eqn:Hsuffix; [|done].
    apply HasSuffix_spec in Hsuffix. done.
Qed.

Lemma TrimSuffix_spec_witness :
  TrimSuffix "c/h/b1/meta/manifest.json" "/meta/manifest.json" = "c/h/b1"
  ∧ TrimSuffix "c/h/data/f.db" "/meta/manifest.json" = "c/h/data/f.db".
Proof.
  split.
  - by apply (proj1 (TrimSuffix_spec "c/h/b1/meta/manifest.json" "/meta/manifest.json")).
  - apply (proj2 (TrimSuffix_spec "c/h/data/f.db" "/meta/manifest.json")).
    intros [before Hbefore]. apply (f_equal (λ s, HasSuffix s "/meta/manifest.json")) in Hbefore.
    rewrite (proj2 (HasSuffix_spec (before +:+ _) _)) in Hbefore by by exists before.
    vm_compute in Hbefore. discriminate Hbefore.
Defined.

(** X11. For a manifest at [cluster/host/backup/meta/manifest.json] and a
    relative path, the first version of the program addressed the object
    under the directory of the backup, [cluster/host/backup/path]; the
    program now addresses it under the directory of the host,
    [cluster/host/path]. *)
Theorem objectKey_versions (cluster host backup path : string) :
  hasByte "/" cluster = false → hasByte "/" host = false →
  strings.HasPrefix path (cluster +:+ "/" +:+ host +:+ "/") = false →
  let manifestKey := cluster +:+ "/" +:+ host +:+ "/" +:+ backup +:+ "/meta/manifest.json" in
  FirstVersion.objectKey manifestKey path
  = cluster +:+ "/" +:+ host +:+ "/" +:+ backup +:+ "/" +:+ path
  ∧ (hostnamePath ← extractHostnamePath manifestKey; Ok (objectKey hostnamePath path))
    = Ok (cluster +:+ "/" +:+ host +:+ "/" +:+ path).
Proof.
  intros Hcluster Hhost Hpath manifestKey. split.
  - unfold FirstVersion.objectKey. subst manifestKey.
    replace (cluster +:+ "/" +:+ host +:+ "/" +:+ backup +:+ "/meta/manifest.json")
      with ((cluster +:+ "/" +:+ host +:+ "/" +:+ backup) +:+ "/meta/manifest.json")
      by (by rewrite !app_assoc).
    rewrite TrimSuffix_app. by rewrite !app_assoc.
  - subst manifestKey. rewrite extractHostnamePath_segments by done.
    rewrite bool_decide_eq_true_2.
    + cbn [mbind Res_bind]. unfold objectKey. rewrite Hpath. by rewrite !app_assoc.
    + rewrite count_app.
      assert (count "/" "/meta/manifest.json" = 2%nat) as -> by reflexivity. lia.
Qed.

Lemma objectKey_versions_witness :
  FirstVersion.objectKey ("c" +:+ "/" +:+ "h" +:+ "/" +:+ "b1" +:+ "/meta/manifest.json")
                         "data/ks/t/f1.db"
  = "c" +:+ "/" +:+ "h" +:+ "/" +:+ "b1" +:+ "/" +:+ "data/ks/t/f1.db".
Proof.
  by destruct (objectKey_versions "c" "h" "b1" "data/ks/t/f1.db") as [? _].
Defined.

End keys_facts.

(** ** Discovery and the log *)

Lemma Audited_app (retentionUntil : Time) (t1 t2 : list Event) :
  Audited retentionUntil t1 → Audited retentionUntil t2 → Audited retentionUntil (t1 ++ t2).
Proof.
  induction 1; intros Ht2; cbn [app]; [done|..].
  - apply Audited_other; auto.
  - apply Audited_update; auto.
Qed.

Lemma Audited_split (retentionUntil : Time) (t : list Event) :
  Audited retentionUntil t →
  ∀ before update presp after,
    t = before ++ PutObjectRetentionCall update presp :: after →
    ∃ after', after = LogLine (updateLog (put_Key update) retentionUntil presp) :: after'.
Proof.
  induction 1 as [|e t He _ IH|update' presp' t _ IH]; intros before update presp after Heq.
  - by destruct before.
  - destruct before as [|e' before]; cbn [app] in Heq.
    + injection Heq as -> _. by destruct He.
    + injection Heq as _ Heq. by eapply IH.
  - destruct before as [|e1 [|e2 before]]; cbn [app] in Heq.
    + injection Heq as <- <- <-. by eexists.
    + discriminate Heq.
    + injection Heq as _ _ Heq. by eapply IH.
Qed.

Lemma Chained_onBucket (bucket prefix : string) (token : option string) (t : list Event) :
  Chained bucket prefix token t → Forall (onBucket bucket prefix) t.
Proof. induction 1; by repeat constructor. Qed.

Section Discovery_log.

Context {Client : Type} `{!S3API Client}.
Variable scan : string → Res json.value.
Variable AddDate : Time → Z → Z → Z → Time.
Variable rangeKeys : gmap string bool → list string.

(** X12. The [checkRetention] of the first version, which compared the
    expiry in place, and the [checkRetention] that calls
    [needsRetentionUpdate] answer alike and issue the same call, for every
    client: extracting the evaluator changed nothing. *)
Theorem checkRetention_versions_agree (bucket key : string) (requiredUntil : Time) (c : Client) :
  FirstVersion.checkRetention bucket key requiredUntil c
  = checkRetention bucket key requiredUntil c.
Proof.
  unfold FirstVersion.checkRetention, checkRetention, bind, callGetObjectRetention.
  destruct (GetObjectRetention _ c) as [[out|err] c1]; [|done].
  destruct (Retention out) as [retention|]; [|done].
  by destruct (RetainUntilDate retention).
Qed.

Lemma listPages_Chained (fuel : nat) (bucket prefix : string) (token : option string)
    (backupPaths : gmap string bool) (c : Client) :
  Chained bucket prefix token (trace (listPages fuel bucket prefix token backupPaths c)).
Proof.
  revert token backupPaths c. induction fuel as [|fuel IH]; intros token backupPaths c.
  - constructor.
  - rewrite listPages_S. destruct (ListObjectsV2 _ c).1 as [resp|err].
    + destruct (ToBool (IsTruncated resp)) eqn:Htruncated.
      * apply Chained_more; [done|]. apply IH.
      * by apply Chained_last.
    + apply Chained_failed.
Qed.

(** X13. The listing calls of [findManifests] form a chain: all name the
    bucket and the prefix [cluster/], the first carries no continuation
    token, each further call carries the token of the truncated page before
    it, and no call follows a failed call or a page that is not
    truncated. *)
Theorem findManifests_chains (fuel : nat) (bucket cluster : string) (c : Client) :
  Chained bucket (cluster +:+ "/") None
          (trace (findManifests rangeKeys fuel bucket cluster c)).
Proof. rewrite findManifests_run. apply listPages_Chained. Qed.

Lemma reconcileObject_Audited (bucket : string) (dryRun : bool) (retentionUntil : Time)
    (hostnamePath : string) (obj : ManifestObject) (c : Client) :
  Audited retentionUntil
          (trace (reconcileObject bucket dryRun retentionUntil hostnamePath obj c)).
Proof.
  rewrite reconcileObject_run.
  destruct (verdict _ retentionUntil) as [[] [err|]].
  - by repeat (apply Audited_other; [by intros []|]); constructor.
  - destruct dryRun.
    + by repeat (apply Audited_other; [by intros []|]); constructor.
    + unfold trace. cbn [snd]. apply Audited_other; [by intros []|].
      apply (Audited_update retentionUntil (updateRequest bucket _ retentionUntil)).
      constructor.
  - by repeat (apply Audited_other; [by intros []|]); constructor.
  - by repeat (apply Audited_other; [by intros []|]); constructor.
Qed.

(** X14. Every update [main] issues is followed at once by its line in the
    log: the key and the target when the update succeeded, the key and the
    error when it failed. *)
Theorem updates_are_logged (fuel : nat) (bucket cluster : string) (retentionDays : Z)
    (dryRun : bool) (cfg : Res unit) (now : Time) (c : Client)
    (before after : list Event) (update : PutObjectRetentionInput) (presp : Res unit) :
  trace (main scan AddDate rangeKeys fuel bucket cluster retentionDays dryRun cfg now c)
  = before ++ PutObjectRetentionCall update presp :: after →
  ∃ after',
    after = LogLine match presp with
                    | Ok _ => LogUpdated (put_Key update) (AddDate now 0 0 retentionDays)
                    | Err err => LogUpdateError (put_Key update) err
                    end :: after'.
Proof.
  apply Audited_split. apply main_trace.
  - constructor.
  - apply Audited_app.
  - intros e He. apply Audited_other; [done | constructor].
  - apply reconcileObject_Audited.
Qed.

Lemma objects_onBucket (bucket prefix : string) (dryRun : bool) (retentionUntil : Time)
    (hostnamePath : string) (objects : list ManifestObject) (c : Client) :
  Forall (onBucket bucket prefix)
         (trace (forEach objects
                         (reconcileObject bucket dryRun retentionUntil hostnamePath) c)).
Proof.
  revert c. induction objects as [|obj objects IH]; intros c; [constructor|].
  rewrite forEach_cons. unfold trace at 1. cbn [snd]. apply Forall_app_2; [|apply IH].
  rewrite reconcileObject_run.
  destruct (verdict _ retentionUntil) as [[] [err|]]; try by repeat constructor.
  destruct dryRun; by repeat constructor.
Qed.

Lemma reconcile_onBucket (bucket prefix : string) (dryRun : bool) (retentionUntil : Time)
    (manifests : list string) (c : Client) :
  Forall (onBucket bucket prefix)
         (trace (reconcile scan bucket dryRun retentionUntil manifests c)).
Proof.
  unfold reconcile. revert c. induction manifests as [|manifestKey manifests IH]; intros c.
  - constructor.
  - rewrite forEach_cons. unfold trace at 1. cbn [snd]. apply Forall_app_2; [|apply IH].
    rewrite reconcileManifest_run.
    destruct (downloaded scan _) as [manifest|err]; [|by repeat constructor].
    destruct (extractHostnamePath manifestKey) as [hostnamePath|err];
      [|by repeat constructor].
    cbn zeta. unfold trace at 1. cbn [snd].
    constructor; [done|]. constructor; [done|]. apply objects_onBucket.
Qed.

(** X15. Every call of a run names the bucket of the [-bucket] flag, and
    every listing call the prefix [cluster/]: [main] never addresses another
    bucket and never lists outside the cluster. *)
Theorem calls_stay_on_bucket (fuel : nat) (bucket cluster : string) (retentionDays : Z)
    (dryRun : bool) (cfg : Res unit) (now : Time) (c : Client) :
  Forall (onBucket bucket (cluster +:+ "/"))
         (trace (main scan AddDate rangeKeys fuel bucket cluster retentionDays dryRun cfg
                      now c)).
Proof.
  pose proof (Chained_onBucket _ _ _ _
                (listPages_Chained fuel bucket (cluster +:+ "/") None ∅ c)) as Hlist.
  destruct (main_cases scan AddDate rangeKeys fuel bucket cluster retentionDays dryRun cfg now c)
    as [(_ & -> & _)|[_ Hrun]]; [constructor|].
  rewrite findManifests_run in Hrun. unfold result at 1, final at 1 2 3, trace at 1 2 3 in Hrun.
  cbn [fst snd] in Hrun.
  destruct (result (listPages fuel bucket (cluster +:+ "/") None ∅ c)) as [[found|err]|];
    cbn zeta in Hrun; rewrite Hrun; unfold trace at 1; cbn [snd]; try done.
  apply Forall_app_2; [done|]. constructor; [done|].
  apply Forall_app_2; [apply reconcile_onBucket | by repeat constructor].
Qed.

(** X16. Every key whose retention the driver queries for a manifest lies
    under the hostname path of that manifest, which is itself a prefix of
    the key of the manifest: a manifest reaches no object outside its own
    [cluster/host/]. *)
Theorem queries_under_host (bucket : string) (dryRun : bool) (retentionUntil : Time)
    (manifestKey : string) (c : Client) (key : string) :
  key ∈ checked (trace (reconcileManifest scan bucket dryRun retentionUntil manifestKey c)) →
  ∃ hostnamePath,
    extractHostnamePath manifestKey = Ok hostnamePath
    ∧ strings.HasPrefix manifestKey hostnamePath = true
    ∧ strings.HasPrefix key hostnamePath = true.
Proof.
  rewrite reconcileManifest_run.
  destruct (downloaded scan _) as [manifest|err]; [|by intros ?%elem_of_nil].
  destruct (extractHostnamePath manifestKey) as [hostnamePath|err] eqn:Hpath;
    [|by intros ?%elem_of_nil].
  cbn zeta. unfold trace at 1. cbn [snd].
  change (checked (LogLine ?e :: GetObjectCall ?p ?r :: ?t)) with (checked t).
  rewrite (Bucket_facts.checked_objects bucket dryRun retentionUntil hostnamePath).
  intros (path & -> & _)%list_elem_of_fmap.
  exists hostnamePath. split; [done|]. split.
  - by destruct (keys_facts.extractHostnamePath_Ok _ _ Hpath) as (_ & ? & _).
  - unfold objectKey. destruct (strings.HasPrefix path hostnamePath) eqn:Hprefix; [done|].
    apply strings_facts.HasPrefix_app.
Qed.

End Discovery_log.

(** ** What a run does to the bucket in memory *)

Module Bucket_run.
Import Bucket Bucket_facts.

Lemma raises_refl (requiredUntil : Time) (b : Bucket) : raises requiredUntil b b.
Proof. split; [apply sameContent_refl | by left]. Qed.

Lemma raises_trans (requiredUntil : Time) (b1 b2 b3 : Bucket) :
  raises requiredUntil b1 b2 → raises requiredUntil b2 b3 → raises requiredUntil b1 b3.
Proof.
  intros [Hsame12 Hexp12] [Hsame23 Hexp23]. split; [by eapply sameContent_trans|].
  intros key. destruct (Hexp23 key) as [->|[-> Hneeds]]; [apply Hexp12|].
  destruct (Hexp12 key) as [Heq|[Heq _]]; rewrite Heq in Hneeds.
  - by right.
  - cbn in Hneeds. unfold Before in Hneeds. by rewrite Z.ltb_irrefl in Hneeds.
Qed.

Lemma reconcileObject_raises (bucket : string) (dryRun : bool) (requiredUntil : Time)
    (hostnamePath : string) (obj : ManifestObject) (b : Bucket) :
  raises requiredUntil b
         (final (reconcileObject bucket dryRun requiredUntil hostnamePath obj b)).
Proof.
  rewrite reconcileObject_run.
  set (key := objectKey hostnamePath (Path obj)).
  destruct (query_verdict bucket key requiredUntil b) as [-> ->].
  destruct (needsRetentionUpdate (expiry b key) requiredUntil) eqn:Hneeds;
    [|apply raises_refl].
  destruct dryRun; [apply raises_refl|].
  unfold final. cbn [fst snd]. rewrite PutObjectRetention_eq.
  cbn [put_Key put_Retention updateRequest].
  destruct (Stored b !! key) as [o|] eqn:Hkey; [|apply raises_refl].
  cbn [snd]. split; [by apply sameContent_lock|].
  intros key'. rewrite expiry_lock. case_decide as Heq; [|by left].
  right. by rewrite <-Heq.
Qed.

Lemma reconcile_raises scan (bucket : string) (dryRun : bool) (requiredUntil : Time)
    (manifests : list string) (b : Bucket) :
  raises requiredUntil b (final (reconcile scan bucket dryRun requiredUntil manifests b)).
Proof.
  apply (reconcile_rel (λ b _ b', raises requiredUntil b b')).
  - apply raises_refl.
  - intros b1 _ b2 _ b3. apply raises_trans.
  - intros. apply raises_refl.
  - intros. apply raises_refl.
  - intros. apply reconcileObject_raises.
Qed.

(** X17. A run over the bucket in memory changes no content and removes or
    adds no object; it leaves every expiry as it was or raises it to the
    target, and raises it only where it was absent or before the target:
    no expiry is ever lowered. *)
Theorem run_only_raises scan AddDate rangeKeys (fuel : nat) (bucket cluster : string)
    (retentionDays : Z) (dryRun : bool) (cfg : Res unit) (now : Time) (b : Bucket)
    (key : string) :
  let after :=
    final (main scan AddDate rangeKeys fuel bucket cluster retentionDays dryRun cfg now b) in
  let target := AddDate now 0 0 retentionDays in
  Data <$> (Stored after !! key) = Data <$> (Stored b !! key)
  ∧ (expiry after key = expiry b key
     ∨ (expiry after key = Some target
        ∧ (expiry b key = None ∨ ∃ current, expiry b key = Some current ∧ current < target)))
  ∧ (∀ current, expiry b key = Some current →
                ∃ current', expiry after key = Some current' ∧ current ≤ current').
Proof.
  intros after target.
  assert (Hraises : raises target b after).
  { subst after.
    destruct (main_cases scan AddDate rangeKeys fuel bucket cluster retentionDays dryRun cfg
                         now b) as [(_ & _ & -> & _)|[_ Hrun]]; [apply raises_refl|].
    rewrite findManifests_bucket in Hrun.
    destruct (result (findManifests rangeKeys fuel bucket cluster b)) as [[manifests|err]|];
      cbn zeta in Hrun; rewrite Hrun; unfold final at 1; cbn [fst snd];
      try apply raises_refl.
    apply reconcile_raises. }
  destruct Hraises as [[_ Hdata] Hexpiry]. split; [by rewrite Hdata|].
  destruct (Hexpiry key) as [Heq|[Heq Hneeds]].
  - split; [by left|]. intros current Hcurrent. exists current. by rewrite Heq.
  - apply needsRetentionUpdate_true in Hneeds. split; [by right|].
    intros current Hcurrent. exists target. split; [done|].
    destruct Hneeds as [Hnone|(current' & Hsome & Hlt)]; [congruence|].
    rewrite Hcurrent in Hsome. injection Hsome as <-. lia.
Qed.

(** X18. A dry run leaves the bucket in memory exactly as it found it. *)
Theorem dry_run_changes_nothing scan AddDate rangeKeys (fuel : nat) (bucket cluster : string)
    (retentionDays : Z) (cfg : Res unit) (now : Time) (b : Bucket) :
  final (main scan AddDate rangeKeys fuel bucket cluster retentionDays true cfg now b) = b.
Proof.
  destruct (main_cases scan AddDate rangeKeys fuel bucket cluster retentionDays true cfg now b)
    as [(_ & _ & -> & _)|[_ Hrun]]; [done|].
  rewrite findManifests_bucket in Hrun.
  destruct (result (findManifests rangeKeys fuel bucket cluster b)) as [[manifests|err]|];
    cbn zeta in Hrun; rewrite Hrun; unfold final at 1; cbn [fst snd]; try done.
  apply (reconcile_rel (λ b _ b', b' = b)); try done.
  - by intros b1 _ b2 _ b3 -> ->.
  - intros hostnamePath obj b'. rewrite reconcileObject_run.
    destruct (query_verdict bucket (objectKey hostnamePath (Path obj))
                            (AddDate now 0 0 retentionDays) b') as [-> ->].
    by destruct (needsRetentionUpdate _ _).
Qed.

(** X19. After a run that is no dry run and whose updates have all
    succeeded, every object named by a manifest that was found, downloads,
    decodes and has a hostname path is protected until the target at
    least. *)
Theorem run_protects scan AddDate rangeKeys (fuel : nat) (bucket cluster : string)
    (retentionDays : Z) (cfg : Res unit) (now : Time) (b : Bucket)
    (manifests : list string) (manifestKey key : string) :
  let run := main scan AddDate rangeKeys fuel bucket cluster retentionDays false cfg now b in
  validFlags bucket cluster retentionDays cfg →
  result (findManifests rangeKeys fuel bucket cluster b) = Some (Ok manifests) →
  (∀ update presp, PutObjectRetentionCall update presp ∈ trace run → presp = Ok tt) →
  manifestKey ∈ manifests →
  key ∈ referenced scan b manifestKey →
  ∃ current,
    expiry (final run) key = Some current ∧ AddDate now 0 0 retentionDays ≤ current.
Proof.
  intros run Hvalid Hfound Hok Hmanifest Hkey. subst run.
  destruct (main_cases scan AddDate rangeKeys fuel bucket cluster retentionDays false cfg now b)
    as [(Hinvalid & _)|[_ Hrun]]; [done|].
  rewrite Hfound, findManifests_bucket in Hrun. cbn zeta in Hrun.
  destruct (reconcile_step scan bucket false (AddDate now 0 0 retentionDays) manifests b)
    as (_ & _ & _ & Hdone).
  rewrite Hrun in Hok |- *. unfold final at 1. cbn [fst snd].
  apply Hdone; [done| |].
  - intros update presp Hin. apply (Hok update). unfold trace at 1. cbn [snd].
    apply elem_of_app. right. right. apply elem_of_app. by left.
  - apply checked_reconcile_elem. by exists manifestKey.
Qed.

End Bucket_run.

(** ** Manifests in the format of the backup tool *)

Module manifest_facts.

Lemma mapRes_id {A B} (f : A → Res B) (h : B → A) (l : list B) :
  (∀ b, b ∈ l → f (h b) = Ok b) → mapRes f (h <$> l) = Ok l.
Proof.
  induction l as [|b l IH]; intros Hf; [done|].
  rewrite fmap_cons. cbn [mapRes]. rewrite Hf by left. cbn [mbind Res_bind].
  rewrite IH; [done|]. intros b' Hb'. apply Hf. by right.
Qed.

Lemma mapRes_Err {A B} (f : A → Res B) (l : list A) (a : A) :
  a ∈ l → isErr (f a) = true → isErr (mapRes f l) = true.
Proof.
  induction l as [|a' l IH]; intros Hin Herr; [by apply elem_of_nil in Hin|].
  cbn [mapRes]. destruct (f a') as [b|e] eqn:Hfa'; [|done]. cbn [mbind Res_bind].
  apply elem_of_cons in Hin as [->|Hin]; [by rewrite Hfa' in Herr|].
  specialize (IH Hin Herr). by destruct (mapRes f l).
Qed.

Lemma intoObject_objectRecord (literal : Z → string) (o : ManifestObject) :
  json.intoObject (json.objectRecord literal o)
  = match json.ParseInt64 (literal (Size o)) with
    | Some n => Ok {| Path := Path o; MD5 := MD5 o; Size := n |}
    | None => Err "json: cannot unmarshal number into Go value of type int64"
    end.
Proof.
  unfold json.intoObject, json.objectRecord, foldRes, json.objectMember. cbn [fst snd].
  change (json.selects "path" "path") with true.
  change (json.selects "path" "MD5") with false.
  change (json.selects "MD5" "MD5") with true.
  change (json.selects "path" "size") with false.
  change (json.selects "MD5" "size") with false.
  change (json.selects "size" "size") with true.
  cbn [json.intoString json.intoInt64 mbind Res_bind Path MD5 Size json.zeroObject].
  by destruct (json.ParseInt64 (literal (Size o))).
Qed.

Lemma intoEntry_entryRecord (literal : Z → string) (e : ManifestEntry) :
  json.intoEntry (json.entryRecord literal e)
  = objects ← mapRes json.intoObject (json.objectRecord literal <$> EntryObjects e);
    Ok {| Keyspace := Keyspace e; ColumnFamily := ColumnFamily e; EntryObjects := objects |}.
Proof.
  unfold json.intoEntry, json.entryRecord, foldRes, json.entryMember. cbn [fst snd].
  change (json.selects "keyspace" "keyspace") with true.
  change (json.selects "keyspace" "columnfamily") with false.
  change (json.selects "columnfamily" "columnfamily") with true.
  change (json.selects "keyspace" "objects") with false.
  change (json.selects "columnfamily" "objects") with false.
  change (json.selects "objects" "objects") with true.
  cbn [json.intoString json.intoObjects mbind Res_bind Keyspace ColumnFamily EntryObjects
       json.zeroEntry].
  rewrite ontoObjects_nil.
  by destruct (mapRes json.intoObject _).
Qed.

(** X20. A manifest in the format of the backup tool, whose sizes are
    written as integers of 64 bits, decodes to its entries, and
    [parseManifest] returns their objects with path, checksum and size, in
    the order of the entries and, within an entry, of its objects. *)
Theorem parseManifest_manifestDocument scan (data : string) (literal : Z → string)
    (entries : list ManifestEntry) :
  scan data = Ok (json.manifestDocument literal entries) →
  (∀ e o, e ∈ entries → o ∈ EntryObjects e → json.ParseInt64 (literal (Size o)) = Some (Size o)) →
  json.UnmarshalEntries (json.manifestDocument literal entries) = Ok entries
  ∧ parseManifest scan data = Ok {| Objects := concat (EntryObjects <$> entries) |}.
Proof.
  intros Hscan Hsizes.
  assert (Hentries : json.UnmarshalEntries (json.manifestDocument literal entries) = Ok entries).
  { unfold json.UnmarshalEntries, json.manifestDocument. apply mapRes_id.
    intros e He. rewrite intoEntry_entryRecord.
    rewrite mapRes_id; [by destruct e|].
    intros o Ho. rewrite intoObject_objectRecord, (Hsizes e o) by done. by destruct o. }
  split; [done|]. unfold parseManifest. rewrite Hscan.
  change (Ok (json.manifestDocument literal entries) ≫= λ doc, json.UnmarshalEntries doc)
    with (json.UnmarshalEntries (json.manifestDocument literal entries)).
  rewrite Hentries. by rewrite flatten_fold.
Qed.

Lemma parseManifest_manifestDocument_witness :
  parseManifest
    (λ _, Ok (json.manifestDocument (λ _, "1024")
                [{| Keyspace := "ks"; ColumnFamily := "t";
                    EntryObjects := [{| Path := "data/ks/t/f1.db"; MD5 := "abc"; Size := 1024 |}]
                 |}]))
    "manifest"
  = Ok {| Objects := [{| Path := "data/ks/t/f1.db"; MD5 := "abc"; Size := 1024 |}] |}.
Proof.
  destruct (parseManifest_manifestDocument
              (λ _, Ok (json.manifestDocument (λ _, "1024")
                          [{| Keyspace := "ks"; ColumnFamily := "t";
                              EntryObjects :=
                                [{| Path := "data/ks/t/f1.db"; MD5 := "abc";
                                    Size := 1024 |}] |}]))
              "manifest" (λ _, "1024")
              [{| Keyspace := "ks"; ColumnFamily := "t";
                  EntryObjects :=
                    [{| Path := "data/ks/t/f1.db"; MD5 := "abc"; Size := 1024 |}] |}])
    as [_ Hparse].
  - reflexivity.
  - intros e o ->%list_elem_of_singleton ->%list_elem_of_singleton. reflexivity.
  - exact Hparse.
Defined.

(** X21. One size that is no integer of 64 bits makes [parseManifest]
    refuse the whole manifest: no object of it is returned. *)
Theorem parseManifest_refuses_bad_size scan (data : string) (literal : Z → string)
    (entries : list ManifestEntry) (e : ManifestEntry) (o : ManifestObject) :
  scan data = Ok (json.manifestDocument literal entries) →
  e ∈ entries → o ∈ EntryObjects e → json.ParseInt64 (literal (Size o)) = None →
  isErr (parseManifest scan data) = true.
Proof.
  intros Hscan He Ho Hsize.
  assert (Hentries : isErr (json.UnmarshalEntries (json.manifestDocument literal entries))
                     = true).
  { unfold json.UnmarshalEntries, json.manifestDocument.
    apply (mapRes_Err _ _ (json.entryRecord literal e)).
    - apply list_elem_of_fmap. by exists e.
    - rewrite intoEntry_entryRecord.
      assert (Hobjects : isErr (mapRes json.intoObject
                                       (json.objectRecord literal <$> EntryObjects e)) = true).
      { apply (mapRes_Err _ _ (json.objectRecord literal o)).
        - apply list_elem_of_fmap. by exists o.
        - by rewrite intoObject_objectRecord, Hsize. }
      by destruct (mapRes json.intoObject _). }
  unfold parseManifest. rewrite Hscan.
  change (Ok (json.manifestDocument literal entries) ≫= λ doc, json.UnmarshalEntries doc)
    with (json.UnmarshalEntries (json.manifestDocument literal entries)).
  by destruct (json.UnmarshalEntries _).
Qed.

Lemma parseManifest_refuses_bad_size_witness :
  isErr (parseManifest
           (λ _, Ok (json.manifestDocument (λ _, "1.5")
                       [{| Keyspace := "ks"; ColumnFamily := "t";
                           EntryObjects :=
                             [{| Path := "data/ks/t/f1.db"; MD5 := "abc"; Size := 1 |}] |}]))
           "manifest") = true.
Proof.
  apply (parseManifest_refuses_bad_size
           (λ _, Ok (json.manifestDocument (λ _, "1.5")
                       [{| Keyspace := "ks"; ColumnFamily := "t";
                           EntryObjects :=
                             [{| Path := "data/ks/t/f1.db"; MD5 := "abc"; Size := 1 |}] |}]))
           "manifest" (λ _, "1.5")
           [{| Keyspace := "ks"; ColumnFamily := "t";
               EntryObjects := [{| Path := "data/ks/t/f1.db"; MD5 := "abc"; Size := 1 |}] |}]
           {| Keyspace := "ks"; ColumnFamily := "t";
              EntryObjects := [{| Path := "data/ks/t/f1.db"; MD5 := "abc"; Size := 1 |}] |}
           {| Path := "data/ks/t/f1.db"; MD5 := "abc"; Size := 1 |}).
  - reflexivity.
  - by left.
  - by left.
  - reflexivity.
Defined.

(** X22. The decoder of the first version took a mapping: the paths under
    the key [objects], no object when the key is missing, as in the empty
    mapping; it refused a sequence of per-table records. *)
Theorem first_version_decodes_mappings (key : string) (paths : list string)
    (tables : list (list string)) :
  Legacy.UnmarshalManifest (json.flatDocument "objects" paths)
  = Ok {| Objects := json.objectOf <$> paths |}
  ∧ (json.selects "objects" key = false →
     Legacy.UnmarshalManifest (json.flatDocument key paths) = Ok {| Objects := [] |})
  ∧ Legacy.UnmarshalManifest (json.Object []) = Ok {| Objects := [] |}
  ∧ isErr (Legacy.UnmarshalManifest (json.tableDocument tables)) = true.
Proof.
  split; [|split; [|done]].
  - unfold Legacy.UnmarshalManifest, json.flatDocument, foldRes, Legacy.manifestMember.
    cbn [fst snd]. change (json.selects "objects" "objects") with true.
    unfold Legacy.intoPaths. cbn [Objects]. rewrite Legacy_ontoPaths_nil.
    by rewrite (mapRes_fmap_Ok _ _ json.objectOf) by apply Legacy_intoPath_pathRecord.
  - intros Hkey.
    unfold Legacy.UnmarshalManifest, json.flatDocument, foldRes, Legacy.manifestMember.
    cbn [fst snd]. by rewrite Hkey.
Qed.

Lemma first_version_decodes_mappings_witness :
  Legacy.UnmarshalManifest (json.flatDocument "files" ["data/ks/t/f1.db"])
  = Ok {| Objects := [] |}.
Proof.
  by apply (first_version_decodes_mappings "files" ["data/ks/t/f1.db"] []).
Defined.

End manifest_facts.

(** ** Discovery on the bucket in memory *)

Module Bucket_discovery.
Import Bucket Bucket_facts.

(** The pages that remain from a point of the sorted keys on hold just the
    keys that remain. *)
Lemma Listing_contents (b : Bucket) (bucket prefix : string) (n : nat) :
  ∀ (before rest : list string) (token : option string),
    keys b prefix = before ++ rest →
    (length rest ≤ n)%nat →
    match token with
    | None => keys b prefix
    | Some key => after key (keys b prefix)
    end = rest →
    ∃ pages,
      Listing bucket prefix token b pages None b
      ∧ (length pages ≤ S n)%nat
      ∧ concat (Contents <$> pages) = rest.
Proof.
  induction n as [|n IH]; intros before rest token Hkeys Hlen Hrest.
  - destruct rest; [|cbn in Hlen; lia].
    set (params := {| list_Bucket := bucket; list_Prefix := prefix;
                      ContinuationToken := token |}).
    exists [page b params]. split; [|split; [cbn; lia|]].
    + apply Listing_last; [done|]. unfold page. cbn [ContinuationToken list_Prefix params].
      rewrite Hrest. by rewrite drop_nil.
    + cbn. unfold page. cbn [ContinuationToken list_Prefix params Contents].
      rewrite Hrest. by rewrite take_nil.
  - set (params := {| list_Bucket := bucket; list_Prefix := prefix;
                      ContinuationToken := token |}).
    set (size := Nat.max 1 (MaxKeys b)).
    assert (Hcontents : Contents (page b params) = take size rest).
    { unfold page. cbn [ContinuationToken list_Prefix params Contents]. by rewrite Hrest. }
    destruct (decide (drop size rest = [])) as [Hlast|Hmore].
    + exists [page b params]. split; [|split; [cbn; lia|]].
      * apply Listing_last; [done|]. unfold page. cbn [ContinuationToken list_Prefix params].
        rewrite Hrest. fold size. by rewrite Hlast.
      * cbn [fmap list_fmap concat]. rewrite Hcontents, app_nil_r.
        rewrite <-(take_drop size rest) at 2. by rewrite Hlast, app_nil_r.
    + assert (Htruncated : ToBool (IsTruncated (page b params)) = true).
      { unfold page. cbn [ContinuationToken list_Prefix params]. rewrite Hrest. fold size.
        cbn. by rewrite bool_decide_eq_true_2. }
      assert (Hnext : NextContinuationToken (page b params) = last (take size rest)).
      { unfold page. cbn [ContinuationToken list_Prefix params]. rewrite Hrest. fold size.
        cbn. by rewrite bool_decide_eq_true_2. }
      assert (Hsize : (1 ≤ size)%nat) by (unfold size; lia).
      destruct (take size rest) as [|key0 taken0] eqn:Htake using rev_ind.
      { apply (f_equal length) in Htake. rewrite length_take in Htake.
        destruct rest; [by rewrite drop_nil in Hmore | cbn in Htake; lia]. }
      clear IHtaken0. rename key0 into key, taken0 into taken.
      rewrite last_snoc in Hnext.
      assert (Hall : keys b prefix = (before ++ taken) ++ key :: drop size rest).
      { rewrite Hkeys. rewrite <-(take_drop size rest) at 1. rewrite Htake.
        by rewrite <-!app_assoc. }
      destruct (IH (before ++ taken ++ [key]) (drop size rest) (Some key))
        as (pages & Hpages & Hcount & Hconcat).
      * rewrite Hall. by rewrite <-!app_assoc.
      * rewrite length_drop. lia.
      * rewrite Hall. apply after_fresh.
        pose proof (keys_NoDup b prefix) as Hnodup. rewrite Hall in Hnodup.
        apply NoDup_app in Hnodup as (_ & Hdisjoint & _).
        intros Hin. apply (Hdisjoint key Hin). by left.
      * exists (page b params :: pages). split; [|split; [cbn; lia|]].
        -- eapply Listing_more; [done | done |]. by rewrite Hnext.
        -- rewrite fmap_cons. cbn [concat]. rewrite Hcontents, Hconcat.
           rewrite <-Htake. apply take_drop.
Qed.

Lemma elem_of_keys (b : Bucket) (prefix key : string) :
  key ∈ keys b prefix ↔ is_Some (Stored b !! key) ∧ strings.HasPrefix key prefix = true.
Proof.
  unfold keys. rewrite list_elem_of_filter, merge_sort_Permutation, elem_of_elements, elem_of_dom.
  tauto.
Qed.

(** X23. On the bucket in memory, with fuel for one page per key and one
    more, [findManifests] returns, whatever the page size, exactly the keys
    of the bucket that begin with [cluster/] and end in
    [/meta/manifest.json], each once. *)
Theorem discovery_on_bucket (rangeKeys : gmap string bool → list string) (fuel : nat)
    (bucket cluster : string) (b : Bucket) :
  (∀ m, rangeKeys m ≡ₚ (map_to_list m).*1) →
  (length (keys b (cluster +:+ "/")) < fuel)%nat →
  ∃ manifests,
    result (findManifests rangeKeys fuel bucket cluster b) = Some (Ok manifests)
    ∧ NoDup manifests
    ∧ ∀ key, key ∈ manifests ↔
        is_Some (Stored b !! key)
        ∧ strings.HasPrefix key (cluster +:+ "/") = true
        ∧ strings.HasSuffix key "/meta/manifest.json" = true.
Proof.
  intros Hperm Hfuel.
  destruct (Listing_contents b bucket (cluster +:+ "/") (length (keys b (cluster +:+ "/"))) []
                             (keys b (cluster +:+ "/")) None)
    as (pages & Hlisting & Hpages & Hconcat); [done..|].
  destruct (listPages_Listing _ _ _ _ _ _ _ Hlisting fuel ∅) as (_ & found & Hfound & Hdom);
    [lia|].
  exists (rangeKeys found). split; [|split].
  - rewrite findManifests_run. unfold result at 1. cbn [fst]. by rewrite Hfound.
  - by apply rangeKeys_NoDup.
  - intros key. rewrite (rangeKeys_dom rangeKeys Hperm), Hdom, dom_empty, elem_of_empty. split.
    + intros [[]|(page & Hpage & Hkey & Hsuffix)].
      assert (Hlisted : key ∈ keys b (cluster +:+ "/")).
      { rewrite <-Hconcat. apply list_elem_of_In, in_concat. exists (Contents page). split.
        - apply list_elem_of_In, list_elem_of_fmap. by exists page.
        - by apply list_elem_of_In. }
      apply elem_of_keys in Hlisted as [? ?]. done.
    + intros (Hsome & Hprefix & Hsuffix). right.
      assert (Hlisted : key ∈ keys b (cluster +:+ "/")) by by apply elem_of_keys.
      rewrite <-Hconcat in Hlisted.
      apply list_elem_of_In, in_concat in Hlisted as (contents & Hcontents & Hkey).
      apply list_elem_of_In, list_elem_of_fmap in Hcontents as (page & -> & Hpage).
      exists page. split; [done|]. split; [by apply list_elem_of_In | done].
Qed.

Lemma discovery_on_bucket_witness :
  ∃ manifests,
    result (findManifests Example.rangeKeys 4 "backups" "c" Example.bucket)
    = Some (Ok manifests)
    ∧ NoDup manifests
    ∧ ∀ key, key ∈ manifests ↔
        is_Some (Stored Example.bucket !! key)
        ∧ strings.HasPrefix key ("c" +:+ "/") = true
        ∧ strings.HasSuffix key "/meta/manifest.json" = true.
Proof.
  apply (discovery_on_bucket Example.rangeKeys 4 "backups" "c" Example.bucket).
  - apply Example_rangeKeys_perm.
  - vm_compute. lia.
Defined.

End Bucket_discovery.

(** ** The further properties on the example *)

Lemma dry_run_issues_no_update_witness :
  ¬ isPut (LogLine (LogDryRun "c/h/data/ks/t/f1.db")).
Proof.
  apply (dry_run_issues_no_update Example.scan Example.AddDate Example.rangeKeys 5
           "backups" "c" 1 (Ok tt) 0 Example.bucket).
  apply list_elem_of_In. vm_compute. repeat (first [left; reflexivity | right]).
Defined.

Lemma main_refuses_bad_flags_witness :
  let run := main Example.scan Example.AddDate Example.rangeKeys 5 "" "c" 1 false (Ok tt) 0
                  Example.bucket in
  trace run = [] ∧ final run = Example.bucket ∧ ∃ message, result run = Some (Fatal message).
Proof.
  apply (main_refuses_bad_flags Example.scan Example.AddDate Example.rangeKeys 5 "" "c" 1
           false (Ok tt) 0 Example.bucket).
  by left.
Defined.

Lemma manifests_downloaded_once_witness :
  downloads (trace (main Example.scan Example.AddDate Example.rangeKeys 5 "backups" "c" 1 false
                         (Ok tt) 0 Example.bucket))
  = ["c/h/b1/meta/manifest.json"; "c/h/b2/meta/manifest.json"].
Proof.
  apply (manifests_downloaded_once Example.scan Example.AddDate Example.rangeKeys 5
           "backups" "c" 1 false (Ok tt) 0 Example.bucket).
  - repeat split; done || lia.
  - by vm_compute.
Defined.

Lemma updates_are_logged_witness :
  let t := trace (main Example.scan Example.AddDate Example.rangeKeys 5 "backups" "c" 1 false
                       (Ok tt) 0 Example.bucket) in
  ∃ after',
    drop 7 t = LogLine (LogUpdated "c/h/data/ks/t/f1.db" 86400000000000) :: after'.
Proof.
  intros t.
  apply (updates_are_logged Example.scan Example.AddDate Example.rangeKeys 5 "backups" "c" 1
           false (Ok tt) 0 Example.bucket (take 6 t) (drop 7 t)
           (updateRequest "backups" "c/h/data/ks/t/f1.db" 86400000000000) (Ok tt)).
  by vm_compute.
Defined.

Lemma queries_under_host_witness :
  ∃ hostnamePath,
    extractHostnamePath "c/h/b1/meta/manifest.json" = Ok hostnamePath
    ∧ strings.HasPrefix "c/h/b1/meta/manifest.json" hostnamePath = true
    ∧ strings.HasPrefix "c/h/data/ks/t/f1.db" hostnamePath = true.
Proof.
  apply (queries_under_host Example.scan "backups" false 10 "c/h/b1/meta/manifest.json"
           Example.bucket).
  apply list_elem_of_In. vm_compute. by left.
Defined.

Lemma run_protects_witness :
  ∃ current,
    Bucket.expiry
      (final (main Example.scan Example.AddDate Example.rangeKeys 5 "backups" "c" 1 false
                   (Ok tt) 0 Example.complete))
      "c/h/data/ks/t/f2.db" = Some current
    ∧ Example.AddDate 0 0 0 1 ≤ current.
Proof.
  apply (Bucket_run.run_protects Example.scan Example.AddDate Example.rangeKeys 5
           "backups" "c" 1 (Ok tt) 0 Example.complete
           ["c/h/b1/meta/manifest.json"; "c/h/b2/meta/manifest.json"]
           "c/h/b1/meta/manifest.json").
  - repeat split; done || lia.
  - by vm_compute.
  - intros update presp Hin%list_elem_of_In. vm_compute in Hin.
    repeat (destruct Hin as [Hin|Hin];
            [first [discriminate Hin | by injection Hin as _ <-]|]).
    destruct Hin.
  - by left.
  - apply list_elem_of_In. vm_compute. right. by left.
Defined.
